(** * Boolean Expression Solver: the recursive-descent evaluator of
      [solver.c] (command-line host) and [server.c] (CGI host), and the
      truth-table enumerator, embedded as executable Rocq functions.

    Conventions of the embedding.

    - A C string is a [string] (a list of bytes); the terminating NUL is
      implicit at its end.  A NUL byte met inside the list terminates the C
      string as well.
    - [const char **s] is a [cursor]: either it points into the string
      (at the terminator when the rest is empty) or it has been moved
      beyond the terminator, where every dereference reads past the end of
      the input.
    - [int] values are integers of [Z]; the only place where the width of
      [int] matters is [1 << var_count] in [generate_truth_table].
    - The process-wide state is the global table [g_var_mapping] and what
      has been written to [stderr].
    - The two hosts carry the same parser text, except for the last branch
      of [parse_factor]; the parser takes the host as a parameter.
    - The recursion of the parser is bounded by a fuel argument;
      [run_parser] supplies enough of it for every input
      ([run_parser_terminates], [fuel_is_not_observable]).

    The development has three parts: the embedding of the code and the
    notions the statements use; lemmas on the parser (termination, its
    behaviour on the sentences of the grammar, the role of the process
    state) and on the table; the statements C1 to C10. *)

From Stdlib Require Import ZArith List String Ascii Bool Lia.
Import ListNotations.

Open Scope string_scope.
Open Scope Z_scope.

(** ** Characters *)

Definition NUL : ascii := "000"%char.

(** [**s] in a condition: true for every byte but the terminator. *)
Definition nonzero (c : ascii) : bool := negb (Ascii.eqb c NUL).

Definition code (c : ascii) : Z := Z.of_N (N_of_ascii c).

(** Promotion of a [char] to [int] ([char] is signed with gcc on x86). *)
Definition char_to_int (c : ascii) : Z :=
  if code c <? 128 then code c else code c - 256.

(** <ctype.h> in the "C" locale (the programs never call [setlocale]); no
    byte above 127 is in any of the three classes. *)
Definition isspace (c : ascii) : bool :=
  (code c =? 32) || ((9 <=? code c) && (code c <=? 13)).

Definition isdigit (c : ascii) : bool :=
  (48 <=? code c) && (code c <=? 57).

Definition isalpha (c : ascii) : bool :=
  ((65 <=? code c) && (code c <=? 90)) || ((97 <=? code c) && (code c <=? 122)).

(** The character constant written between quotes in [**s == '·'].  Both
    files are UTF-8, where the middle dot is the two bytes C2 B7, so the
    constant is a multi-character constant; gcc (the compiler named in the
    headers of both files) gives it the [int] value 0xC2B7. *)
Definition MIDDLE_DOT : Z := 49847.

(** [**s == '·']: the promoted byte against the constant. *)
Definition is_middle_dot (c : ascii) : bool := char_to_int c =? MIDDLE_DOT.

(** ** C truth values *)

(** [(a || b) ? 1 : 0] *)
Definition c_or (a b : Z) : Z :=
  if negb (a =? 0) || negb (b =? 0) then 1 else 0.

(** [(a && b) ? 1 : 0] *)
Definition c_and (a b : Z) : Z :=
  if negb (a =? 0) && negb (b =? 0) then 1 else 0.

(** [(!a) ? 1 : 0] *)
Definition c_not (a : Z) : Z := if a =? 0 then 1 else 0.

(** ** Process state, cursors and outcomes *)

(** [int mapping[256]]: one entry per byte value.  The parser indexes it
    with bytes on which [isalpha] holds only, that is with 65..90 and
    97..122. *)
Definition mapping := ascii -> Z.

Record state := mkState
  { g_var_mapping : mapping;
    stderr : list string }.

Definition MISSING_PAREN : string := "Error: Missing closing parenthesis.".

Inductive cursor :=
| At (rest : string)
| Beyond.

Inductive fault :=
| ReadPastEnd     (* a dereference beyond the terminating NUL *)
| ShiftOverflow   (* [1 << n] not representable in [int] *)
| OutOfFuel.      (* the recursion bound of the embedding was reached *)

Inductive outcome (A : Type) :=
| Ok (a : A)
| Fault (f : fault).

Arguments Ok {A} a.
Arguments Fault {A} f.

(** [**s] *)
Definition deref (p : cursor) : option ascii :=
  match p with
  | At EmptyString => Some NUL
  | At (String c _) => Some c
  | Beyond => None
  end.

(** The increment of the pointee of [s]: one byte forward. *)
Definition incr (p : cursor) : cursor :=
  match p with
  | At (String c r) => if nonzero c then At r else Beyond
  | At EmptyString => Beyond
  | Beyond => Beyond
  end.

(** Computations of the parser: they move the cursor and may write to
    [stderr]. *)
Definition P (A : Type) : Type := cursor -> state -> outcome (A * cursor * state).

Definition ret {A} (a : A) : P A := fun p st => Ok (a, p, st).

Definition bind {A B} (m : P A) (k : A -> P B) : P B :=
  fun p st =>
    match m p st with
    | Ok (a, p', st') => k a p' st'
    | Fault f => Fault f
    end.

Notation "x <- m ;; k" := (bind m (fun x => k))
  (at level 61, m at next level, right associativity).
Notation "m ;;; k" := (bind m (fun _ => k))
  (at level 61, right associativity).

Definition peek : P ascii :=
  fun p st => match deref p with
              | Some c => Ok (c, p, st)
              | None => Fault ReadPastEnd
              end.

Definition advance : P unit := fun p st => Ok (tt, incr p, st).

Definition lookup_var (var : ascii) : P Z :=
  fun p st => Ok (g_var_mapping st var, p, st).

Definition eprint (msg : string) : P unit :=
  fun p st => Ok (tt, p, mkState (g_var_mapping st) (stderr st ++ [msg])%list).

Definition out_of_fuel {A} : P A := fun _ _ => Fault OutOfFuel.

(** ** The parser *)

Inductive host := CommandLine (* solver.c *) | Cgi (* server.c *).

(** The loop of [skip_whitespace] on the bytes under the cursor. *)
Fixpoint skip_ws (s : string) : string :=
  match s with
  | EmptyString => EmptyString
  | String c r => if nonzero c && isspace c then skip_ws r else s
  end.

Definition skip_whitespace : P unit :=
  fun p st =>
    match p with
    | At s => Ok (tt, At (skip_ws s), st)
    | Beyond => Fault ReadPastEnd
    end.

Section Parser.

Variable h : host.

(** The last branch of [parse_factor]: solver.c steps over the
    unrecognised byte, server.c has no such branch. *)
Definition unrecognized : P unit :=
  match h with
  | CommandLine => advance
  | Cgi => ret tt
  end.

Fixpoint parse_expression (fuel : nat) {struct fuel} : P Z :=
  match fuel with
  | O => out_of_fuel
  | S fuel =>
      value <- parse_term fuel ;;
      skip_whitespace ;;;
      parse_expression_loop fuel value
  end

with parse_expression_loop (fuel : nat) (value : Z) {struct fuel} : P Z :=
  match fuel with
  | O => out_of_fuel
  | S fuel =>
      c <- peek ;;
      if Ascii.eqb c "+" then
        advance ;;;
        skip_whitespace ;;;
        term_value <- parse_term fuel ;;
        skip_whitespace ;;;
        parse_expression_loop fuel (c_or value term_value)
      else ret value
  end

with parse_term (fuel : nat) {struct fuel} : P Z :=
  match fuel with
  | O => out_of_fuel
  | S fuel =>
      value <- parse_factor fuel ;;
      skip_whitespace ;;;
      parse_term_loop fuel value
  end

with parse_term_loop (fuel : nat) (value : Z) {struct fuel} : P Z :=
  match fuel with
  | O => out_of_fuel
  | S fuel =>
      c <- peek ;;
      if is_middle_dot c then
        advance ;;;
        skip_whitespace ;;;
        factor_value <- parse_factor fuel ;;
        skip_whitespace ;;;
        parse_term_loop fuel (c_and value factor_value)
      else ret value
  end

with parse_factor (fuel : nat) {struct fuel} : P Z :=
  match fuel with
  | O => out_of_fuel
  | S fuel =>
      skip_whitespace ;;;
      c <- peek ;;
      if Ascii.eqb c "!" then
        advance ;;;
        factor_value <- parse_factor fuel ;;
        ret (c_not factor_value)
      else if Ascii.eqb c "(" then
        advance ;;;
        value <- parse_expression fuel ;;
        skip_whitespace ;;;
        c' <- peek ;;
        if Ascii.eqb c' ")" then
          advance ;;; ret value
        else
          eprint MISSING_PAREN ;;; ret value
      else if isdigit c then
        advance ;;; ret (char_to_int c - char_to_int "0")
      else if isalpha c then
        advance ;;; lookup_var c
      else
        unrecognized ;;; ret 0
  end.

(** Enough fuel for every call tree on an input of that length. *)
Definition fuel_for (expr : string) : nat := 3 * String.length expr + 6.

(** [const char *p = expr; int result = parse_expression(&p); return result;] *)
Definition run_parser (expr : string) (st : state) : outcome (Z * state) :=
  match parse_expression (fuel_for expr) (At expr) st with
  | Ok (result, _, st') => Ok (result, st')
  | Fault f => Fault f
  end.

(** The table after the loop that sets its 256 entries to 1. *)
Definition all_true : mapping := fun _ => 1.

Definition evaluate_boolean_expression (expr : string) (st : state)
  : outcome (Z * state) :=
  run_parser expr (mkState all_true (stderr st)).

(** [memcpy] overwrites the 256 entries of the global table. *)
Definition evaluate_expr_with_mapping (expr : string) (m : mapping) (st : state)
  : outcome (Z * state) :=
  run_parser expr (mkState m (stderr st)).

End Parser.

(** The state of a process at its start: the static table is zeroed and
    nothing has been written to [stderr]. *)
Definition st0 : state := mkState (fun _ => 0) [].

(** What the caller receives: the value returned. *)
Definition value_of {A} (o : outcome (A * state)) : outcome A :=
  match o with
  | Ok (a, _) => Ok a
  | Fault f => Fault f
  end.

(** ** Termination of the parser *)

(** Bytes the cursor may still dereference, the terminator included. *)
Definition remaining (p : cursor) : nat :=
  match p with
  | At s => S (String.length s)
  | Beyond => O
  end.

(** The outcome is a value, with a cursor that has at most [n] bytes ahead,
    or a read past the end; it is not a fuel exhaustion. *)
Definition within {A} (n : nat) (o : outcome (A * cursor * state)) : Prop :=
  match o with
  | Ok (_, p', _) => (remaining p' <= n)%nat
  | Fault ReadPastEnd => True
  | Fault _ => False
  end.

(** ** The grammar of the surface syntax

    The concrete syntax of section 4.1, with the whitespace that may stand
    between tokens kept in the tree:

      expression = term { '+' term }
      term       = factor { '·' factor }
      factor     = '!' factor | '(' expression ')' | '0' | '1' | letter *)

Inductive factor :=
| FNot (w : string) (f : factor)
| FParen (w1 : string) (e : expression) (w2 : string)
| FLit (b : bool)
| FVar (c : ascii)
with term :=
| Term (f : factor) (tl : term_tail)
with term_tail :=
| TNil
| TCons (w1 w2 : string) (f : factor) (tl : term_tail)
with expression :=
| Expr (t : term) (tl : expr_tail)
with expr_tail :=
| ENil
| ECons (w1 w2 : string) (t : term) (tl : expr_tail).

Scheme factor_mut := Induction for factor Sort Prop
  with term_mut := Induction for term Sort Prop
  with term_tail_mut := Induction for term_tail Sort Prop
  with expression_mut := Induction for expression Sort Prop
  with expr_tail_mut := Induction for expr_tail Sort Prop.

Combined Scheme grammar_ind
  from factor_mut, term_mut, term_tail_mut, expression_mut, expr_tail_mut.

(** A whole input: an expression with optional whitespace around it. *)
Record sentence := mkSentence
  { lead : string;
    body : expression;
    trail : string }.

(** The middle dot in UTF-8. *)
Definition middle_dot : string := String "194" (String "183" "").

Fixpoint render_factor (f : factor) : string :=
  match f with
  | FNot w f => "!" ++ w ++ render_factor f
  | FParen w1 e w2 => "(" ++ w1 ++ render_expression e ++ w2 ++ ")"
  | FLit b => if b then "1" else "0"
  | FVar c => String c ""
  end
with render_term (t : term) : string :=
  match t with
  | Term f tl => render_factor f ++ render_term_tail tl
  end
with render_term_tail (tl : term_tail) : string :=
  match tl with
  | TNil => ""
  | TCons w1 w2 f tl => w1 ++ middle_dot ++ w2 ++ render_factor f ++ render_term_tail tl
  end
with render_expression (e : expression) : string :=
  match e with
  | Expr t tl => render_term t ++ render_expr_tail tl
  end
with render_expr_tail (tl : expr_tail) : string :=
  match tl with
  | ENil => ""
  | ECons w1 w2 t tl => w1 ++ "+" ++ w2 ++ render_term t ++ render_expr_tail tl
  end.

Definition render (s : sentence) : string :=
  lead s ++ render_expression (body s) ++ trail s.

Fixpoint all_space (w : string) : bool :=
  match w with
  | EmptyString => true
  | String c r => isspace c && all_space r
  end.

(** Whitespace fields hold whitespace only, variables are letters. *)
Fixpoint wf_factor (f : factor) : bool :=
  match f with
  | FNot w f => all_space w && wf_factor f
  | FParen w1 e w2 => all_space w1 && wf_expression e && all_space w2
  | FLit _ => true
  | FVar c => isalpha c
  end
with wf_term (t : term) : bool :=
  match t with
  | Term f tl => wf_factor f && wf_term_tail tl
  end
with wf_term_tail (tl : term_tail) : bool :=
  match tl with
  | TNil => true
  | TCons w1 w2 f tl => all_space w1 && all_space w2 && wf_factor f && wf_term_tail tl
  end
with wf_expression (e : expression) : bool :=
  match e with
  | Expr t tl => wf_term t && wf_expr_tail tl
  end
with wf_expr_tail (tl : expr_tail) : bool :=
  match tl with
  | ENil => true
  | ECons w1 w2 t tl => all_space w1 && all_space w2 && wf_term t && wf_expr_tail tl
  end.

Definition wf (s : sentence) : bool :=
  all_space (lead s) && wf_expression (body s) && all_space (trail s).

(** ** What the parser computes on a sentence of the grammar

    Since no byte equals [MIDDLE_DOT], the loop of [parse_term] never runs:
    a term with a ['·'] leaves the cursor on the first byte of the dot, and
    every caller then returns without consuming anything ([halted]). *)

Record reading := mkReading
  { value : Z;                (* the [int] returned *)
    halted : bool;            (* the cursor stands on a middle dot *)
    messages : list string }. (* what was written to [stderr] *)

Definition has_and (tl : term_tail) : bool :=
  match tl with
  | TNil => false
  | TCons _ _ _ _ => true
  end.

Section Reading.

Variable g : mapping.

Fixpoint read_factor (f : factor) : reading :=
  match f with
  | FNot _ f =>
      let r := read_factor f in
      mkReading (c_not (value r)) (halted r) (messages r)
  | FParen _ e _ =>
      let r := read_expression e in
      if halted r
      then mkReading (value r) true (messages r ++ [MISSING_PAREN])
      else mkReading (value r) false (messages r)
  | FLit b => mkReading (if b then 1 else 0) false []
  | FVar c => mkReading (g c) false []
  end
with read_term (t : term) : reading :=
  match t with
  | Term f tl =>
      let r := read_factor f in
      mkReading (value r) (halted r || has_and tl) (messages r)
  end
with read_expression (e : expression) : reading :=
  match e with
  | Expr t tl =>
      let r := read_term t in
      if halted r then r
      else
        let r' := read_expr_tail (value r) tl in
        mkReading (value r') (halted r') (messages r ++ messages r')
  end
with read_expr_tail (v : Z) (tl : expr_tail) : reading :=
  match tl with
  | ENil => mkReading v false []
  | ECons _ _ t tl =>
      let r := read_term t in
      if halted r
      then mkReading (c_or v (value r)) true (messages r)
      else
        let r' := read_expr_tail (c_or v (value r)) tl in
        mkReading (value r') (halted r') (messages r ++ messages r')
  end.

End Reading.

(** The sentence is followed by bytes [k]: after a reading of an
    expression the cursor stands on [k] unless the reading was halted, in
    which case it stands on the first byte of a middle dot. *)
Definition stands (r : reading) (k rest : string) : Prop :=
  if halted r then exists tl, rest = String "194" tl else rest = k.

(** The outcome of a parser function agrees with a reading, up to the
    fuel of the embedding. *)
Definition agrees (o : outcome (Z * cursor * state)) (st : state)
           (r : reading) (k : string) : Prop :=
  o = Fault OutOfFuel \/
  exists rest,
    o = Ok (value r, At rest,
            mkState (g_var_mapping st) (stderr st ++ messages r)%list) /\
    stands r k rest.

(** The bytes after an expression do not continue it. *)
Definition closing (k : string) : bool :=
  match skip_ws k with
  | EmptyString => true
  | String c _ => negb (Ascii.eqb c "+")
  end.

(** ** The truth table *)

(** The search of [ch] among the variables found so far. *)
Definition already_present (ch : ascii) (vars : list ascii) : bool :=
  existsb (fun v => Ascii.eqb v ch) vars.

(** The scan of the expression for its distinct letters; [vars] has room
    for 100 of them. *)
Fixpoint scan_variables (p : string) (vars : list ascii) : list ascii :=
  match p with
  | EmptyString => vars
  | String ch p' =>
      if nonzero ch then
        if isalpha ch then
          if negb (already_present ch vars) && (List.length vars <? 100)%nat
          then scan_variables p' (vars ++ [ch])%list
          else scan_variables p' vars
        else scan_variables p' vars
      else vars
  end.

Definition variables (expr : string) : list ascii := scan_variables expr [].

(** [1 << n] on a 32-bit [int]: defined as long as the result is
    representable. *)
Definition shift_left_one (n : Z) : outcome Z :=
  if (0 <=? n) && (n <? 31) then Ok (Z.shiftl 1 n) else Fault ShiftOverflow.

(** [mapping[(int)k] = v] *)
Definition update (m : mapping) (k : ascii) (v : Z) : mapping :=
  fun c => if Ascii.eqb c k then v else m c.

(** The inner loop over [j]: each variable receives a bit of [i], which is
    printed at once. *)
Fixpoint assign_variables (i var_count j : Z) (vars : list ascii)
         (m : mapping) (printed : list Z) : mapping * list Z :=
  match vars with
  | [] => (m, printed)
  | v :: vars' =>
      let m' := update m v (Z.land (Z.shiftr i (var_count - j - 1)) 1) in
      assign_variables i var_count (j + 1) vars' m' (printed ++ [m' v])%list
  end.

(** One printed line of the table. *)
Record row := mkRow
  { cells : list Z;
    result : Z }.

(** The mapping and the cells of row [i]. *)
Definition row_mapping (vars : list ascii) (i : Z) : mapping :=
  fst (assign_variables i (Z.of_nat (List.length vars)) 0 vars all_true []).

(** solver.c prints each cell as it is assigned; server.c reads the cells
    back from the mapping after the evaluation. *)
Definition row_cells (h : host) (vars : list ascii) (i : Z) : list Z :=
  match h with
  | CommandLine =>
      snd (assign_variables i (Z.of_nat (List.length vars)) 0 vars all_true [])
  | Cgi => map (row_mapping vars i) vars
  end.

Section Table.

Variable h : host.
Variable expr : string.

(** The outer loop, with [todo] iterations left from [i]. *)
Fixpoint table_rows (vars : list ascii) (todo : nat) (i : Z) (st : state)
  : outcome (list row * state) :=
  match todo with
  | O => Ok ([], st)
  | S todo =>
      match evaluate_expr_with_mapping h expr (row_mapping vars i) st with
      | Ok (res, st') =>
          match table_rows vars todo (i + 1) st' with
          | Ok (rows, st'') => Ok (mkRow (row_cells h vars i) res :: rows, st'')
          | Fault f => Fault f
          end
      | Fault f => Fault f
      end
  end.

Definition generate_truth_table (st : state) : outcome (list row * state) :=
  let vars := variables expr in
  let var_count := Z.of_nat (List.length vars) in
  match shift_left_one var_count with
  | Ok total_rows => table_rows vars (Z.to_nat total_rows) 0 st
  | Fault f => Fault f
  end.

End Table.

(** ** Notions used by the statements *)

(** The entries of the mapping are truth values. *)
Definition boolean_valued (m : mapping) : Prop := forall c, m c = 0 \/ m c = 1.

(** The byte under a cursor that stands in the string. *)
Definition next_byte (s : string) : ascii :=
  match s with
  | EmptyString => NUL
  | String c _ => c
  end.

(** The characters of the surface syntax: whitespace, ['+'], the two bytes
    of ['·'], ['!'], the parentheses, digits and letters. *)
Definition in_alphabet (c : ascii) : bool :=
  isspace c || Ascii.eqb c "+" || Ascii.eqb c "194" || Ascii.eqb c "183" ||
  Ascii.eqb c "!" || Ascii.eqb c "(" || Ascii.eqb c ")" || isdigit c || isalpha c.

Fixpoint has_unrecognized (text : string) : bool :=
  match text with
  | EmptyString => false
  | String c r => negb (in_alphabet c) || has_unrecognized r
  end.

(** The evaluation returned a value. *)
Definition returns {A} (o : outcome (A * state)) : Prop :=
  exists a st', o = Ok (a, st').

(** Bit [k] of [i], as the [int] 0 or 1. *)
Definition bit (i k : nat) : Z := Z.b2z (Z.testbit (Z.of_nat i) (Z.of_nat k)).

(** The assignment A=false, B=false, C=true over the default table. *)
Definition m_FFT : mapping :=
  update (update (update all_true "A" 0) "B" 0) "C" 1.

(** The cursor is still in the string (or the embedding ran out of fuel). *)
Definition stays {A} (o : outcome (A * cursor * state)) : Prop :=
  match o with
  | Ok (_, At _, _) => True
  | Ok (_, Beyond, _) => False
  | Fault OutOfFuel => True
  | Fault _ => False
  end.

(** Two outcomes that differ at most in what [stderr] holds. *)
Definition same_but_stderr {A} (o1 o2 : outcome (A * cursor * state)) : Prop :=
  match o1, o2 with
  | Ok (a1, p1, st1), Ok (a2, p2, st2) =>
      a1 = a2 /\ p1 = p2 /\ g_var_mapping st1 = g_var_mapping st2
  | Fault f1, Fault f2 => f1 = f2
  | _, _ => False
  end.

(** A byte on which no alternative of [parse_factor] applies. *)
Definition starts_no_factor (c : ascii) : bool :=
  nonzero c && negb (isspace c) && negb (Ascii.eqb c "!") &&
  negb (Ascii.eqb c "(") && negb (isdigit c) && negb (isalpha c).

(** The state of a fresh process with the default table loaded. *)
Definition st1 : state := mkState all_true [].

(** ["A + B · C"] as a sentence of the grammar. *)
Definition a_or_b_and_c : sentence :=
  mkSentence ""
    (Expr (Term (FVar "A") TNil)
          (ECons " " " " (Term (FVar "B") (TCons " " " " (FVar "C") TNil)) ENil))
    "".

(** ["A · B"] as a sentence of the grammar. *)
Definition a_and_b : sentence :=
  mkSentence "" (Expr (Term (FVar "A") (TCons " " " " (FVar "B") TNil)) ENil) "".

(** A single variable as a sentence of the grammar. *)
Definition variable_alone (c : ascii) : sentence :=
  mkSentence "" (Expr (Term (FVar c) TNil) ENil) "".

(** The bytes of a C string: those before the first NUL. *)
Fixpoint c_chars (s : string) : list ascii :=
  match s with
  | EmptyString => []
  | String c r => if nonzero c then c :: c_chars r else []
  end.

(** The Variable Set of the data model, in the words of the specification:
    the deduplicated list of the letters of an expression, in order of
    first occurrence. *)
Fixpoint first_occurrences (l : list ascii) : list ascii :=
  match l with
  | [] => []
  | c :: r => c :: filter (fun x => negb (Ascii.eqb x c)) (first_occurrences r)
  end.

Definition variable_set (expr : string) : list ascii :=
  first_occurrences (filter isalpha (c_chars expr)).

(** The 52 bytes on which [isalpha] holds. *)
Definition letters : list ascii :=
  list_ascii_of_string "ABCDEFGHIJKLMNOPQRSTUVWXYZabcdefghijklmnopqrstuvwxyz".

(** ** The parser on the grammar

    What has to be shown of each parser function on the rendering of a
    well-formed piece of syntax, followed by any bytes [k]. *)

Definition factor_ok (h : host) (f : factor) : Prop :=
  wf_factor f = true ->
  forall fuel s k st,
    skip_ws s = render_factor f ++ k ->
    agrees (parse_factor h fuel (At s) st) st
           (read_factor (g_var_mapping st) f) k.

Definition term_ok (h : host) (t : term) : Prop :=
  wf_term t = true ->
  forall fuel s k st,
    skip_ws s = render_term t ++ k ->
    agrees (parse_term h fuel (At s) st) st
           (read_term (g_var_mapping st) t) (skip_ws k).

Definition expression_ok (h : host) (e : expression) : Prop :=
  wf_expression e = true ->
  forall fuel s k st,
    closing k = true ->
    skip_ws s = render_expression e ++ k ->
    agrees (parse_expression h fuel (At s) st) st
           (read_expression (g_var_mapping st) e) (skip_ws k).

Definition expr_tail_ok (h : host) (tl : expr_tail) : Prop :=
  wf_expr_tail tl = true ->
  forall fuel v k st,
    closing k = true ->
    agrees (parse_expression_loop h fuel v
              (At (skip_ws (render_expr_tail tl ++ k))) st) st
           (read_expr_tail (g_var_mapping st) v tl) (skip_ws k).

(** The first outcome is the second one, unless the embedding ran out of
    fuel. *)
Definition refines {A} (o1 o2 : outcome A) : Prop :=
  o1 = Fault OutOfFuel \/ o1 = o2.

(** * The rest of the two programs *)

From Stdlib Require DecimalString.

(** ** C strings *)

(** The C string held by a buffer: its bytes before the first NUL. *)
Fixpoint c_string (s : string) : string :=
  match s with
  | EmptyString => EmptyString
  | String c r => if nonzero c then String c (c_string r) else EmptyString
  end.

(** No byte of the list is NUL. *)
Fixpoint no_nul (s : string) : bool :=
  match s with
  | EmptyString => true
  | String c r => nonzero c && no_nul r
  end.

(** Membership of a byte among the bytes of a string. *)
Fixpoint occurs (x : ascii) (s : string) : bool :=
  match s with
  | EmptyString => false
  | String c r => Ascii.eqb c x || occurs x r
  end.

(** ** [url_decode] of server.c *)

Definition isxdigit (c : ascii) : bool :=
  isdigit c || ((65 <=? code c) && (code c <=? 70)) ||
  ((97 <=? code c) && (code c <=? 102)).

(** The value [strtol] gives a hexadecimal digit in base 16. *)
Definition hex_value (c : ascii) : Z :=
  if isdigit c then code c - 48
  else if (65 <=? code c) && (code c <=? 70) then code c - 55
  else code c - 87.

(** [(char) strtol(hex, NULL, 16)] for [hex] made of the two digits. *)
Definition hex_byte (hi lo : ascii) : ascii :=
  ascii_of_N (Z.to_N (16 * hex_value hi + hex_value lo)).

(** The bytes written to [dest] before the final terminator.  The buffer
    is taken to be allocated: the failure of [malloc] is not modelled.
    When fewer than two bytes follow a ['%'], one of the two bytes tested
    is the terminator, on which [isxdigit] fails. *)
Fixpoint url_decode (src : string) : string :=
  match src with
  | EmptyString => EmptyString
  | String c r =>
      if nonzero c then
        if Ascii.eqb c "+" then String " " (url_decode r)
        else
          match r with
          | String h (String l r') =>
              if Ascii.eqb c "%" && isxdigit h && isxdigit l
              then String (hex_byte h l) (url_decode r')
              else String c (url_decode r)
          | _ => String c (url_decode r)
          end
      else EmptyString
  end.

(** ** [get_query_param] of server.c *)

(** The tokens that the successive calls of [strtok (_, "&")] return on a
    C string: its maximal runs of bytes other than ['&'], from left to
    right.  [tok] is the token being read. *)
Fixpoint tokens_from (s : string) (tok : string) : list string :=
  match s with
  | EmptyString =>
      match tok with
      | EmptyString => []
      | _ => [tok]
      end
  | String c r =>
      if Ascii.eqb c "&" then
        match tok with
        | EmptyString => tokens_from r EmptyString
        | _ => tok :: tokens_from r EmptyString
        end
      else tokens_from r (tok ++ String c EmptyString)
  end.

Definition tokens (query : string) : list string :=
  tokens_from (c_string query) EmptyString.

(** [strncmp (token, param, param_len) == 0]: what follows [param] in
    [token] when [token] starts with it. *)
Fixpoint strip_prefix (param token : string) : option string :=
  match param with
  | EmptyString => Some token
  | String a param' =>
      match token with
      | String b token' =>
          if Ascii.eqb a b then strip_prefix param' token' else None
      | EmptyString => None
      end
  end.

(** The test of one token, and the value duplicated when it passes. *)
Definition param_value (param token : string) : option string :=
  match strip_prefix param token with
  | Some (String c v) => if Ascii.eqb c "=" then Some v else None
  | _ => None
  end.

(** The loop over the tokens, left at the first one that passes. *)
Fixpoint first_value (param : string) (toks : list string) : option string :=
  match toks with
  | [] => None
  | token :: toks' =>
      match param_value param token with
      | Some v => Some v
      | None => first_value param toks'
      end
  end.

(** [None] is the NULL returned when no token passes; the failure of
    [strdup] is not modelled. *)
Definition get_query_param (query param : string) : option string :=
  first_value (c_string param) (tokens query).

(** ** What a client sends *)

Definition hex_digit (n : Z) : ascii :=
  nth (Z.to_nat n)
      (list_ascii_of_string "0123456789ABCDEF") "0"%char.

(** The bytes that [encodeURIComponent] leaves as they are. *)
Definition unreserved (c : ascii) : bool :=
  isalpha c || isdigit c ||
  existsb (Ascii.eqb c) (list_ascii_of_string "-_.!~*'()").

(** [encodeURIComponent], as script.js applies it to the expression, on
    the UTF-8 bytes of its argument: an unreserved byte stands for itself,
    any other byte is written as ['%'] and two hexadecimal digits. *)
Fixpoint encode_uri_component (s : string) : string :=
  match s with
  | EmptyString => EmptyString
  | String c r =>
      if unreserved c then String c (encode_uri_component r)
      else String "%" (String (hex_digit (code c / 16))
                         (String (hex_digit (code c mod 16))
                            (encode_uri_component r)))
  end.

(** Every ['+'] turned into a space. *)
Fixpoint plus_to_space (s : string) : string :=
  match s with
  | EmptyString => EmptyString
  | String c r =>
      String (if Ascii.eqb c "+" then " "%char else c) (plus_to_space r)
  end.

(** ** The Expression of the data model and its evaluation

    The tree of section 3 of the specification and the evaluator of
    section 4.2, against which the parser is compared. *)

Inductive Expression :=
| Literal (b : bool)
| Var (c : ascii)
| Not (e : Expression)
| And (l r : Expression)
| Or (l r : Expression).

Fixpoint evaluate (e : Expression) (a : ascii -> bool) : bool :=
  match e with
  | Literal b => b
  | Var c => a c
  | Not e => negb (evaluate e a)
  | And l r => evaluate l a && evaluate r a
  | Or l r => evaluate l a || evaluate r a
  end.

(** The tree of a piece of concrete syntax; chains associate to the left. *)
Fixpoint tree_factor (f : factor) : Expression :=
  match f with
  | FNot _ f => Not (tree_factor f)
  | FParen _ e _ => tree_expression e
  | FLit b => Literal b
  | FVar c => Var c
  end
with tree_term (t : term) : Expression :=
  match t with
  | Term f tl => tree_term_tail (tree_factor f) tl
  end
with tree_term_tail (acc : Expression) (tl : term_tail) : Expression :=
  match tl with
  | TNil => acc
  | TCons _ _ f tl => tree_term_tail (And acc (tree_factor f)) tl
  end
with tree_expression (e : expression) : Expression :=
  match e with
  | Expr t tl => tree_expr_tail (tree_term t) tl
  end
with tree_expr_tail (acc : Expression) (tl : expr_tail) : Expression :=
  match tl with
  | ENil => acc
  | ECons _ _ t tl => tree_expr_tail (Or acc (tree_term t)) tl
  end.

(** The piece of syntax holds no ['·']. *)
Fixpoint and_free_factor (f : factor) : bool :=
  match f with
  | FNot _ f => and_free_factor f
  | FParen _ e _ => and_free_expression e
  | FLit _ => true
  | FVar _ => true
  end
with and_free_term (t : term) : bool :=
  match t with
  | Term f tl => and_free_factor f && negb (has_and tl)
  end
with and_free_expression (e : expression) : bool :=
  match e with
  | Expr t tl => and_free_term t && and_free_expr_tail tl
  end
with and_free_expr_tail (tl : expr_tail) : bool :=
  match tl with
  | ENil => true
  | ECons _ _ t tl => and_free_term t && and_free_expr_tail tl
  end.

(** The table that holds an assignment: 1 for true, 0 for false. *)
Definition mapping_of (a : ascii -> bool) : mapping := fun c => Z.b2z (a c).

(** The number of ['('] in a string. *)
Fixpoint count_open (s : string) : nat :=
  match s with
  | EmptyString => O
  | String c r => ((if Ascii.eqb c "(" then 1 else 0) + count_open r)%nat
  end.

Definition count_open_at (p : cursor) : nat :=
  match p with
  | At s => count_open s
  | Beyond => O
  end.

(** The parser leaves the table as it is, and adds to [stderr] nothing
    but lines about a missing parenthesis; their number and the number of
    ['('] still ahead do not exceed [budget]. *)
Definition reports {A} (budget : nat) (st : state)
           (o : outcome (A * cursor * state)) : Prop :=
  match o with
  | Ok (_, p', st') =>
      g_var_mapping st' = g_var_mapping st /\
      exists n, stderr st' = (stderr st ++ repeat MISSING_PAREN n)%list /\
                (n + count_open_at p' <= budget)%nat
  | Fault _ => True
  end.

(** The outcome of the loop of [parse_expression] on the rendering of a
    tail followed by [k]: out of fuel, halted on a middle dot, or going
    on with the loop on [k]. *)
Definition continues (h : host) (o : outcome (Z * cursor * state))
           (st : state) (r : reading) (k : string) : Prop :=
  o = Fault OutOfFuel \/
  (halted r = true /\
   exists rest,
     o = Ok (value r, At (String "194" rest),
             mkState (g_var_mapping st) (stderr st ++ messages r)%list)) \/
  (halted r = false /\
   exists fuel',
     o = parse_expression_loop h fuel' (value r) (At (skip_ws k))
           (mkState (g_var_mapping st) (stderr st ++ messages r)%list)).

(** ** [main] of server.c *)

Definition newline : ascii := "010"%char.

(** [printf ("%d", z)] *)
Definition dec (z : Z) : string := DecimalString.NilZero.string_of_int (Z.to_int z).

Definition page_head : string :=
  "Content-Type: text/html" ++ String newline (String newline "")
  ++ "<html><head><title>Boolean Expression Solver Result</title></head><body>"
  ++ "<h1>Boolean Expression Solver (C Backend)</h1>".

Definition page_foot : string := "</body></html>".

(** The table as server.c prints it. *)
Definition html_row (r : row) : string :=
  "<tr>"
  ++ String.concat "" (map (fun v => "<td>" ++ dec v ++ "</td>") (cells r))
  ++ "<td>" ++ dec (result r) ++ "</td>"
  ++ "</tr>".

Definition html_table (vars : list ascii) (rows : list row) : string :=
  "<table border='1' cellpadding='5' cellspacing='0'>"
  ++ "<tr>"
  ++ String.concat "" (map (fun v => "<th>" ++ String v "" ++ "</th>") vars)
  ++ "<th>Result</th></tr>"
  ++ String.concat "" (map html_row rows)
  ++ "</table>".

Definition is_empty (s : string) : bool :=
  match s with
  | EmptyString => true
  | _ => false
  end.

(** The program on the value of QUERY_STRING ([None] when the variable is
    not set): what it writes to [stdout] and its exit status.  Allocation
    failures are not modelled. *)
Definition server_main (QUERY_STRING : option string) (st : state)
  : outcome (string * Z * state) :=
  match QUERY_STRING with
  | None =>
      Ok (page_head ++ "<h2>Error: No query string provided.</h2>" ++ page_foot,
          1, st)
  | Some query =>
      if is_empty (c_string query) then
        Ok (page_head ++ "<h2>Error: No query string provided.</h2>" ++ page_foot,
            1, st)
      else
        match get_query_param query "expr" with
        | None =>
            Ok (page_head ++ "<h2>Error: No expression provided.</h2>" ++ page_foot,
                1, st)
        | Some expr_param =>
            let decoded_expr := c_string (url_decode expr_param) in
            let table_mode :=
              match get_query_param query "mode" with
              | Some mode_param => String.eqb mode_param "tt"
              | None => false
              end in
            if table_mode then
              match generate_truth_table Cgi decoded_expr st with
              | Ok (rows, st') =>
                  Ok (page_head
                      ++ "<h2>Truth Table for Expression:</h2>"
                      ++ "<p>" ++ decoded_expr ++ "</p>"
                      ++ html_table (variables decoded_expr) rows
                      ++ page_foot, 0, st')
              | Fault f => Fault f
              end
            else
              match evaluate_boolean_expression Cgi decoded_expr st with
              | Ok (res, st') =>
                  Ok (page_head
                      ++ "<h2>Evaluation Result for Expression:</h2>"
                      ++ "<p>" ++ decoded_expr ++ "</p>"
                      ++ "<p>Result: " ++ dec res ++ "</p>"
                      ++ page_foot, 0, st')
              | Fault f => Fault f
              end
        end
  end.

(** ** The input of [main] of solver.c *)

(** [fgets (buf, size, stdin)] on the bytes still to be read: at most
    [size - 1] of them, up to the first newline, which is kept; NULL at
    the end of the input. *)
Fixpoint fgets_bytes (n : nat) (input : string) : string :=
  match n with
  | O => EmptyString
  | S n' =>
      match input with
      | EmptyString => EmptyString
      | String c r =>
          if Ascii.eqb c newline then String c EmptyString
          else String c (fgets_bytes n' r)
      end
  end.

Definition fgets (size : nat) (input : string) : option string :=
  match input with
  | EmptyString => None
  | _ => Some (fgets_bytes (size - 1) input)
  end.

(** The removal of a newline that ends the string. *)
Fixpoint chomp (s : string) : string :=
  match s with
  | EmptyString => EmptyString
  | String c r =>
      match r with
      | EmptyString => if Ascii.eqb c newline then EmptyString else s
      | _ => String c (chomp r)
      end
  end.

(** The expression [main] works on: the line read into the array of 256
    bytes, without its newline; [None] when nothing could be read. *)
Definition solver_input (input : string) : option string :=
  match fgets 256 input with
  | Some buf => Some (chomp (c_string buf))
  | None => None
  end.

(** ** The variables an evaluation depends on *)

(** The byte [c] is still ahead of the cursor, before the terminator. *)
Definition letter_at (p : cursor) (c : ascii) : Prop :=
  match p with
  | At s => In c (c_chars s)
  | Beyond => False
  end.

Section Alike.

Variables m1 m2 : mapping.

(** The two tables agree on the letters ahead of the cursor. *)
Definition agree_at (p : cursor) : Prop :=
  forall c, isalpha c = true -> letter_at p c -> m1 c = m2 c.

(** Two runs of the parser, one on each table, went the same way. *)
Definition alike (o1 o2 : outcome (Z * cursor * state)) : Prop :=
  match o1, o2 with
  | Ok (v1, p1, s1), Ok (v2, p2, s2) =>
      v1 = v2 /\ p1 = p2 /\ stderr s1 = stderr s2 /\
      g_var_mapping s1 = m1 /\ g_var_mapping s2 = m2 /\ agree_at p1
  | Fault f1, Fault f2 => f1 = f2
  | _, _ => False
  end.

End Alike.

(** The number whose binary digits are the given bits, the first one the
    most significant. *)
Definition number_of_bits (bits : list Z) : Z :=
  fold_left (fun acc b => 2 * acc + b) bits 0.

(** ** Sentences with parentheses left open

    A sentence of the grammar from the end of which one or more [')'] are
    missing.  Its last factor is a parenthesis that is never closed; what
    the parenthesis holds is a whole expression followed by the end of the
    input, or terms the last of which ends in the same way.  The terms
    that stand before hold no ['·'].

      open_factor     = '!' open_factor | '(' open_expression
      open_expression = expression | open_terms
      open_terms      = { term '+' } open_factor *)

Inductive open_factor :=
| ONot (w : string) (f : open_factor)
| OParen (w : string) (e : open_expression)
with open_expression :=
| OWhole (e : expression) (w : string)
| OTerms (ts : open_terms)
with open_terms :=
| OLast (f : open_factor)
| OThen (t : term) (w1 w2 : string) (ts : open_terms).

Scheme open_factor_mut := Induction for open_factor Sort Prop
  with open_expression_mut := Induction for open_expression Sort Prop
  with open_terms_mut := Induction for open_terms Sort Prop.

Combined Scheme open_ind
  from open_factor_mut, open_expression_mut, open_terms_mut.

Record open_sentence := mkOpen
  { open_lead : string;
    open_body : open_terms }.

Fixpoint render_open_factor (f : open_factor) : string :=
  match f with
  | ONot w f => "!" ++ w ++ render_open_factor f
  | OParen w e => "(" ++ w ++ render_open_expression e
  end
with render_open_expression (e : open_expression) : string :=
  match e with
  | OWhole e w => render_expression e ++ w
  | OTerms ts => render_open_terms ts
  end
with render_open_terms (ts : open_terms) : string :=
  match ts with
  | OLast f => render_open_factor f
  | OThen t w1 w2 ts => render_term t ++ w1 ++ "+" ++ w2 ++ render_open_terms ts
  end.

Definition render_open (s : open_sentence) : string :=
  open_lead s ++ render_open_terms (open_body s).

Fixpoint wf_open_factor (f : open_factor) : bool :=
  match f with
  | ONot w f => all_space w && wf_open_factor f
  | OParen w e => all_space w && wf_open_expression e
  end
with wf_open_expression (e : open_expression) : bool :=
  match e with
  | OWhole e w => wf_expression e && all_space w
  | OTerms ts => wf_open_terms ts
  end
with wf_open_terms (ts : open_terms) : bool :=
  match ts with
  | OLast f => wf_open_factor f
  | OThen t w1 w2 ts =>
      wf_term t && and_free_term t && all_space w1 && all_space w2 &&
      wf_open_terms ts
  end.

Definition wf_open (s : open_sentence) : bool :=
  all_space (open_lead s) && wf_open_terms (open_body s).

(** The number of ['('] that are never closed. *)
Fixpoint unclosed_factor (f : open_factor) : nat :=
  match f with
  | ONot _ f => unclosed_factor f
  | OParen _ e => S (unclosed_expression e)
  end
with unclosed_expression (e : open_expression) : nat :=
  match e with
  | OWhole _ _ => O
  | OTerms ts => unclosed_terms ts
  end
with unclosed_terms (ts : open_terms) : nat :=
  match ts with
  | OLast f => unclosed_factor f
  | OThen _ _ _ ts => unclosed_terms ts
  end.

Definition unclosed (s : open_sentence) : nat := unclosed_terms (open_body s).

(** [n] closing parentheses. *)
Fixpoint closers (n : nat) : string :=
  match n with
  | O => ""
  | S n => String ")" (closers n)
  end.

(** The sentence of the grammar that an open sentence becomes when every
    parenthesis is closed at the end of the input. *)
Fixpoint close_factor (f : open_factor) : factor :=
  match f with
  | ONot w f => FNot w (close_factor f)
  | OParen w e => let (e', w2) := close_expression e in FParen w e' w2
  end
with close_expression (e : open_expression) : expression * string :=
  match e with
  | OWhole e w => (e, w)
  | OTerms ts => (close_terms ts, "")
  end
with close_terms (ts : open_terms) : expression :=
  match ts with
  | OLast f => Expr (Term (close_factor f) TNil) ENil
  | OThen t w1 w2 ts => Expr t (close_tail w1 w2 ts)
  end
with close_tail (w1 w2 : string) (ts : open_terms) : expr_tail :=
  match ts with
  | OLast f => ECons w1 w2 (Term (close_factor f) TNil) ENil
  | OThen t w1' w2' ts => ECons w1 w2 t (close_tail w1' w2' ts)
  end.

Definition closed (s : open_sentence) : sentence :=
  mkSentence (open_lead s) (close_terms (open_body s)) "".

(** The cursor stands where every loop of the parser returns and no
    [')'] is found: on the terminator, or on the first byte of a middle
    dot. *)
Definition final (rest : string) : bool :=
  match rest with
  | EmptyString => true
  | String c _ => Ascii.eqb c "194"
  end.

(** The outcome of a parser function on an open piece of syntax with [u]
    unclosed parentheses, against the reading [r] of the piece with its
    parentheses closed: the same value, and [n] lines about a missing
    parenthesis, one for each unclosed ['('] when [r] reports nothing,
    the lines of [r] otherwise. *)
Definition ends (o : outcome (Z * cursor * state)) (st : state)
           (r : reading) (u : nat) : Prop :=
  o = Fault OutOfFuel \/
  exists rest n,
    o = Ok (value r, At rest,
            mkState (g_var_mapping st)
                    (stderr st ++ repeat MISSING_PAREN n)%list) /\
    final rest = true /\
    (if halted r then messages r = repeat MISSING_PAREN n /\ (u <= n)%nat
     else n = u /\ messages r = []).

(** What has to be shown of each parser function on the rendering of a
    well-formed open piece of syntax, which ends the input. *)

Definition open_factor_ok (h : host) (f : open_factor) : Prop :=
  wf_open_factor f = true ->
  forall fuel s st,
    skip_ws s = render_open_factor f ->
    ends (parse_factor h fuel (At s) st) st
         (read_factor (g_var_mapping st) (close_factor f)) (unclosed_factor f).

Definition open_expression_ok (h : host) (e : open_expression) : Prop :=
  wf_open_expression e = true ->
  forall fuel s st,
    skip_ws s = render_open_expression e ->
    ends (parse_expression h fuel (At s) st) st
         (read_expression (g_var_mapping st) (fst (close_expression e)))
         (unclosed_expression e).

Definition open_terms_ok (h : host) (ts : open_terms) : Prop :=
  wf_open_terms ts = true ->
  (forall fuel s st,
     skip_ws s = render_open_terms ts ->
     ends (parse_expression h fuel (At s) st) st
          (read_expression (g_var_mapping st) (close_terms ts))
          (unclosed_terms ts)) /\
  (forall w1 w2 fuel v st,
     all_space w2 = true ->
     ends (parse_expression_loop h fuel v
             (At (String "+" (w2 ++ render_open_terms ts))) st) st
          (read_expr_tail (g_var_mapping st) v (close_tail w1 w2 ts))
          (unclosed_terms ts)).

(** ["(A · B"] and ["A + !(B"] as open sentences. *)
Definition open_a_and_b : open_sentence :=
  mkOpen "" (OLast (OParen "" (OWhole (body a_and_b) ""))).

Definition a_or_not_open_b : open_sentence :=
  mkOpen ""
    (OThen (Term (FVar "A") TNil) " " " "
       (OLast (ONot "" (OParen "" (OWhole (body (variable_alone "B")) ""))))).

(** ** Letters without a value of their own *)

(** The expression in which every letter that is not [present] is
    replaced by the literal ['1']. *)
Definition default_letter (present : ascii -> bool) (c : ascii) : ascii :=
  if isalpha c && negb (present c) then "1"%char else c.

Fixpoint with_defaults (present : ascii -> bool) (s : string) : string :=
  match s with
  | EmptyString => EmptyString
  | String c r => String (default_letter present c) (with_defaults present r)
  end.

Definition cursor_with_defaults (present : ascii -> bool) (p : cursor) : cursor :=
  match p with
  | At s => At (with_defaults present s)
  | Beyond => Beyond
  end.

(** A run of the parser on an expression under the table [m], and a run
    on the expression with its defaults written out under the table
    [m'], went the same way. *)
Definition in_step (present : ascii -> bool) (m m' : mapping)
           (o1 o2 : outcome (Z * cursor * state)) : Prop :=
  match o1, o2 with
  | Ok (v1, p1, s1), Ok (v2, p2, s2) =>
      v1 = v2 /\ p2 = cursor_with_defaults present p1 /\
      stderr s1 = stderr s2 /\
      g_var_mapping s1 = m /\ g_var_mapping s2 = m'
  | Fault f1, Fault f2 => f1 = f2
  | _, _ => False
  end.

(** The assignments at which the precedence of AND is observed. *)
Definition a_TFF (c : ascii) : bool := Ascii.eqb c "A".
Definition a_FTF (c : ascii) : bool := Ascii.eqb c "B".

(** The table [m] holds 1 for every letter that is not [present], and
    what [m'] holds for the others. *)
Definition defaults_hold (present : ascii -> bool) (m m' : mapping) : Prop :=
  (forall c, isalpha c = true -> present c = false -> m c = 1) /\
  (forall c, isalpha c = true -> present c = true -> m c = m' c).

(** The truth value that C gives to an entry of the table. *)
Definition truth (m : mapping) (c : ascii) : bool := negb (m c =? 0).

(** ["!A"] as a sentence of the grammar. *)
Definition not_a : sentence :=
  mkSentence "" (Expr (Term (FNot "" (FVar "A")) TNil) ENil) "".

(** The table that gives 1 to the letters given 1 by [m] among [vars],
    and to every other byte. *)
Definition over_variables (vars : list ascii) (m : mapping) : mapping :=
  fun c => if already_present c vars then m c else 1.
(** ** Termination of the parser: proofs *)

Lemma within_mono {A} (n m : nat) (o : outcome (A * cursor * state)) :
  within n o -> (n <= m)%nat -> within m o.
Proof.
  destruct o as [[[a p] st]|[]]; simpl; intros; auto; lia.
Qed.

Lemma skip_ws_length (s : string) :
  (String.length (skip_ws s) <= String.length s)%nat.
Proof.
  induction s as [|c r IH]; simpl; [lia|].
  destruct (nonzero c && isspace c); simpl; lia.
Qed.

Lemma remaining_incr (p : cursor) (c : ascii) :
  deref p = Some c -> (S (remaining (incr p)) <= remaining p)%nat.
Proof.
  destruct p as [[|a r]|]; simpl; intros H; try discriminate; try lia.
  destruct (nonzero a); simpl; lia.
Qed.

Lemma within_bind {A B} (n : nat) (m : P A) (k : A -> P B) p st :
  within (remaining p) (m p st) ->
  (forall a p' st', m p st = Ok (a, p', st') ->
                    (remaining p' <= remaining p)%nat -> within n (k a p' st')) ->
  within n (bind m k p st).
Proof.
  unfold bind. destruct (m p st) as [[[a p'] st']|[]]; simpl; intros H K; auto.
Qed.

Lemma within_skip_whitespace p st :
  within (remaining p) (skip_whitespace p st).
Proof.
  destruct p as [s|]; simpl; auto.
  pose proof (skip_ws_length s). lia.
Qed.

Lemma within_unrecognized h p st :
  within (remaining p) (unrecognized h p st).
Proof.
  destruct h; simpl; auto.
  destruct p as [[|a r]|]; simpl; try lia.
  destruct (nonzero a); simpl; lia.
Qed.

Lemma peek_inv p st c p' st' :
  peek p st = Ok (c, p', st') -> p' = p /\ st' = st /\ deref p = Some c.
Proof.
  unfold peek. destruct (deref p); intros H; inversion H; auto.
Qed.

Lemma within_peek {B} n (k : ascii -> P B) p st :
  (forall c, deref p = Some c -> within n (k c p st)) ->
  within n (bind peek k p st).
Proof.
  unfold bind, peek. destruct (deref p); simpl; auto.
Qed.

Lemma within_advance {B} n (k : unit -> P B) p st :
  within n (k tt (incr p) st) -> within n (bind advance k p st).
Proof. unfold bind, advance. auto. Qed.

Lemma fuel_enough (h : host) (fuel : nat) :
  (forall p st, (3 * remaining p + 3 <= fuel)%nat ->
     within (remaining p) (parse_expression h fuel p st)) /\
  (forall v p st, (3 * remaining p + 2 <= fuel)%nat ->
     within (remaining p) (parse_expression_loop h fuel v p st)) /\
  (forall p st, (3 * remaining p + 2 <= fuel)%nat ->
     within (remaining p) (parse_term h fuel p st)) /\
  (forall v p st, (3 * remaining p + 1 <= fuel)%nat ->
     within (remaining p) (parse_term_loop h fuel v p st)) /\
  (forall p st, (3 * remaining p + 1 <= fuel)%nat ->
     within (remaining p) (parse_factor h fuel p st)).
Proof.
  induction fuel as [|f (IHe & IHel & IHt & IHtl & IHf)].
  { repeat split; intros; lia. }
  repeat split; intros.
  - (* parse_expression *)
    simpl. apply within_bind; [apply IHt; lia|]. intros v p1 st1 _ L1.
    apply within_bind; [apply within_skip_whitespace|]. intros [] p2 st2 _ L2.
    eapply within_mono; [apply IHel; lia | lia].
  - (* parse_expression_loop *)
    simpl. apply within_peek. intros c D.
    destruct (Ascii.eqb c "+"); [|simpl; lia].
    apply within_advance. pose proof (remaining_incr _ _ D) as L0.
    apply within_bind.
    { eapply within_mono; [apply within_skip_whitespace | lia]. }
    intros [] p1 st1 _ L1.
    apply within_bind.
    { eapply within_mono; [apply IHt; lia | lia]. }
    intros t p2 st2 _ L2.
    apply within_bind; [apply within_skip_whitespace|]. intros [] p3 st3 _ L3.
    eapply within_mono; [apply IHel; lia | lia].
  - (* parse_term *)
    simpl. apply within_bind; [apply IHf; lia|]. intros v p1 st1 _ L1.
    apply within_bind; [apply within_skip_whitespace|]. intros [] p2 st2 _ L2.
    eapply within_mono; [apply IHtl; lia | lia].
  - (* parse_term_loop *)
    simpl. apply within_peek. intros c D.
    destruct (is_middle_dot c); [|simpl; lia].
    apply within_advance. pose proof (remaining_incr _ _ D) as L0.
    apply within_bind.
    { eapply within_mono; [apply within_skip_whitespace | lia]. }
    intros [] p1 st1 _ L1.
    apply within_bind.
    { eapply within_mono; [apply IHf; lia | lia]. }
    intros t p2 st2 _ L2.
    apply within_bind; [apply within_skip_whitespace|]. intros [] p3 st3 _ L3.
    eapply within_mono; [apply IHtl; lia | lia].
  - (* parse_factor *)
    simpl. apply within_bind; [apply within_skip_whitespace|]. intros [] p1 st1 _ L1.
    apply within_peek. intros c D. pose proof (remaining_incr _ _ D) as L0.
    destruct (Ascii.eqb c "!").
    { apply within_advance. apply within_bind.
      { eapply within_mono; [apply IHf; lia | lia]. }
      intros v p2 st2 _ L2. simpl. lia. }
    destruct (Ascii.eqb c "(").
    { apply within_advance. apply within_bind.
      { eapply within_mono; [apply IHe; lia | lia]. }
      intros v p2 st2 _ L2.
      apply within_bind.
      { eapply within_mono; [apply within_skip_whitespace | lia]. }
      intros [] p3 st3 _ L3.
      apply within_peek. intros c' D'. pose proof (remaining_incr _ _ D').
      destruct (Ascii.eqb c' ")"); simpl; lia. }
    destruct (isdigit c); [simpl; lia|].
    destruct (isalpha c); [simpl; lia|].
    apply within_bind.
    { eapply within_mono; [apply within_unrecognized | lia]. }
    intros [] p2 st2 _ L2. simpl. lia.
Qed.

Lemma run_parser_terminates (h : host) (expr : string) (st : state) :
  run_parser h expr st <> Fault OutOfFuel.
Proof.
  unfold run_parser.
  destruct (fuel_enough h (fuel_for expr)) as (He & _).
  specialize (He (At expr) st).
  unfold fuel_for in *. simpl remaining in He.
  assert (L : (3 * S (String.length expr) + 3 <= 3 * String.length expr + 6)%nat) by lia.
  specialize (He L).
  destruct (parse_expression h _ (At expr) st) as [[[v p] st']|[]];
    simpl in He; try discriminate; contradiction.
Qed.

(** The parser returns a value or reads past the end of its input. *)
Lemma run_parser_outcome (h : host) (expr : string) (st : state) :
  returns (run_parser h expr st) \/ run_parser h expr st = Fault ReadPastEnd.
Proof.
  unfold run_parser.
  destruct (fuel_enough h (fuel_for expr)) as (He & _).
  specialize (He (At expr) st).
  unfold fuel_for in *. simpl remaining in He.
  assert (L : (3 * S (String.length expr) + 3 <= 3 * String.length expr + 6)%nat) by lia.
  specialize (He L).
  destruct (parse_expression h _ (At expr) st) as [[[v p] st']|[]];
    simpl in He; try contradiction.
  - left. exists v, st'. reflexivity.
  - right. reflexivity.
Qed.


(** ** More fuel does not change a result *)

Lemma parse_expression_S h fuel :
  parse_expression h (S fuel)
  = (value <- parse_term h fuel ;;
     skip_whitespace ;;;
     parse_expression_loop h fuel value).
Proof. reflexivity. Qed.

Lemma parse_expression_loop_S h fuel value :
  parse_expression_loop h (S fuel) value
  = (c <- peek ;;
     if Ascii.eqb c "+" then
       advance ;;;
       skip_whitespace ;;;
       term_value <- parse_term h fuel ;;
       skip_whitespace ;;;
       parse_expression_loop h fuel (c_or value term_value)
     else ret value).
Proof. reflexivity. Qed.

Lemma parse_term_S h fuel :
  parse_term h (S fuel)
  = (value <- parse_factor h fuel ;;
     skip_whitespace ;;;
     parse_term_loop h fuel value).
Proof. reflexivity. Qed.

Lemma parse_term_loop_S h fuel value :
  parse_term_loop h (S fuel) value
  = (c <- peek ;;
     if is_middle_dot c then
       advance ;;;
       skip_whitespace ;;;
       factor_value <- parse_factor h fuel ;;
       skip_whitespace ;;;
       parse_term_loop h fuel (c_and value factor_value)
     else ret value).
Proof. reflexivity. Qed.

Lemma parse_factor_S h fuel :
  parse_factor h (S fuel)
  = (skip_whitespace ;;;
     c <- peek ;;
     if Ascii.eqb c "!" then
       advance ;;;
       factor_value <- parse_factor h fuel ;;
       ret (c_not factor_value)
     else if Ascii.eqb c "(" then
       advance ;;;
       value <- parse_expression h fuel ;;
       skip_whitespace ;;;
       c' <- peek ;;
       if Ascii.eqb c' ")" then
         advance ;;; ret value
       else
         eprint MISSING_PAREN ;;; ret value
     else if isdigit c then
       advance ;;; ret (char_to_int c - char_to_int "0")
     else if isalpha c then
       advance ;;; lookup_var c
     else
       unrecognized h ;;; ret 0).
Proof. reflexivity. Qed.

Lemma refines_refl {A} (o : outcome A) : refines o o.
Proof. right. reflexivity. Qed.

Lemma refines_bind {A B} (m1 m2 : P A) (k1 k2 : A -> P B) p st :
  refines (m1 p st) (m2 p st) ->
  (forall a p' st', refines (k1 a p' st') (k2 a p' st')) ->
  refines (bind m1 k1 p st) (bind m2 k2 p st).
Proof.
  intros [E|E] K; unfold bind; rewrite E.
  - left. reflexivity.
  - destruct (m2 p st) as [[[a p'] st']|f]; [apply K | right; reflexivity].
Qed.

Lemma refines_same {A B} (m : P A) (k1 k2 : A -> P B) p st :
  (forall a p' st', refines (k1 a p' st') (k2 a p' st')) ->
  refines (bind m k1 p st) (bind m k2 p st).
Proof. intros K. apply refines_bind; [apply refines_refl | exact K]. Qed.

Lemma one_more_fuel (h : host) (fuel : nat) :
  (forall p st, refines (parse_expression h fuel p st)
                        (parse_expression h (S fuel) p st)) /\
  (forall v p st, refines (parse_expression_loop h fuel v p st)
                          (parse_expression_loop h (S fuel) v p st)) /\
  (forall p st, refines (parse_term h fuel p st) (parse_term h (S fuel) p st)) /\
  (forall v p st, refines (parse_term_loop h fuel v p st)
                          (parse_term_loop h (S fuel) v p st)) /\
  (forall p st, refines (parse_factor h fuel p st) (parse_factor h (S fuel) p st)).
Proof.
  induction fuel as [|f (IHe & IHel & IHt & IHtl & IHf)].
  { repeat split; intros; left; reflexivity. }
  repeat split; intros.
  - rewrite (parse_expression_S h f), (parse_expression_S h (S f)).
    apply refines_bind; [apply IHt|]. intros a p1 s1.
    apply refines_same. intros [] p2 s2. apply IHel.
  - rewrite (parse_expression_loop_S h f), (parse_expression_loop_S h (S f)).
    apply refines_same. intros c p1 s1.
    destruct (Ascii.eqb c "+"); [|apply refines_refl].
    apply refines_same. intros [] p2 s2.
    apply refines_same. intros [] p3 s3.
    apply refines_bind; [apply IHt|]. intros a p4 s4.
    apply refines_same. intros [] p5 s5. apply IHel.
  - rewrite (parse_term_S h f), (parse_term_S h (S f)).
    apply refines_bind; [apply IHf|]. intros a p1 s1.
    apply refines_same. intros [] p2 s2. apply IHtl.
  - rewrite (parse_term_loop_S h f), (parse_term_loop_S h (S f)).
    apply refines_same. intros c p1 s1.
    destruct (is_middle_dot c); [|apply refines_refl].
    apply refines_same. intros [] p2 s2.
    apply refines_same. intros [] p3 s3.
    apply refines_bind; [apply IHf|]. intros a p4 s4.
    apply refines_same. intros [] p5 s5. apply IHtl.
  - rewrite (parse_factor_S h f), (parse_factor_S h (S f)).
    apply refines_same. intros [] p1 s1.
    apply refines_same. intros c p2 s2.
    destruct (Ascii.eqb c "!").
    { apply refines_same. intros [] p3 s3.
      apply refines_bind; [apply IHf|]. intros a p4 s4. apply refines_refl. }
    destruct (Ascii.eqb c "(").
    { apply refines_same. intros [] p3 s3.
      apply refines_bind; [apply IHe|]. intros a p4 s4. apply refines_refl. }
    apply refines_refl.
Qed.

(** With the fuel of [run_parser] or more, the parser gives the same
    outcome: the bound of the embedding is not observable. *)
Lemma fuel_is_not_observable (h : host) (expr : string) (st : state) (extra : nat) :
  parse_expression h (fuel_for expr + extra) (At expr) st
  = parse_expression h (fuel_for expr) (At expr) st.
Proof.
  induction extra as [|n IH].
  - rewrite Nat.add_0_r. reflexivity.
  - rewrite Nat.add_succ_r.
    destruct (one_more_fuel h (fuel_for expr + n)) as (He & _).
    destruct (He (At expr) st) as [E|E].
    + exfalso. rewrite IH in E.
      pose proof (run_parser_terminates h expr st) as T.
      unfold run_parser in T. rewrite E in T. apply T. reflexivity.
    + rewrite <- E. exact IH.
Qed.

(** ** Character facts *)

Lemma is_middle_dot_false (c : ascii) : is_middle_dot c = false.
Proof. destruct c as [[] [] [] [] [] [] [] []]; reflexivity. Qed.

Lemma letter_facts (c : ascii) :
  isalpha c = true ->
  nonzero c = true /\ isspace c = false /\ Ascii.eqb c "!" = false /\
  Ascii.eqb c "(" = false /\ isdigit c = false.
Proof.
  destruct c as [[] [] [] [] [] [] [] []]; vm_compute; intros H;
    try discriminate H; repeat split.
Qed.

Lemma space_nonzero (c : ascii) : isspace c = true -> nonzero c = true.
Proof.
  destruct c as [[] [] [] [] [] [] [] []]; vm_compute; intros H;
    try discriminate H; reflexivity.
Qed.

Lemma append_assoc (a b c : string) : ((a ++ b) ++ c = a ++ (b ++ c))%string.
Proof. induction a as [|x a IH]; simpl; [reflexivity | now rewrite IH]. Qed.

Lemma append_nil_r (a : string) : (a ++ "")%string = a.
Proof. induction a as [|x a IH]; simpl; [reflexivity | now rewrite IH]. Qed.

Lemma skip_ws_space (w x : string) :
  all_space w = true -> skip_ws (w ++ x) = skip_ws x.
Proof.
  induction w as [|c w IH]; simpl; intros H; [reflexivity|].
  apply andb_prop in H. destruct H as [Hc Hw].
  rewrite (space_nonzero _ Hc), Hc. simpl. auto.
Qed.

Lemma skip_ws_head (c : ascii) (r : string) :
  isspace c = false -> skip_ws (String c r) = String c r.
Proof. intros H. simpl. rewrite H, andb_false_r. reflexivity. Qed.

Lemma skip_ws_factor (f : factor) (k : string) :
  wf_factor f = true -> skip_ws (render_factor f ++ k) = render_factor f ++ k.
Proof.
  destruct f as [w f|w1 e w2|b|c]; intros H.
  - reflexivity.
  - reflexivity.
  - destruct b; reflexivity.
  - simpl in H. destruct (letter_facts c H) as (_ & Hs & _).
    apply skip_ws_head. exact Hs.
Qed.

Lemma skip_ws_term (t : term) (k : string) :
  wf_term t = true -> skip_ws (render_term t ++ k) = render_term t ++ k.
Proof.
  destruct t as [f tl]. simpl. intros H. apply andb_prop in H. destruct H as [H _].
  rewrite append_assoc. apply skip_ws_factor. exact H.
Qed.

Lemma skip_ws_expression (e : expression) (k : string) :
  wf_expression e = true ->
  skip_ws (render_expression e ++ k) = render_expression e ++ k.
Proof.
  destruct e as [t tl]. simpl. intros H. apply andb_prop in H. destruct H as [H _].
  rewrite append_assoc. apply skip_ws_term. exact H.
Qed.

Lemma agrees_out_of_fuel st r k : agrees (Fault OutOfFuel) st r k.
Proof. left. reflexivity. Qed.

Lemma skip_ws_idem (s : string) : skip_ws (skip_ws s) = skip_ws s.
Proof.
  induction s as [|c r IH]; simpl; [reflexivity|].
  destruct (nonzero c && isspace c) eqn:E; [exact IH|].
  simpl. rewrite E. reflexivity.
Qed.

Lemma agrees_bind (m : P Z) (k : Z -> P Z) p st r kk R K :
  agrees (m p st) st r kk ->
  (forall rest, stands r kk rest ->
     agrees (k (value r) (At rest)
               (mkState (g_var_mapping st) (stderr st ++ messages r)%list))
            st R K) ->
  agrees (bind m k p st) st R K.
Proof.
  intros [E | (rest & E & Hs)] HK; unfold bind; rewrite E.
  - left. reflexivity.
  - apply HK. exact Hs.
Qed.

Lemma agrees_shift o st m1 r k :
  agrees o (mkState (g_var_mapping st) (stderr st ++ m1)%list) r k ->
  agrees o st (mkReading (value r) (halted r) (m1 ++ messages r)%list) k.
Proof.
  intros [E | (rest & E & Hs)]; [left; exact E | right].
  exists rest. split; [|exact Hs].
  rewrite E. simpl. rewrite app_assoc. reflexivity.
Qed.

Lemma agrees_ok v rest st msgs (r : reading) k :
  value r = v -> messages r = msgs -> stands r k rest ->
  agrees (Ok (v, At rest, mkState (g_var_mapping st) (stderr st ++ msgs)%list))
         st r k.
Proof.
  intros <- <- Hs. right. exists rest. split; [reflexivity | exact Hs].
Qed.

Lemma agrees_ok_quiet v rest st (r : reading) k :
  value r = v -> messages r = [] -> stands r k rest ->
  agrees (Ok (v, At rest, st)) st r k.
Proof.
  intros <- Hm Hs. right. exists rest. split; [|exact Hs].
  rewrite Hm, app_nil_r. destruct st; reflexivity.
Qed.

(** A loop of [parse_term] or [parse_expression] met on a middle dot
    returns at once. *)
Lemma term_loop_halted h fuel v tl st :
  parse_term_loop h fuel v (At (String "194" tl)) st = Fault OutOfFuel \/
  parse_term_loop h fuel v (At (String "194" tl)) st
  = Ok (v, At (String "194" tl), st).
Proof. destruct fuel; [left | right]; reflexivity. Qed.

Lemma expression_loop_halted h fuel v tl st :
  parse_expression_loop h fuel v (At (String "194" tl)) st = Fault OutOfFuel \/
  parse_expression_loop h fuel v (At (String "194" tl)) st
  = Ok (v, At (String "194" tl), st).
Proof. destruct fuel; [left | right]; reflexivity. Qed.

Lemma term_loop_returns h fuel v s st :
  parse_term_loop h fuel v (At s) st = Fault OutOfFuel \/
  parse_term_loop h fuel v (At s) st = Ok (v, At s, st).
Proof.
  destruct fuel; [left; reflexivity | right].
  simpl. unfold bind, peek. destruct s as [|c r]; simpl;
    rewrite ?is_middle_dot_false; reflexivity.
Qed.

Lemma expression_loop_closing h fuel v k st :
  closing k = true ->
  parse_expression_loop h fuel v (At (skip_ws k)) st = Fault OutOfFuel \/
  parse_expression_loop h fuel v (At (skip_ws k)) st = Ok (v, At (skip_ws k), st).
Proof.
  unfold closing. intros H.
  destruct fuel; [left; reflexivity | right].
  simpl. unfold bind, peek. destruct (skip_ws k) as [|c r]; simpl; [reflexivity|].
  destruct (Ascii.eqb c "+"); [discriminate H | reflexivity].
Qed.

Section Conformance.

Variable h : host.

Lemma factor_not_ok w f : factor_ok h f -> factor_ok h (FNot w f).
Proof.
  intros IH Hwf fuel s k st Hs. simpl in Hwf.
  apply andb_prop in Hwf. destruct Hwf as [Hw Hf].
  destruct fuel; [apply agrees_out_of_fuel|].
  simpl. unfold bind at 1. simpl. rewrite Hs. simpl.
  unfold bind at 1. simpl. unfold bind at 1. simpl.
  eapply agrees_bind.
  - apply IH; [exact Hf|].
    rewrite append_assoc, skip_ws_space by exact Hw.
    apply skip_ws_factor. exact Hf.
  - intros rest Hr. unfold ret. apply agrees_ok; auto.
Qed.

Lemma factor_paren_ok w1 e w2 : expression_ok h e -> factor_ok h (FParen w1 e w2).
Proof.
  intros IH Hwf fuel s k st Hs. simpl in Hwf.
  apply andb_prop in Hwf. destruct Hwf as [Hwf Hw2].
  apply andb_prop in Hwf. destruct Hwf as [Hw1 He].
  destruct fuel; [apply agrees_out_of_fuel|].
  simpl. unfold bind at 1. simpl. rewrite Hs. simpl.
  unfold bind at 1. simpl. unfold bind at 1. simpl.
  assert (Hc : closing (w2 ++ ")" ++ k) = true).
  { unfold closing. rewrite skip_ws_space by exact Hw2. reflexivity. }
  assert (Hk : skip_ws (w2 ++ ")" ++ k) = String ")" k).
  { rewrite skip_ws_space by exact Hw2. reflexivity. }
  eapply agrees_bind.
  - apply IH; [exact He | exact Hc |].
    rewrite !append_assoc, skip_ws_space by exact Hw1.
    apply skip_ws_expression. exact He.
  - intros rest Hr. unfold stands in Hr.
    unfold read_factor; fold read_expression.
    destruct (halted (read_expression (g_var_mapping st) e)) eqn:Hh.
    + destruct Hr as (tl & ->).
      unfold bind, eprint, ret. simpl.
      rewrite <- app_assoc.
      apply agrees_ok; auto. unfold stands. simpl. eauto.
    + rewrite Hk in Hr. subst rest.
      unfold bind, ret. simpl.
      apply agrees_ok; auto. reflexivity.
Qed.

Lemma factor_lit_ok b : factor_ok h (FLit b).
Proof.
  intros _ fuel s k st Hs.
  destruct fuel; [apply agrees_out_of_fuel|].
  simpl. unfold bind at 1. simpl. rewrite Hs.
  destruct b; unfold bind, ret; simpl; apply agrees_ok_quiet; reflexivity.
Qed.

Lemma factor_var_ok c : factor_ok h (FVar c).
Proof.
  intros Hwf fuel s k st Hs. simpl in Hwf.
  destruct (letter_facts c Hwf) as (Hnz & Hsp & Hbang & Hpar & Hdig).
  destruct fuel; [apply agrees_out_of_fuel|].
  simpl. unfold bind at 1. simpl. rewrite Hs.
  unfold bind, ret, lookup_var. simpl.
  rewrite Hbang, Hpar, Hdig, Hwf. simpl. rewrite Hnz.
  apply agrees_ok_quiet; reflexivity.
Qed.

Lemma a_term_ok f tl : factor_ok h f -> term_ok h (Term f tl).
Proof.
  intros IH Hwf fuel s k st Hs. simpl in Hwf.
  apply andb_prop in Hwf. destruct Hwf as [Hf Htl].
  destruct fuel; [apply agrees_out_of_fuel|].
  simpl. simpl in Hs. rewrite append_assoc in Hs.
  eapply agrees_bind; [apply IH; [exact Hf | exact Hs]|].
  intros rest Hr. unfold stands in Hr.
  unfold bind at 1. simpl.
  destruct (halted (read_factor (g_var_mapping st) f)) eqn:Hh.
  - destruct Hr as (r & ->). simpl.
    destruct (term_loop_halted h fuel
                (value (read_factor (g_var_mapping st) f)) r
                (mkState (g_var_mapping st)
                   (stderr st ++ messages (read_factor (g_var_mapping st) f))%list))
      as [E|E]; rewrite E; [apply agrees_out_of_fuel|].
    apply agrees_ok; auto. unfold stands. simpl. rewrite ?Hh. simpl. eauto.
  - subst rest.
    match goal with
    | |- agrees (parse_term_loop h fuel ?v (At ?x) ?st1) _ _ _ =>
        destruct (term_loop_returns h fuel v x st1) as [E|E]; rewrite E
    end; [apply agrees_out_of_fuel|].
    apply agrees_ok; auto. unfold stands. simpl. rewrite ?Hh. simpl.
    destruct tl as [|w1 w2 f' tl']; simpl.
    + reflexivity.
    + simpl in Htl.
      apply andb_prop in Htl. destruct Htl as [Htl _].
      apply andb_prop in Htl. destruct Htl as [Htl _].
      apply andb_prop in Htl. destruct Htl as [Hw1 _].
      rewrite append_assoc, skip_ws_space by exact Hw1.
      simpl. eauto.
Qed.

Lemma an_expression_ok t tl : term_ok h t -> expr_tail_ok h tl -> expression_ok h (Expr t tl).
Proof.
  intros IHt IHtl Hwf fuel s k st Hc Hs. simpl in Hwf.
  apply andb_prop in Hwf. destruct Hwf as [Ht Htl].
  destruct fuel; [apply agrees_out_of_fuel|].
  simpl. simpl in Hs. rewrite append_assoc in Hs.
  eapply agrees_bind; [apply IHt; [exact Ht | exact Hs]|].
  intros rest Hr. unfold stands in Hr.
  unfold bind at 1. simpl.
  destruct (halted (read_term (g_var_mapping st) t)) eqn:Hh.
  - destruct Hr as (r & ->). simpl.
    match goal with
    | |- agrees (parse_expression_loop h fuel ?v (At (String _ ?x)) ?st1) _ _ _ =>
        destruct (expression_loop_halted h fuel v x st1) as [E|E]; rewrite E
    end; [apply agrees_out_of_fuel|].
    apply agrees_ok; auto. unfold stands. rewrite ?Hh. eauto.
  - subst rest. rewrite skip_ws_idem.
    apply (agrees_shift _ st (messages (read_term (g_var_mapping st) t))).
    apply (IHtl Htl fuel _ k
             (mkState (g_var_mapping st)
                (stderr st ++ messages (read_term (g_var_mapping st) t))%list) Hc).
Qed.

Lemma expr_tail_nil_ok : expr_tail_ok h ENil.
Proof.
  intros _ fuel v k st Hc. simpl.
  destruct (expression_loop_closing h fuel v k st Hc) as [E|E]; rewrite E;
    [apply agrees_out_of_fuel|].
  apply agrees_ok_quiet; reflexivity.
Qed.

Lemma expr_tail_cons_ok w1 w2 t tl :
  term_ok h t -> expr_tail_ok h tl -> expr_tail_ok h (ECons w1 w2 t tl).
Proof.
  intros IHt IHtl Hwf fuel v k st Hc. simpl in Hwf.
  apply andb_prop in Hwf. destruct Hwf as [Hwf Htl].
  apply andb_prop in Hwf. destruct Hwf as [Hwf Ht].
  apply andb_prop in Hwf. destruct Hwf as [Hw1 Hw2].
  destruct fuel; [apply agrees_out_of_fuel|].
  simpl render_expr_tail.
  rewrite !append_assoc, skip_ws_space by exact Hw1.
  simpl. unfold bind at 1. simpl. unfold bind at 1. simpl.
  unfold bind at 1. simpl.
  rewrite !append_assoc, skip_ws_space by exact Hw2.
  eapply agrees_bind.
  - apply IHt; [exact Ht|]. rewrite skip_ws_idem. apply skip_ws_term. exact Ht.
  - intros rest Hr. unfold stands in Hr.
    unfold bind at 1. simpl.
    destruct (halted (read_term (g_var_mapping st) t)) eqn:Hh.
    + destruct Hr as (r & ->). simpl.
      match goal with
      | |- agrees (parse_expression_loop h fuel ?v (At (String _ ?x)) ?st1) _ _ _ =>
          destruct (expression_loop_halted h fuel v x st1) as [E|E]; rewrite E
      end; [apply agrees_out_of_fuel|].
      apply agrees_ok; auto. unfold stands. simpl. eauto.
    + subst rest. rewrite skip_ws_idem.
      apply (agrees_shift _ st (messages (read_term (g_var_mapping st) t))).
      apply (IHtl Htl fuel _ k
               (mkState (g_var_mapping st)
                  (stderr st ++ messages (read_term (g_var_mapping st) t))%list) Hc).
Qed.

Lemma conformance :
  (forall f, factor_ok h f) /\ (forall t, term_ok h t) /\
  (forall tl : term_tail, True) /\
  (forall e, expression_ok h e) /\ (forall tl, expr_tail_ok h tl).
Proof.
  apply grammar_ind; auto using factor_not_ok, factor_paren_ok, factor_lit_ok,
    factor_var_ok, a_term_ok, an_expression_ok, expr_tail_nil_ok, expr_tail_cons_ok.
Qed.

End Conformance.

(** ** Sentences of the grammar *)

Lemma skip_ws_all_space (w : string) : all_space w = true -> skip_ws w = "".
Proof.
  intros H. rewrite <- (append_nil_r w). rewrite skip_ws_space by exact H.
  reflexivity.
Qed.

Lemma closing_space (w : string) : all_space w = true -> closing w = true.
Proof. intros H. unfold closing. rewrite skip_ws_all_space by exact H. reflexivity. Qed.

(** On a sentence both hosts return what [read_expression] says. *)
Lemma run_parser_sentence (h : host) (s : sentence) (st : state) :
  wf s = true ->
  run_parser h (render s) st
  = Ok (value (read_expression (g_var_mapping st) (body s)),
        mkState (g_var_mapping st)
          (stderr st ++ messages (read_expression (g_var_mapping st) (body s)))%list).
Proof.
  intros Hwf. unfold wf in Hwf.
  apply andb_prop in Hwf. destruct Hwf as [Hwf Htrail].
  apply andb_prop in Hwf. destruct Hwf as [Hlead Hbody].
  pose proof (run_parser_terminates h (render s) st) as Hterm.
  unfold run_parser in *.
  destruct (conformance h) as (_ & _ & _ & He & _).
  destruct (He (body s) Hbody (fuel_for (render s)) (render s) (trail s) st
              (closing_space _ Htrail)) as [E | (rest & E & _)].
  - unfold render. rewrite skip_ws_space by exact Hlead.
    apply skip_ws_expression. exact Hbody.
  - rewrite E in Hterm. contradiction.
  - rewrite E. reflexivity.
Qed.

Lemma evaluate_sentence (h : host) (s : sentence) (m : mapping) (st : state) :
  wf s = true ->
  evaluate_expr_with_mapping h (render s) m st
  = Ok (value (read_expression m (body s)),
        mkState m (stderr st ++ messages (read_expression m (body s)))%list).
Proof.
  intros Hwf. unfold evaluate_expr_with_mapping.
  rewrite run_parser_sentence by exact Hwf. reflexivity.
Qed.

Lemma c_not_boolean a : c_not a = 0 \/ c_not a = 1.
Proof. unfold c_not. destruct (a =? 0); auto. Qed.

Lemma c_or_boolean a b : c_or a b = 0 \/ c_or a b = 1.
Proof. unfold c_or. destruct (negb (a =? 0) || negb (b =? 0)); auto. Qed.

Lemma reading_boolean (g : mapping) :
  boolean_valued g ->
  (forall f, value (read_factor g f) = 0 \/ value (read_factor g f) = 1) /\
  (forall t, value (read_term g t) = 0 \/ value (read_term g t) = 1) /\
  (forall tl : term_tail, True) /\
  (forall e, value (read_expression g e) = 0 \/ value (read_expression g e) = 1) /\
  (forall tl v, v = 0 \/ v = 1 ->
     value (read_expr_tail g v tl) = 0 \/ value (read_expr_tail g v tl) = 1).
Proof.
  intros Hg. apply grammar_ind; simpl; intros; auto.
  - apply c_not_boolean.
  - destruct (halted (read_expression g e)); simpl; auto.
  - destruct b; auto.
  - destruct (halted (read_term g t)); simpl; auto.
  - destruct (halted (read_term g t)); simpl.
    + apply c_or_boolean.
    + apply H0. apply c_or_boolean.
Qed.

(** ** The CGI host never leaves the string *)

Lemma stays_bind {A B} (m : P A) (k : A -> P B) s st :
  stays (m (At s) st) ->
  (forall a s' st', stays (k a (At s') st')) ->
  stays (bind m k (At s) st).
Proof.
  unfold bind. destruct (m (At s) st) as [[[a [s'|]] st']|[]]; simpl; intros H K;
    auto; contradiction.
Qed.

Lemma stays_skip_whitespace s st : stays (skip_whitespace (At s) st).
Proof. exact I. Qed.

Lemma digit_nonzero (c : ascii) : isdigit c = true -> nonzero c = true.
Proof.
  destruct c as [[] [] [] [] [] [] [] []]; vm_compute; intros H;
    try discriminate H; reflexivity.
Qed.

Lemma stays_peek {B} (k : ascii -> P B) s st :
  (forall c, deref (At s) = Some c -> stays (k c (At s) st)) ->
  stays (bind peek k (At s) st).
Proof.
  intros H. unfold bind, peek. destruct (deref (At s)) as [c|] eqn:D.
  - apply H. reflexivity.
  - destruct s; discriminate D.
Qed.

Lemma stays_advance {B} (k : unit -> P B) c s st :
  deref (At s) = Some c -> nonzero c = true ->
  (forall s', stays (k tt (At s') st)) ->
  stays (bind advance k (At s) st).
Proof.
  intros D Hnz H. unfold bind, advance.
  destruct s as [|c' r]; unfold deref in D; inversion D; subst.
  - discriminate Hnz.
  - unfold incr. rewrite Hnz. apply H.
Qed.

Lemma eqb_nonzero (x c : ascii) :
  nonzero x = true -> Ascii.eqb c x = true -> nonzero c = true.
Proof. intros H E. apply Ascii.eqb_eq in E. subst c. exact H. Qed.

Lemma cgi_stays (fuel : nat) :
  (forall s st, stays (parse_expression Cgi fuel (At s) st)) /\
  (forall v s st, stays (parse_expression_loop Cgi fuel v (At s) st)) /\
  (forall s st, stays (parse_term Cgi fuel (At s) st)) /\
  (forall v s st, stays (parse_term_loop Cgi fuel v (At s) st)) /\
  (forall s st, stays (parse_factor Cgi fuel (At s) st)).
Proof.
  induction fuel as [|f (IHe & IHel & IHt & IHtl & IHf)].
  { repeat split; intros; exact I. }
  repeat split; intros.
  - simpl. apply stays_bind; [apply IHt|]. intros a s1 st1.
    apply stays_bind; [exact I|]. intros [] s2 st2. apply IHel.
  - simpl. apply stays_peek. intros c D.
    destruct (Ascii.eqb c "+") eqn:E; [|exact I].
    apply (stays_advance _ c); [exact D | apply (eqb_nonzero "+"); auto |].
    intros s1. apply stays_bind; [exact I|]. intros [] s2 st2.
    apply stays_bind; [apply IHt|]. intros a s3 st3.
    apply stays_bind; [exact I|]. intros [] s4 st4. apply IHel.
  - simpl. apply stays_bind; [apply IHf|]. intros a s1 st1.
    apply stays_bind; [exact I|]. intros [] s2 st2. apply IHtl.
  - simpl. apply stays_peek. intros c D.
    rewrite is_middle_dot_false. exact I.
  - simpl. apply stays_bind; [exact I|]. intros [] s1 st1.
    apply stays_peek. intros c D.
    destruct (Ascii.eqb c "!") eqn:E1.
    { apply (stays_advance _ c); [exact D | apply (eqb_nonzero "!"); auto |].
      intros s2. apply stays_bind; [apply IHf|]. intros a s3 st3. exact I. }
    destruct (Ascii.eqb c "(") eqn:E2.
    { apply (stays_advance _ c); [exact D | apply (eqb_nonzero "("); auto |].
      intros s2. apply stays_bind; [apply IHe|]. intros a s3 st3.
      apply stays_bind; [exact I|]. intros [] s4 st4.
      apply stays_peek. intros c' D'.
      destruct (Ascii.eqb c' ")") eqn:E3.
      - apply (stays_advance _ c'); [exact D' | apply (eqb_nonzero ")"); auto |].
        intros s5. exact I.
      - exact I. }
    destruct (isdigit c) eqn:E3.
    { apply (stays_advance _ c); [exact D | apply digit_nonzero; exact E3 |].
      intros s2. exact I. }
    destruct (isalpha c) eqn:E4.
    { apply (stays_advance _ c); [exact D | apply letter_facts; exact E4 |].
      intros s2. exact I. }
    exact I.
Qed.

(** The CGI host returns a value on every input. *)
Lemma cgi_returns (expr : string) (st : state) : returns (run_parser Cgi expr st).
Proof.
  pose proof (run_parser_terminates Cgi expr st) as Hterm.
  destruct (cgi_stays (fuel_for expr)) as (He & _).
  specialize (He expr st).
  unfold run_parser in *.
  destruct (parse_expression Cgi (fuel_for expr) (At expr) st)
    as [[[v [s'|]] st']|[]]; simpl in He; try contradiction.
  exists v, st'. reflexivity.
Qed.

(** ** What [stderr] holds does not influence the parse *)

Lemma same_bind {A B} (m1 m2 : P A) (k1 k2 : A -> P B) p st1 st2 :
  same_but_stderr (m1 p st1) (m2 p st2) ->
  (forall a p' st1' st2', g_var_mapping st1' = g_var_mapping st2' ->
     same_but_stderr (k1 a p' st1') (k2 a p' st2')) ->
  same_but_stderr (bind m1 k1 p st1) (bind m2 k2 p st2).
Proof.
  unfold bind.
  destruct (m1 p st1) as [[[a1 p1] s1]|f1], (m2 p st2) as [[[a2 p2] s2]|f2];
    simpl; intros H K; try contradiction; auto.
  destruct H as (-> & -> & Hg). apply K. exact Hg.
Qed.

Lemma same_prim {A} (m : P A) :
  (forall p st1 st2, g_var_mapping st1 = g_var_mapping st2 ->
     same_but_stderr (m p st1) (m p st2)) ->
  forall {B} (k1 k2 : A -> P B) p st1 st2,
    g_var_mapping st1 = g_var_mapping st2 ->
    (forall a p' st1' st2', g_var_mapping st1' = g_var_mapping st2' ->
       same_but_stderr (k1 a p' st1') (k2 a p' st2')) ->
    same_but_stderr (bind m k1 p st1) (bind m k2 p st2).
Proof. intros Hm B k1 k2 p st1 st2 Hg K. apply same_bind; auto. Qed.

Lemma same_skip_whitespace p st1 st2 :
  g_var_mapping st1 = g_var_mapping st2 ->
  same_but_stderr (skip_whitespace p st1) (skip_whitespace p st2).
Proof. destruct p; simpl; auto. Qed.

Lemma same_peek p st1 st2 :
  g_var_mapping st1 = g_var_mapping st2 ->
  same_but_stderr (peek p st1) (peek p st2).
Proof. unfold peek. destruct (deref p); simpl; auto. Qed.

Lemma same_advance p st1 st2 :
  g_var_mapping st1 = g_var_mapping st2 ->
  same_but_stderr (advance p st1) (advance p st2).
Proof. simpl; auto. Qed.

Lemma same_ret {A} (a : A) p st1 st2 :
  g_var_mapping st1 = g_var_mapping st2 ->
  same_but_stderr (ret a p st1) (ret a p st2).
Proof. simpl; auto. Qed.

Lemma same_eprint msg p st1 st2 :
  g_var_mapping st1 = g_var_mapping st2 ->
  same_but_stderr (eprint msg p st1) (eprint msg p st2).
Proof. simpl; auto. Qed.

Lemma same_lookup_var c p st1 st2 :
  g_var_mapping st1 = g_var_mapping st2 ->
  same_but_stderr (lookup_var c p st1) (lookup_var c p st2).
Proof. simpl. intros ->. auto. Qed.

Lemma same_unrecognized h p st1 st2 :
  g_var_mapping st1 = g_var_mapping st2 ->
  same_but_stderr (unrecognized h p st1) (unrecognized h p st2).
Proof. destruct h; simpl; auto. Qed.

Ltac same_leaf :=
  first
    [ apply same_skip_whitespace
    | apply same_peek
    | apply same_advance
    | apply same_ret
    | apply same_eprint
    | apply same_lookup_var
    | apply same_unrecognized ]; assumption.

Tactic Notation "same_then" ident(x) :=
  apply same_bind; [same_leaf | intros x ? ? ? ?].

Tactic Notation "same_call" constr(IH) ident(x) :=
  apply same_bind; [apply IH; assumption | intros x ? ? ? ?].

Lemma stderr_irrelevant (h : host) (fuel : nat) :
  (forall p st1 st2, g_var_mapping st1 = g_var_mapping st2 ->
     same_but_stderr (parse_expression h fuel p st1) (parse_expression h fuel p st2)) /\
  (forall v p st1 st2, g_var_mapping st1 = g_var_mapping st2 ->
     same_but_stderr (parse_expression_loop h fuel v p st1)
                     (parse_expression_loop h fuel v p st2)) /\
  (forall p st1 st2, g_var_mapping st1 = g_var_mapping st2 ->
     same_but_stderr (parse_term h fuel p st1) (parse_term h fuel p st2)) /\
  (forall v p st1 st2, g_var_mapping st1 = g_var_mapping st2 ->
     same_but_stderr (parse_term_loop h fuel v p st1)
                     (parse_term_loop h fuel v p st2)) /\
  (forall p st1 st2, g_var_mapping st1 = g_var_mapping st2 ->
     same_but_stderr (parse_factor h fuel p st1) (parse_factor h fuel p st2)).
Proof.
  induction fuel as [|f (IHe & IHel & IHt & IHtl & IHf)].
  { repeat split; intros; reflexivity. }
  repeat split; intros; simpl.
  - same_call IHt x. same_then u. apply IHel; assumption.
  - same_then c.
    destruct (Ascii.eqb c "+"); [|same_leaf].
    same_then u1. same_then u2. same_call IHt t. same_then u3.
    apply IHel; assumption.
  - same_call IHf x. same_then u. apply IHtl; assumption.
  - same_then c.
    destruct (is_middle_dot c); [|same_leaf].
    same_then u1. same_then u2. same_call IHf t. same_then u3.
    apply IHtl; assumption.
  - same_then u. same_then c.
    destruct (Ascii.eqb c "!").
    { same_then u1. same_call IHf x. same_leaf. }
    destruct (Ascii.eqb c "(").
    { same_then u1. same_call IHe x. same_then u2. same_then c'.
      destruct (Ascii.eqb c' ")"); same_then u3; same_leaf. }
    destruct (isdigit c); [same_then u1; same_leaf|].
    destruct (isalpha c); [same_then u1; same_leaf|].
    same_then u1. same_leaf.
Qed.

(** The value returned by the parser does not depend on the state it is
    started in, beyond the table it reads. *)
Lemma run_parser_value (h : host) (expr : string) (st1 st2 : state) :
  g_var_mapping st1 = g_var_mapping st2 ->
  value_of (run_parser h expr st1) = value_of (run_parser h expr st2).
Proof.
  intros Hg. unfold run_parser.
  destruct (stderr_irrelevant h (fuel_for expr)) as (He & _).
  specialize (He (At expr) st1 st2 Hg).
  destruct (parse_expression h (fuel_for expr) (At expr) st1) as [[[v1 p1] s1]|f1],
           (parse_expression h (fuel_for expr) (At expr) st2) as [[[v2 p2] s2]|f2];
    simpl in *; try contradiction.
  - destruct He as (-> & _). reflexivity.
  - subst. reflexivity.
Qed.

(** ** The truth table: the inner loop *)

Lemma update_same (m : mapping) (k : ascii) (v : Z) : update m k v k = v.
Proof. unfold update. rewrite Ascii.eqb_refl. reflexivity. Qed.

Lemma update_other (m : mapping) (k c : ascii) (v : Z) :
  c <> k -> update m k v c = m c.
Proof.
  intros H. unfold update. apply Ascii.eqb_neq in H. rewrite H. reflexivity.
Qed.

Lemma land_shiftr_bit (i k : nat) :
  Z.land (Z.shiftr (Z.of_nat i) (Z.of_nat k)) 1 = bit i k.
Proof.
  unfold bit. change 1 with (Z.ones 1).
  rewrite Z.land_ones by lia. change (2 ^ 1) with 2.
  rewrite <- Z.bit0_mod. rewrite Z.shiftr_spec by lia.
  reflexivity.
Qed.

Lemma assign_untouched (vars : list ascii) :
  forall i n j m printed c,
    ~ In c vars ->
    fst (assign_variables i n j vars m printed) c = m c.
Proof.
  induction vars as [|v vars IH]; intros i n j m printed c Hc; simpl; [reflexivity|].
  rewrite IH.
  - apply update_other. intros ->. apply Hc. left. reflexivity.
  - intros H. apply Hc. right. exact H.
Qed.

Lemma assign_printed (vars : list ascii) :
  forall i n j m printed,
    snd (assign_variables i n j vars m printed)
    = (printed ++ map (fun d => Z.land (Z.shiftr i (n - (j + Z.of_nat d) - 1)) 1)
                      (seq 0 (List.length vars)))%list.
Proof.
  induction vars as [|v vars IH]; intros i n j m printed; simpl.
  - rewrite app_nil_r. reflexivity.
  - rewrite IH, update_same, <- app_assoc. simpl.
    rewrite Z.add_0_r. do 2 f_equal.
    rewrite <- seq_shift, map_map. apply map_ext. intros d.
    do 3 f_equal. lia.
Qed.

Lemma assign_nth (vars : list ascii) :
  NoDup vars ->
  forall i n j m printed d,
    (d < List.length vars)%nat ->
    fst (assign_variables i n j vars m printed) (nth d vars NUL)
    = Z.land (Z.shiftr i (n - (j + Z.of_nat d) - 1)) 1.
Proof.
  induction 1 as [|v vars Hv Hnd IH]; intros i n j m printed d Hd; simpl in Hd; [lia|].
  destruct d as [|d]; simpl.
  - rewrite assign_untouched by exact Hv.
    rewrite update_same. do 3 f_equal. lia.
  - rewrite IH by lia. do 3 f_equal. lia.
Qed.

Lemma map_nth_seq {A} (l : list A) (d : A) :
  map (fun j => nth j l d) (seq 0 (List.length l)) = l.
Proof.
  induction l as [|a l IH]; simpl; [reflexivity|].
  f_equal. rewrite <- seq_shift, map_map. exact IH.
Qed.

Lemma row_mapping_bits (vars : list ascii) (i j : nat) :
  NoDup vars -> (j < List.length vars)%nat ->
  row_mapping vars (Z.of_nat i) (nth j vars NUL) = bit i (List.length vars - 1 - j).
Proof.
  intros Hnd Hj. unfold row_mapping. rewrite assign_nth by assumption.
  rewrite <- land_shiftr_bit. do 2 f_equal. lia.
Qed.

Lemma row_mapping_default (vars : list ascii) (i : Z) (c : ascii) :
  ~ In c vars -> row_mapping vars i c = 1.
Proof. intros H. unfold row_mapping. rewrite assign_untouched by exact H. reflexivity. Qed.

Lemma row_cells_bits (h : host) (vars : list ascii) (i : nat) :
  NoDup vars ->
  row_cells h vars (Z.of_nat i)
  = map (fun j => bit i (List.length vars - 1 - j)) (seq 0 (List.length vars)).
Proof.
  intros Hnd. destruct h; unfold row_cells.
  - rewrite assign_printed. simpl.
    apply map_ext_in. intros d Hd. apply in_seq in Hd.
    rewrite <- land_shiftr_bit. do 2 f_equal. lia.
  - rewrite <- (map_nth_seq vars NUL) at 2. rewrite map_map.
    apply map_ext_in. intros j Hj. apply in_seq in Hj.
    apply row_mapping_bits; [exact Hnd | lia].
Qed.

(** ** The truth table: the scan for variables *)

Lemma already_present_In (ch : ascii) (vars : list ascii) :
  already_present ch vars = true <-> In ch vars.
Proof.
  unfold already_present. rewrite existsb_exists. split.
  - intros (x & Hx & E). apply Ascii.eqb_eq in E. subst. exact Hx.
  - intros H. exists ch. split; [exact H | apply Ascii.eqb_refl].
Qed.

Lemma scan_variables_NoDup (p : string) :
  forall vars, NoDup vars -> NoDup (scan_variables p vars).
Proof.
  induction p as [|ch p IH]; intros vars Hnd; simpl; [exact Hnd|].
  destruct (nonzero ch); [|exact Hnd].
  destruct (isalpha ch); [|apply IH; exact Hnd].
  destruct (already_present ch vars) eqn:E; simpl; [apply IH; exact Hnd|].
  destruct (List.length vars <? 100)%nat; [|apply IH; exact Hnd].
  apply IH. apply NoDup_rev in Hnd.
  rewrite <- (rev_involutive (vars ++ [ch])). apply NoDup_rev.
  rewrite rev_app_distr. simpl. constructor; [|exact Hnd].
  rewrite <- in_rev. intros H. apply already_present_In in H. congruence.
Qed.

Lemma variables_NoDup (expr : string) : NoDup (variables expr).
Proof. apply scan_variables_NoDup. constructor. Qed.

(** ** The truth table: the outer loop *)

Lemma table_rows_sentence (h : host) (s : sentence) (vars : list ascii) :
  wf s = true ->
  forall todo i st,
  exists st',
    table_rows h (render s) vars todo i st
    = Ok (map (fun d =>
                 mkRow (row_cells h vars (i + Z.of_nat d))
                       (value (read_expression (row_mapping vars (i + Z.of_nat d))
                                               (body s))))
              (seq 0 todo), st').
Proof.
  intros Hwf. induction todo as [|todo IH]; intros i st.
  - exists st. reflexivity.
  - cbn [table_rows]. rewrite evaluate_sentence by exact Hwf.
    destruct (IH (i + 1) (mkState (row_mapping vars i)
                (stderr st ++ messages (read_expression (row_mapping vars i) (body s)))%list))
      as (st' & E).
    rewrite E. exists st'. f_equal. f_equal.
    cbn [seq map]. rewrite Z.add_0_r. f_equal.
    rewrite <- seq_shift, map_map. apply map_ext. intros d.
    replace (i + 1 + Z.of_nat d) with (i + Z.of_nat (S d)) by lia.
    reflexivity.
Qed.

Lemma shift_left_one_small (n : nat) :
  (n <= 30)%nat -> shift_left_one (Z.of_nat n) = Ok (2 ^ Z.of_nat n).
Proof.
  intros H. unfold shift_left_one.
  replace (0 <=? Z.of_nat n) with true by (symmetry; apply Z.leb_le; lia).
  replace (Z.of_nat n <? 31) with true by (symmetry; apply Z.ltb_lt; lia).
  simpl. rewrite Z.shiftl_1_l. reflexivity.
Qed.

Lemma bit_zero (k : nat) : bit 0 k = 0.
Proof. unfold bit. simpl. rewrite Z.testbit_0_l. reflexivity. Qed.

Lemma bit_ones (n k : nat) :
  (k < n)%nat -> bit (Z.to_nat (2 ^ Z.of_nat n) - 1) k = 1.
Proof.
  intros H. unfold bit.
  assert (P : 0 < 2 ^ Z.of_nat n) by (apply Z.pow_pos_nonneg; lia).
  replace (Z.of_nat (Z.to_nat (2 ^ Z.of_nat n) - 1)) with (Z.ones (Z.of_nat n)).
  - rewrite Z.ones_spec_low by lia. reflexivity.
  - rewrite Z.ones_equiv. lia.
Qed.

Lemma bits_determine (n a b : nat) :
  Z.of_nat a < 2 ^ Z.of_nat n -> Z.of_nat b < 2 ^ Z.of_nat n ->
  (forall k, (k < n)%nat -> bit a k = bit b k) -> a = b.
Proof.
  intros Ha Hb H. apply Nat2Z.inj. apply Z.bits_inj'. intros k Hk.
  destruct (Z_lt_le_dec k (Z.of_nat n)) as [L|L].
  - specialize (H (Z.to_nat k) ltac:(lia)). unfold bit in H.
    rewrite Z2Nat.id in H by lia.
    destruct (Z.testbit (Z.of_nat a) k), (Z.testbit (Z.of_nat b) k);
      simpl in H; congruence.
  - rewrite <- (Z.mod_small (Z.of_nat a) (2 ^ Z.of_nat n)) by lia.
    rewrite <- (Z.mod_small (Z.of_nat b) (2 ^ Z.of_nat n)) by lia.
    rewrite !Z.mod_pow2_bits_high by lia. reflexivity.
Qed.

Lemma NoDup_map_on {A B} (f : A -> B) (l : list A) :
  NoDup l ->
  (forall x y, In x l -> In y l -> f x = f y -> x = y) ->
  NoDup (map f l).
Proof.
  induction 1 as [|a l Ha Hnd IH]; intros Hinj; simpl; constructor.
  - intros H. apply in_map_iff in H. destruct H as (y & E & Hy).
    apply Ha. rewrite (Hinj a y); auto; [left; reflexivity | right; exact Hy].
  - apply IH. intros x y Hx Hy. apply Hinj; right; assumption.
Qed.

Lemma nth_error_map_seq {A} (f : nat -> A) (n : nat) :
  forall a k, (k < n)%nat -> nth_error (map f (seq a n)) k = Some (f (a + k)%nat).
Proof.
  induction n as [|n IH]; intros a k Hk; [lia|].
  destruct k as [|k]; simpl.
  - rewrite Nat.add_0_r. reflexivity.
  - rewrite IH by lia. f_equal. f_equal. lia.
Qed.

Lemma row_cells_injective (h : host) (vars : list ascii) (a b : nat) :
  NoDup vars ->
  Z.of_nat a < 2 ^ Z.of_nat (List.length vars) ->
  Z.of_nat b < 2 ^ Z.of_nat (List.length vars) ->
  row_cells h vars (Z.of_nat a) = row_cells h vars (Z.of_nat b) -> a = b.
Proof.
  intros Hnd Ha Hb E. rewrite !row_cells_bits in E by exact Hnd.
  apply (bits_determine (List.length vars)); auto.
  intros k Hk.
  pose proof (f_equal (fun l => nth_error l (List.length vars - 1 - k)) E) as F.
  simpl in F.
  rewrite !nth_error_map_seq in F by lia.
  simpl in F.
  replace (List.length vars - 1 - (List.length vars - 1 - k))%nat with k in F by lia.
  congruence.
Qed.

(** ** The scan yields the Variable Set *)

Lemma isalpha_letters (c : ascii) : isalpha c = true -> In c letters.
Proof.
  intros H.
  assert (E : existsb (Ascii.eqb c) letters = true).
  { revert H. destruct c as [[] [] [] [] [] [] [] []]; vm_compute; intros H;
      try discriminate H; reflexivity. }
  apply existsb_exists in E. destruct E as (x & Hx & E).
  apply Ascii.eqb_eq in E. subst. exact Hx.
Qed.

Lemma room_for_letters (vars : list ascii) :
  NoDup vars -> Forall (fun c => isalpha c = true) vars ->
  (List.length vars <? 100)%nat = true.
Proof.
  intros Hnd Hall. apply Nat.ltb_lt.
  assert (L : (List.length vars <= List.length letters)%nat).
  { apply NoDup_incl_length; [exact Hnd|].
    intros c Hc. apply isalpha_letters.
    rewrite Forall_forall in Hall. apply Hall. exact Hc. }
  change (List.length letters) with 52%nat in L. lia.
Qed.

Lemma filter_both {A} (p q r : A -> bool) (l : list A) :
  (forall x, r x = q x && p x) -> filter r l = filter p (filter q l).
Proof.
  intros H. induction l as [|a l IH]; simpl; [reflexivity|].
  rewrite H. destruct (q a); simpl; [|exact IH].
  destruct (p a); rewrite IH; reflexivity.
Qed.

Lemma NoDup_snoc (vars : list ascii) (ch : ascii) :
  NoDup vars -> ~ In ch vars -> NoDup (vars ++ [ch]).
Proof.
  intros Hnd Hn. apply NoDup_rev in Hnd.
  rewrite <- (rev_involutive (vars ++ [ch])). apply NoDup_rev.
  rewrite rev_app_distr. simpl. constructor; [|exact Hnd].
  rewrite <- in_rev. exact Hn.
Qed.

Lemma scan_variables_spec (p : string) :
  forall vars,
    NoDup vars -> Forall (fun c => isalpha c = true) vars ->
    scan_variables p vars
    = (vars ++ filter (fun x => negb (already_present x vars)) (variable_set p))%list.
Proof.
  unfold variable_set.
  induction p as [|ch p IH]; intros vars Hnd Hall; simpl.
  { rewrite app_nil_r. reflexivity. }
  destruct (nonzero ch); simpl; [|rewrite app_nil_r; reflexivity].
  destruct (isalpha ch) eqn:Ea; simpl; [|apply IH; assumption].
  destruct (already_present ch vars) eqn:Ep; simpl.
  - rewrite IH by assumption. f_equal.
    rewrite <- (filter_both (fun x => negb (already_present x vars))
                  (fun x => negb (Ascii.eqb x ch))
                  (fun x => negb (already_present x vars))); [reflexivity|].
    intros x. destruct (Ascii.eqb x ch) eqn:E; simpl; [|reflexivity].
    apply Ascii.eqb_eq in E. subst x. rewrite Ep. reflexivity.
  - rewrite (room_for_letters vars Hnd Hall).
    assert (Hn : ~ In ch vars).
    { intros H. apply already_present_In in H. congruence. }
    rewrite IH.
    + rewrite <- app_assoc. simpl. do 2 f_equal.
      apply filter_both. intros x. unfold already_present.
      rewrite existsb_app. simpl. rewrite orb_false_r, negb_orb.
      rewrite (Ascii.eqb_sym ch x). apply andb_comm.
    + apply NoDup_snoc; assumption.
    + apply Forall_app. split; [exact Hall|]. constructor; [exact Ea | constructor].
Qed.

(** The variables found by the scan are the Variable Set. *)
Lemma variables_first_occurrences (expr : string) :
  variables expr = variable_set expr.
Proof.
  unfold variables. rewrite scan_variables_spec; try constructor.
  simpl. induction (variable_set expr) as [|c l IH]; simpl; [reflexivity|].
  rewrite IH at 1. reflexivity.
Qed.

(** * Further lemmas on the parser *)

(** ** Sentences without a middle dot *)

Lemma c_or_b2z (x y : bool) : c_or (Z.b2z x) (Z.b2z y) = Z.b2z (x || y).
Proof. destruct x, y; reflexivity. Qed.

Lemma c_not_b2z (x : bool) : c_not (Z.b2z x) = Z.b2z (negb x).
Proof. destruct x; reflexivity. Qed.

Lemma reading_tree (a : ascii -> bool) :
  (forall f, and_free_factor f = true ->
     read_factor (mapping_of a) f
     = mkReading (Z.b2z (evaluate (tree_factor f) a)) false []) /\
  (forall t, and_free_term t = true ->
     read_term (mapping_of a) t
     = mkReading (Z.b2z (evaluate (tree_term t) a)) false []) /\
  (forall tl : term_tail, True) /\
  (forall e, and_free_expression e = true ->
     read_expression (mapping_of a) e
     = mkReading (Z.b2z (evaluate (tree_expression e) a)) false []) /\
  (forall tl acc, and_free_expr_tail tl = true ->
     read_expr_tail (mapping_of a) (Z.b2z (evaluate acc a)) tl
     = mkReading (Z.b2z (evaluate (tree_expr_tail acc tl) a)) false []).
Proof.
  apply grammar_ind; simpl.
  - intros w f IH H. rewrite IH by exact H. simpl. rewrite c_not_b2z. reflexivity.
  - intros w1 e IH w2 H. rewrite IH by exact H. reflexivity.
  - intros b _. destruct b; reflexivity.
  - intros c _. reflexivity.
  - intros f IH tl _ H. apply andb_prop in H. destruct H as [Hf Htl].
    rewrite IH by exact Hf. simpl.
    destruct tl; [reflexivity | discriminate Htl].
  - exact I.
  - intros. exact I.
  - intros t IHt tl IHtl H. apply andb_prop in H. destruct H as [Ht Htl].
    rewrite IHt by exact Ht. simpl. rewrite (IHtl (tree_term t)) by exact Htl.
    reflexivity.
  - intros acc _. reflexivity.
  - intros w1 w2 t IHt tl IHtl acc H. apply andb_prop in H. destruct H as [Ht Htl].
    rewrite IHt by exact Ht. simpl. rewrite c_or_b2z.
    change (Z.b2z (evaluate acc a || evaluate (tree_term t) a))
      with (Z.b2z (evaluate (Or acc (tree_term t)) a)).
    rewrite (IHtl (Or acc (tree_term t))) by exact Htl. reflexivity.
Qed.

Lemma and_free_not_halted (g : mapping) :
  (forall f, and_free_factor f = true ->
     halted (read_factor g f) = false /\ messages (read_factor g f) = []) /\
  (forall t, and_free_term t = true ->
     halted (read_term g t) = false /\ messages (read_term g t) = []) /\
  (forall tl : term_tail, True) /\
  (forall e, and_free_expression e = true ->
     halted (read_expression g e) = false /\ messages (read_expression g e) = []) /\
  (forall tl v, and_free_expr_tail tl = true ->
     halted (read_expr_tail g v tl) = false /\ messages (read_expr_tail g v tl) = []).
Proof.
  apply grammar_ind; simpl.
  - intros w f IH H. apply IH. exact H.
  - intros w1 e IH w2 H. destruct (IH H) as [Hh Hm]. rewrite Hh. simpl. auto.
  - intros b _. auto.
  - intros c _. auto.
  - intros f IH tl _ H. apply andb_prop in H. destruct H as [Hf Htl].
    destruct (IH Hf) as [Hh Hm]. rewrite Hh.
    destruct tl; [auto | discriminate Htl].
  - exact I.
  - intros. exact I.
  - intros t IHt tl IHtl H. apply andb_prop in H. destruct H as [Ht Htl].
    destruct (IHt Ht) as [Hh Hm]. rewrite Hh. simpl.
    destruct (IHtl (value (read_term g t)) Htl) as [Hh' Hm'].
    rewrite Hm, Hm'. auto.
  - intros v _. auto.
  - intros w1 w2 t IHt tl IHtl v H. apply andb_prop in H. destruct H as [Ht Htl].
    destruct (IHt Ht) as [Hh Hm]. rewrite Hh. simpl.
    destruct (IHtl (c_or v (value (read_term g t))) Htl) as [Hh' Hm'].
    rewrite Hm, Hm'. auto.
Qed.

(** ** The letters an evaluation looks up *)

Section AlikeProofs.

Variables m1 m2 : mapping.

Lemma alike_bind {A} (ma : P A) (k : A -> P Z) q1 q2 p e :
  match ma p (mkState m1 e), ma p (mkState m2 e) with
  | Ok (a1, p1, s1), Ok (a2, p2, s2) =>
      a1 = a2 /\ p1 = p2 /\ stderr s1 = stderr s2 /\
      g_var_mapping s1 = m1 /\ g_var_mapping s2 = m2 /\ agree_at m1 m2 p1
  | Fault f1, Fault f2 => f1 = f2
  | _, _ => False
  end ->
  (forall a p' e', agree_at m1 m2 p' ->
     alike m1 m2 (k a p' (mkState m1 e')) (k a p' (mkState m2 e'))) ->
  q1 = bind ma k p (mkState m1 e) -> q2 = bind ma k p (mkState m2 e) ->
  alike m1 m2 q1 q2.
Proof.
  intros H K -> ->. unfold bind.
  destruct (ma p (mkState m1 e)) as [[[a1 p1] s1]|f1],
           (ma p (mkState m2 e)) as [[[a2 p2] s2]|f2];
    try contradiction; [|exact H].
  destruct H as (-> & -> & He & Hg1 & Hg2 & Ha).
  destruct s1 as [g1 e1], s2 as [g2 e2]. simpl in *. subst.
  apply K. exact Ha.
Qed.

Lemma c_chars_skip_ws (s : string) (c : ascii) :
  In c (c_chars (skip_ws s)) -> In c (c_chars s).
Proof.
  induction s as [|x r IH]; simpl; [auto|].
  destruct (nonzero x) eqn:Hz; simpl.
  - destruct (isspace x); simpl.
    + intros H. right. apply IH. exact H.
    + rewrite Hz. auto.
  - rewrite Hz. auto.
Qed.

Lemma agree_skip (s : string) :
  agree_at m1 m2 (At s) -> agree_at m1 m2 (At (skip_ws s)).
Proof.
  intros H c Hc Hin. apply H; [exact Hc|]. simpl in *.
  apply c_chars_skip_ws. exact Hin.
Qed.

Lemma agree_incr (p : cursor) : agree_at m1 m2 p -> agree_at m1 m2 (incr p).
Proof.
  intros H c Hc Hin. apply H; [exact Hc|].
  destruct p as [[|x r]|]; simpl in *; try contradiction.
  destruct (nonzero x); simpl in *; [right; exact Hin | contradiction].
Qed.

Lemma agree_head (p : cursor) (c : ascii) :
  agree_at m1 m2 p -> deref p = Some c -> isalpha c = true -> m1 c = m2 c.
Proof.
  intros H D Hc. apply H; [exact Hc|].
  destruct p as [[|x r]|]; simpl in *; inversion D; subst.
  - discriminate Hc.
  - destruct (letter_facts c Hc) as (Hz & _). rewrite Hz. left. reflexivity.
Qed.

Lemma alike_ret (v : Z) p e :
  agree_at m1 m2 p ->
  alike m1 m2 (ret v p (mkState m1 e)) (ret v p (mkState m2 e)).
Proof. intros H. simpl. auto 10. Qed.

Lemma alike_skip (k : P Z) p e :
  agree_at m1 m2 p ->
  (forall p' e', agree_at m1 m2 p' ->
     alike m1 m2 (k p' (mkState m1 e')) (k p' (mkState m2 e'))) ->
  alike m1 m2 (bind skip_whitespace (fun _ => k) p (mkState m1 e))
              (bind skip_whitespace (fun _ => k) p (mkState m2 e)).
Proof.
  intros H K. destruct p as [s|]; [|reflexivity].
  unfold bind. simpl. apply K. apply agree_skip. exact H.
Qed.

Lemma alike_advance (k : P Z) p e :
  agree_at m1 m2 p ->
  (forall p' e', agree_at m1 m2 p' ->
     alike m1 m2 (k p' (mkState m1 e')) (k p' (mkState m2 e'))) ->
  alike m1 m2 (bind advance (fun _ => k) p (mkState m1 e))
              (bind advance (fun _ => k) p (mkState m2 e)).
Proof.
  intros H K. unfold bind, advance. apply K. apply agree_incr. exact H.
Qed.

Lemma alike_unrecognized h (k : P Z) p e :
  agree_at m1 m2 p ->
  (forall p' e', agree_at m1 m2 p' ->
     alike m1 m2 (k p' (mkState m1 e')) (k p' (mkState m2 e'))) ->
  alike m1 m2 (bind (unrecognized h) (fun _ => k) p (mkState m1 e))
              (bind (unrecognized h) (fun _ => k) p (mkState m2 e)).
Proof.
  intros H K. destruct h.
  - apply alike_advance; assumption.
  - unfold bind. simpl. apply K. exact H.
Qed.

Lemma alike_peek (k : ascii -> P Z) p e :
  (forall c, deref p = Some c ->
     alike m1 m2 (k c p (mkState m1 e)) (k c p (mkState m2 e))) ->
  alike m1 m2 (bind peek k p (mkState m1 e)) (bind peek k p (mkState m2 e)).
Proof.
  intros K. unfold bind, peek. destruct (deref p) as [c|]; [|reflexivity].
  apply K. reflexivity.
Qed.

Lemma alike_call (f : P Z) (k : Z -> P Z) p e :
  alike m1 m2 (f p (mkState m1 e)) (f p (mkState m2 e)) ->
  (forall a p' e', agree_at m1 m2 p' ->
     alike m1 m2 (k a p' (mkState m1 e')) (k a p' (mkState m2 e'))) ->
  alike m1 m2 (bind f k p (mkState m1 e)) (bind f k p (mkState m2 e)).
Proof.
  intros H K. eapply alike_bind; [exact H | exact K | reflexivity | reflexivity].
Qed.

Lemma parser_alike (h : host) (fuel : nat) :
  (forall p e, agree_at m1 m2 p ->
     alike m1 m2 (parse_expression h fuel p (mkState m1 e))
                 (parse_expression h fuel p (mkState m2 e))) /\
  (forall v p e, agree_at m1 m2 p ->
     alike m1 m2 (parse_expression_loop h fuel v p (mkState m1 e))
                 (parse_expression_loop h fuel v p (mkState m2 e))) /\
  (forall p e, agree_at m1 m2 p ->
     alike m1 m2 (parse_term h fuel p (mkState m1 e))
                 (parse_term h fuel p (mkState m2 e))) /\
  (forall v p e, agree_at m1 m2 p ->
     alike m1 m2 (parse_term_loop h fuel v p (mkState m1 e))
                 (parse_term_loop h fuel v p (mkState m2 e))) /\
  (forall p e, agree_at m1 m2 p ->
     alike m1 m2 (parse_factor h fuel p (mkState m1 e))
                 (parse_factor h fuel p (mkState m2 e))).
Proof.
  induction fuel as [|f (IHe & IHel & IHt & IHtl & IHf)].
  { repeat split; intros; reflexivity. }
  repeat split; intros.
  - rewrite parse_expression_S.
    apply alike_call; [apply IHt; assumption|]. intros a p1 e1 A1.
    apply alike_skip; [exact A1|]. intros p2 e2 A2. apply IHel. exact A2.
  - rewrite parse_expression_loop_S.
    apply alike_peek. intros c _.
    destruct (Ascii.eqb c "+"); [|apply alike_ret; assumption].
    apply alike_advance; [assumption|]. intros p1 e1 A1.
    apply alike_skip; [exact A1|]. intros p2 e2 A2.
    apply alike_call; [apply IHt; assumption|]. intros a p3 e3 A3.
    apply alike_skip; [exact A3|]. intros p4 e4 A4. apply IHel. exact A4.
  - rewrite parse_term_S.
    apply alike_call; [apply IHf; assumption|]. intros a p1 e1 A1.
    apply alike_skip; [exact A1|]. intros p2 e2 A2. apply IHtl. exact A2.
  - rewrite parse_term_loop_S.
    apply alike_peek. intros c _.
    destruct (is_middle_dot c); [|apply alike_ret; assumption].
    apply alike_advance; [assumption|]. intros p1 e1 A1.
    apply alike_skip; [exact A1|]. intros p2 e2 A2.
    apply alike_call; [apply IHf; assumption|]. intros a p3 e3 A3.
    apply alike_skip; [exact A3|]. intros p4 e4 A4. apply IHtl. exact A4.
  - rewrite parse_factor_S.
    apply alike_skip; [assumption|]. intros p1 e1 A1.
    apply alike_peek. intros c D.
    destruct (Ascii.eqb c "!").
    { apply alike_advance; [exact A1|]. intros p2 e2 A2.
      apply alike_call; [apply IHf; assumption|]. intros a p3 e3 A3.
      apply alike_ret. exact A3. }
    destruct (Ascii.eqb c "(").
    { apply alike_advance; [exact A1|]. intros p2 e2 A2.
      apply alike_call; [apply IHe; assumption|]. intros a p3 e3 A3.
      apply alike_skip; [exact A3|]. intros p4 e4 A4.
      apply alike_peek. intros c' _.
      destruct (Ascii.eqb c' ")").
      - apply alike_advance; [exact A4|]. intros p5 e5 A5.
        apply alike_ret. exact A5.
      - unfold bind, eprint, ret. simpl. auto 10. }
    destruct (isdigit c).
    { apply alike_advance; [exact A1|]. intros p2 e2 A2.
      apply alike_ret. exact A2. }
    destruct (isalpha c) eqn:Hc.
    { unfold bind, advance, lookup_var. simpl.
      pose proof (agree_head p1 c A1 D Hc) as E.
      pose proof (agree_incr p1 A1) as A2. auto 10. }
    apply alike_unrecognized; [exact A1|]. intros p2 e2 A2.
    apply alike_ret. exact A2.
Qed.

End AlikeProofs.

Lemma first_occurrences_In (l : list ascii) (x : ascii) :
  In x l -> In x (first_occurrences l).
Proof.
  induction l as [|c l IH]; simpl; [auto|].
  intros [H | H]; [left; exact H|].
  destruct (Ascii.eqb_spec x c) as [E|N]; [left; symmetry; exact E|].
  right. apply filter_In. split; [apply IH; exact H|].
  apply Ascii.eqb_neq in N. rewrite N. reflexivity.
Qed.

Lemma variables_In (expr : string) (c : ascii) :
  isalpha c = true -> In c (c_chars expr) -> In c (variables expr).
Proof.
  intros Hc Hin. rewrite variables_first_occurrences. unfold variable_set.
  apply first_occurrences_In. apply filter_In. split; assumption.
Qed.

Lemma run_parser_depends (h : host) (expr : string) (m1 m2 : mapping) (e : list string) :
  (forall c, In c (variables expr) -> m1 c = m2 c) ->
  value_of (run_parser h expr (mkState m1 e))
  = value_of (run_parser h expr (mkState m2 e)).
Proof.
  intros H. unfold run_parser.
  destruct (parser_alike m1 m2 h (fuel_for expr)) as (He & _).
  specialize (He (At expr) e).
  assert (A : agree_at m1 m2 (At expr)).
  { intros c Hc Hin. apply H. apply variables_In; assumption. }
  specialize (He A).
  destruct (parse_expression h (fuel_for expr) (At expr) (mkState m1 e))
    as [[[v1 p1] s1]|f1],
           (parse_expression h (fuel_for expr) (At expr) (mkState m2 e))
    as [[[v2 p2] s2]|f2]; simpl in He; try contradiction.
  - destruct He as (-> & _). reflexivity.
  - subst. reflexivity.
Qed.


(** ** What a reading reports *)

Lemma repeat_snoc {A} (x : A) (n : nat) : (repeat x n ++ [x])%list = repeat x (S n).
Proof. symmetry. apply repeat_cons. Qed.

(** Every line of a reading is the line about a missing parenthesis. *)
Lemma reading_lines (g : mapping) :
  (forall f, exists k, messages (read_factor g f) = repeat MISSING_PAREN k) /\
  (forall t, exists k, messages (read_term g t) = repeat MISSING_PAREN k) /\
  (forall tl : term_tail, True) /\
  (forall e, exists k, messages (read_expression g e) = repeat MISSING_PAREN k) /\
  (forall tl v, exists k, messages (read_expr_tail g v tl) = repeat MISSING_PAREN k).
Proof.
  apply grammar_ind.
  - intros w f [k IH]. exists k. exact IH.
  - intros w1 e [k IH] w2. cbn [read_factor].
    destruct (halted (read_expression g e)).
    + exists (S k). cbn [messages]. rewrite IH. apply repeat_snoc.
    + exists k. exact IH.
  - intros b. exists 0%nat. reflexivity.
  - intros c. exists 0%nat. reflexivity.
  - intros f [k IH] tl _. exists k. exact IH.
  - exact I.
  - intros. exact I.
  - intros t [k IH] tl IHtl. cbn [read_expression].
    destruct (halted (read_term g t)).
    + exists k. exact IH.
    + destruct (IHtl (value (read_term g t))) as [k' IH'].
      exists (k + k')%nat. cbn [messages]. rewrite IH, IH'.
      symmetry. apply repeat_app.
  - intros v. exists 0%nat. reflexivity.
  - intros w1 w2 t [k IH] tl IHtl v. cbn [read_expr_tail].
    destruct (halted (read_term g t)).
    + exists k. exact IH.
    + destruct (IHtl (c_or v (value (read_term g t)))) as [k' IH'].
      exists (k + k')%nat. cbn [messages]. rewrite IH, IH'.
      symmetry. apply repeat_app.
Qed.

(** A reading that was not halted reports nothing. *)
Lemma quiet_unless_halted (g : mapping) :
  (forall f, halted (read_factor g f) = false -> messages (read_factor g f) = []) /\
  (forall t, halted (read_term g t) = false -> messages (read_term g t) = []) /\
  (forall tl : term_tail, True) /\
  (forall e, halted (read_expression g e) = false ->
             messages (read_expression g e) = []) /\
  (forall tl v, halted (read_expr_tail g v tl) = false ->
                messages (read_expr_tail g v tl) = []).
Proof.
  apply grammar_ind.
  - intros w f IH H. apply IH. exact H.
  - intros w1 e IH w2. cbn [read_factor].
    destruct (halted (read_expression g e)) eqn:Hh; cbn [halted messages].
    + discriminate.
    + intros _. apply IH. reflexivity.
  - reflexivity.
  - reflexivity.
  - intros f IH tl _. cbn [read_term halted messages]. intros H.
    apply orb_false_elim in H. apply IH. apply H.
  - exact I.
  - intros. exact I.
  - intros t IHt tl IHtl. cbn [read_expression].
    destruct (halted (read_term g t)) eqn:Hh.
    + intros H. rewrite Hh in H. discriminate H.
    + cbn [halted messages]. intros H.
      rewrite (IHt eq_refl), (IHtl _ H). reflexivity.
  - reflexivity.
  - intros w1 w2 t IHt tl IHtl v. cbn [read_expr_tail].
    destruct (halted (read_term g t)) eqn:Hh; cbn [halted messages].
    + discriminate.
    + intros H. rewrite (IHt eq_refl), (IHtl _ H). reflexivity.
Qed.

(** ** Parentheses left open at the end of the input *)

Lemma final_skip_ws (rest : string) : final rest = true -> skip_ws rest = rest.
Proof.
  destruct rest as [|c r]; [reflexivity|]. simpl. intros H.
  apply Ascii.eqb_eq in H. subst c. reflexivity.
Qed.

Lemma final_stands (r : reading) (w rest : string) :
  all_space w = true -> stands r (skip_ws w) rest -> final rest = true.
Proof.
  intros Hw. unfold stands. rewrite skip_ws_all_space by exact Hw.
  destruct (halted r).
  - intros (tl & ->). reflexivity.
  - intros ->. reflexivity.
Qed.

Lemma term_rest_final h fuel v rest st :
  final rest = true ->
  (skip_whitespace ;;; parse_term_loop h fuel v) (At rest) st = Fault OutOfFuel \/
  (skip_whitespace ;;; parse_term_loop h fuel v) (At rest) st = Ok (v, At rest, st).
Proof.
  intros H. unfold bind. cbn [skip_whitespace]. rewrite final_skip_ws by exact H.
  apply term_loop_returns.
Qed.

Lemma expression_rest_final h fuel v rest st :
  final rest = true ->
  (skip_whitespace ;;; parse_expression_loop h fuel v) (At rest) st = Fault OutOfFuel \/
  (skip_whitespace ;;; parse_expression_loop h fuel v) (At rest) st = Ok (v, At rest, st).
Proof.
  intros H. unfold bind. cbn [skip_whitespace]. rewrite final_skip_ws by exact H.
  destruct fuel; [left; reflexivity | right].
  rewrite parse_expression_loop_S. unfold bind, peek.
  destruct rest as [|c r]; [reflexivity|].
  simpl in H. apply Ascii.eqb_eq in H. subst c. reflexivity.
Qed.

Lemma skip_ws_open :
  (forall f, wf_open_factor f = true ->
     skip_ws (render_open_factor f) = render_open_factor f) /\
  (forall e, wf_open_expression e = true ->
     skip_ws (render_open_expression e) = render_open_expression e) /\
  (forall ts, wf_open_terms ts = true ->
     skip_ws (render_open_terms ts) = render_open_terms ts).
Proof.
  apply open_ind.
  - reflexivity.
  - reflexivity.
  - intros e w H. simpl in H. apply andb_prop in H.
    apply skip_ws_expression. apply H.
  - intros ts IH H. apply IH. exact H.
  - intros f IH H. apply IH. exact H.
  - intros t w1 w2 ts _ H. simpl in H.
    repeat (apply andb_prop in H; destruct H as [H ?]).
    apply skip_ws_term. exact H.
Qed.

Lemma ends_same o st (r1 r2 : reading) u :
  value r1 = value r2 -> halted r1 = halted r2 -> messages r1 = messages r2 ->
  ends o st r2 u -> ends o st r1 u.
Proof.
  intros Hv Hh Hm [E | (rest & n & E & Hf & Hn)]; [left; exact E | right].
  exists rest, n. rewrite Hv, Hh, Hm. auto.
Qed.

Lemma term_on_final h fuel s st v rest st' :
  parse_factor h fuel (At s) st = Ok (v, At rest, st') -> final rest = true ->
  parse_term h (S fuel) (At s) st = Fault OutOfFuel \/
  parse_term h (S fuel) (At s) st = Ok (v, At rest, st').
Proof.
  intros E Hf.
  assert (X : parse_term h (S fuel) (At s) st
              = (skip_whitespace ;;; parse_term_loop h fuel v) (At rest) st').
  { rewrite parse_term_S. unfold bind at 1. rewrite E. reflexivity. }
  rewrite X. apply term_rest_final. exact Hf.
Qed.

Lemma expression_on_final h fuel s st v rest st' :
  parse_term h fuel (At s) st = Ok (v, At rest, st') -> final rest = true ->
  parse_expression h (S fuel) (At s) st = Fault OutOfFuel \/
  parse_expression h (S fuel) (At s) st = Ok (v, At rest, st').
Proof.
  intros E Hf.
  assert (X : parse_expression h (S fuel) (At s) st
              = (skip_whitespace ;;; parse_expression_loop h fuel v) (At rest) st').
  { rewrite parse_expression_S. unfold bind at 1. rewrite E. reflexivity. }
  rewrite X. apply expression_rest_final. exact Hf.
Qed.

Lemma loop_step h fuel v x st :
  parse_expression_loop h (S fuel) v (At (String "+" x)) st
  = (term_value <- parse_term h fuel ;;
     skip_whitespace ;;;
     parse_expression_loop h fuel (c_or v term_value)) (At (skip_ws x)) st.
Proof. reflexivity. Qed.

Lemma loop_on_final h fuel v x st vt rest st' :
  parse_term h fuel (At (skip_ws x)) st = Ok (vt, At rest, st') ->
  final rest = true ->
  parse_expression_loop h (S fuel) v (At (String "+" x)) st = Fault OutOfFuel \/
  parse_expression_loop h (S fuel) v (At (String "+" x)) st
  = Ok (c_or v vt, At rest, st').
Proof.
  intros E Hf.
  assert (X : parse_expression_loop h (S fuel) v (At (String "+" x)) st
              = (skip_whitespace ;;; parse_expression_loop h fuel (c_or v vt))
                  (At rest) st').
  { rewrite loop_step. unfold bind at 1. rewrite E. reflexivity. }
  rewrite X. apply expression_rest_final. exact Hf.
Qed.

(** A term without middle dot is read in silence, up to what follows. *)
Lemma quiet_term h t fuel s k st :
  wf_term t = true -> and_free_term t = true ->
  skip_ws s = render_term t ++ k ->
  parse_term h fuel (At s) st = Fault OutOfFuel \/
  parse_term h fuel (At s) st
  = Ok (value (read_term (g_var_mapping st) t), At (skip_ws k), st).
Proof.
  intros Hwf Hfree Hs.
  destruct (conformance h) as (_ & Ht & _).
  destruct (and_free_not_halted (g_var_mapping st)) as (_ & Hq & _).
  destruct (Hq t Hfree) as [Hh Hm].
  destruct (Ht t Hwf fuel s k st Hs) as [E | (rest & E & Hst)];
    [left; exact E | right].
  unfold stands in Hst. rewrite Hh in Hst. subst rest.
  rewrite E, Hm, app_nil_r. destruct st; reflexivity.
Qed.

Section OpenConformance.

Variable h : host.

Lemma open_not_ok w f : open_factor_ok h f -> open_factor_ok h (ONot w f).
Proof.
  intros IH Hwf fuel s st Hs. simpl in Hwf.
  apply andb_prop in Hwf. destruct Hwf as [Hw Hf].
  destruct fuel; [left; reflexivity|].
  simpl. unfold bind at 1. simpl. rewrite Hs. simpl.
  unfold bind at 1. simpl. unfold bind at 1. simpl.
  destruct (IH Hf fuel (w ++ render_open_factor f) st)
    as [E | (rest & n & E & Hfin & Hn)].
  { rewrite skip_ws_space by exact Hw. apply (proj1 skip_ws_open). exact Hf. }
  - left. unfold bind. rewrite E. reflexivity.
  - right. exists rest, n. unfold bind. rewrite E. unfold ret.
    cbn [value halted messages]. auto.
Qed.

Lemma open_paren_ok w e : open_expression_ok h e -> open_factor_ok h (OParen w e).
Proof.
  intros IH Hwf fuel s st Hs. simpl in Hwf.
  apply andb_prop in Hwf. destruct Hwf as [Hw He].
  destruct fuel; [left; reflexivity|].
  simpl. unfold bind at 1. simpl. rewrite Hs. simpl.
  unfold bind at 1. simpl. unfold bind at 1. simpl.
  specialize (IH He fuel (w ++ render_open_expression e) st).
  destruct (close_expression e) as [e' w2]. cbn [fst] in IH.
  destruct IH as [E | (rest & n & E & Hfin & Hn)].
  { rewrite skip_ws_space by exact Hw. apply (proj1 (proj2 skip_ws_open)). exact He. }
  - left. unfold bind. rewrite E. reflexivity.
  - apply (ends_same _ _ _
             (mkReading (value (read_expression (g_var_mapping st) e'))
                        (halted (read_expression (g_var_mapping st) e'))
                        (if halted (read_expression (g_var_mapping st) e')
                         then (messages (read_expression (g_var_mapping st) e')
                               ++ [MISSING_PAREN])%list
                         else messages (read_expression (g_var_mapping st) e'))));
      cbn [read_factor];
      try (destruct (halted (read_expression (g_var_mapping st) e')); reflexivity).
    right. exists rest, (S n). cbn [value halted messages].
    assert (Hp : Ascii.eqb (next_byte rest) ")" = false).
    { destruct rest as [|c r]; [reflexivity|]. simpl in Hfin.
      apply Ascii.eqb_eq in Hfin. subst c. reflexivity. }
    split.
    + unfold bind at 1. rewrite E.
      unfold bind at 1. cbn [skip_whitespace]. rewrite final_skip_ws by exact Hfin.
      rewrite <- repeat_snoc, app_assoc.
      unfold bind, peek, eprint, ret.
      destruct rest as [|c r]; simpl in Hp |- *; rewrite ?Hp; reflexivity.
    + split; [exact Hfin|].
      destruct (halted (read_expression (g_var_mapping st) e')) eqn:Hh.
      * destruct Hn as [Hm Hu]. rewrite Hm, repeat_snoc. split; [reflexivity | lia].
      * destruct Hn as [Hu Hm]. subst n. auto.
Qed.

Lemma open_whole_ok e w : open_expression_ok h (OWhole e w).
Proof.
  intros Hwf fuel s st Hs. simpl in Hwf.
  apply andb_prop in Hwf. destruct Hwf as [He Hw].
  destruct (conformance h) as (_ & _ & _ & Hc & _).
  cbn [close_expression fst unclosed_expression].
  destruct (Hc e He fuel s w st (closing_space _ Hw) Hs)
    as [E | (rest & E & Hst)]; [left; exact E | right].
  pose proof (final_stands _ _ _ Hw Hst) as Hfin.
  destruct (halted (read_expression (g_var_mapping st) e)) eqn:Hh.
  - destruct (reading_lines (g_var_mapping st)) as (_ & _ & _ & Hl & _).
    destruct (Hl e) as [k Hk].
    exists rest, k. rewrite E, Hk. repeat split; [exact Hfin | lia].
  - destruct (quiet_unless_halted (g_var_mapping st)) as (_ & _ & _ & Hq & _).
    exists rest, 0%nat. rewrite E, (Hq e Hh). repeat split. exact Hfin.
Qed.

Lemma open_last_ok f : open_factor_ok h f -> open_terms_ok h (OLast f).
Proof.
  intros IH Hwf. simpl in Hwf. split.
  - intros fuel s st Hs.
    destruct fuel as [|[|fuel]]; [left; reflexivity | left; reflexivity |].
    apply (ends_same _ _ _ (read_factor (g_var_mapping st) (close_factor f)));
      cbn [close_terms read_expression read_term read_expr_tail has_and
           value halted messages].
    + rewrite orb_false_r.
      destruct (halted (read_factor (g_var_mapping st) (close_factor f)));
        reflexivity.
    + rewrite orb_false_r.
      destruct (halted (read_factor (g_var_mapping st) (close_factor f)));
        reflexivity.
    + rewrite orb_false_r.
      destruct (halted (read_factor (g_var_mapping st) (close_factor f)));
        cbn [messages]; [reflexivity | apply app_nil_r].
    + destruct (IH Hwf fuel s st Hs) as [E | (rest & n & E & Hfin & Hn)].
      * left. rewrite parse_expression_S, parse_term_S.
        unfold bind. rewrite E. reflexivity.
      * destruct (term_on_final h fuel s st _ _ _ E Hfin) as [T | T].
        { left. rewrite parse_expression_S. unfold bind. rewrite T. reflexivity. }
        destruct (expression_on_final h (S fuel) s st _ _ _ T Hfin) as [X | X];
          [left; exact X | right].
        exists rest, n. auto.
  - intros w1 w2 fuel v st Hw2.
    destruct fuel as [|[|fuel]]; [left; reflexivity | left; reflexivity |].
    assert (Hs : skip_ws (w2 ++ render_open_factor f) = render_open_factor f).
    { rewrite skip_ws_space by exact Hw2. apply (proj1 skip_ws_open). exact Hwf. }
    cbn [render_open_terms close_tail unclosed_terms].
    apply (ends_same _ _ _
             (mkReading (c_or v (value (read_factor (g_var_mapping st) (close_factor f))))
                        (halted (read_factor (g_var_mapping st) (close_factor f)))
                        (messages (read_factor (g_var_mapping st) (close_factor f)))));
      cbn [read_expr_tail read_term has_and value halted messages].
    + rewrite orb_false_r.
      destruct (halted (read_factor (g_var_mapping st) (close_factor f)));
        reflexivity.
    + rewrite orb_false_r.
      destruct (halted (read_factor (g_var_mapping st) (close_factor f)));
        reflexivity.
    + rewrite orb_false_r.
      destruct (halted (read_factor (g_var_mapping st) (close_factor f)));
        cbn [messages]; [reflexivity | apply app_nil_r].
    + destruct (IH Hwf fuel (skip_ws (w2 ++ render_open_factor f)) st
                  (eq_trans (skip_ws_idem _) Hs))
        as [E | (rest & n & E & Hfin & Hn)].
      * left. rewrite loop_step, parse_term_S. unfold bind. rewrite E. reflexivity.
      * destruct (term_on_final h fuel _ st _ _ _ E Hfin) as [T | T].
        { left. rewrite loop_step. unfold bind. rewrite T. reflexivity. }
        destruct (loop_on_final h (S fuel) v _ st _ _ _ T Hfin) as [X | X];
          [left; exact X | right].
        exists rest, n. cbn [value halted messages]. auto.
Qed.

Lemma open_then_ok t w1 w2 ts : open_terms_ok h ts -> open_terms_ok h (OThen t w1 w2 ts).
Proof.
  intros IH Hwf. simpl in Hwf.
  apply andb_prop in Hwf. destruct Hwf as [Hwf Hts].
  apply andb_prop in Hwf. destruct Hwf as [Hwf Hw2].
  apply andb_prop in Hwf. destruct Hwf as [Hwf Hw1].
  apply andb_prop in Hwf. destruct Hwf as [Ht Hfree].
  destruct (IH Hts) as [_ IHc].
  assert (Hk : skip_ws (w1 ++ "+" ++ w2 ++ render_open_terms ts)
               = String "+" (w2 ++ render_open_terms ts)).
  { rewrite skip_ws_space by exact Hw1. reflexivity. }
  split.
  - intros fuel s st Hs. cbn [render_open_terms] in Hs.
    destruct fuel; [left; reflexivity|].
    destruct (and_free_not_halted (g_var_mapping st)) as (_ & Hq & _).
    destruct (Hq t Hfree) as [Hh Hm].
    apply (ends_same _ _ _
             (read_expr_tail (g_var_mapping st)
                (value (read_term (g_var_mapping st) t)) (close_tail w1 w2 ts)));
      cbn [close_terms read_expression]; rewrite ?Hh; cbn [value halted messages];
      rewrite ?Hm; try reflexivity.
    cbn [unclosed_terms].
    destruct (quiet_term h t fuel s _ st Ht Hfree Hs) as [T | T].
    + left. rewrite parse_expression_S. unfold bind. rewrite T. reflexivity.
    + rewrite Hk in T.
      replace (parse_expression h (S fuel) (At s) st)
        with (parse_expression_loop h fuel (value (read_term (g_var_mapping st) t))
                (At (String "+" (w2 ++ render_open_terms ts))) st).
      * apply IHc. exact Hw2.
      * rewrite parse_expression_S. unfold bind at 1. rewrite T. reflexivity.
  - intros w1' w2' fuel v st Hw2'.
    destruct fuel; [left; reflexivity|].
    destruct (and_free_not_halted (g_var_mapping st)) as (_ & Hq & _).
    destruct (Hq t Hfree) as [Hh Hm].
    apply (ends_same _ _ _
             (read_expr_tail (g_var_mapping st)
                (c_or v (value (read_term (g_var_mapping st) t)))
                (close_tail w1 w2 ts)));
      cbn [close_tail read_expr_tail]; rewrite ?Hh; cbn [value halted messages];
      rewrite ?Hm; try reflexivity.
    cbn [unclosed_terms render_open_terms].
    assert (Hs : skip_ws (skip_ws (w2' ++ render_term t ++ w1 ++ "+" ++ w2
                                     ++ render_open_terms ts))
                 = render_term t ++ w1 ++ "+" ++ w2 ++ render_open_terms ts).
    { rewrite skip_ws_idem, skip_ws_space by exact Hw2'.
      apply skip_ws_term. exact Ht. }
    destruct (quiet_term h t fuel _ _ st Ht Hfree Hs) as [T | T].
    + left. rewrite loop_step. unfold bind. rewrite T. reflexivity.
    + rewrite Hk in T.
      replace (parse_expression_loop h (S fuel) v
                 (At (String "+" (w2' ++ render_term t ++ w1 ++ "+" ++ w2
                                    ++ render_open_terms ts))) st)
        with (parse_expression_loop h fuel
                (c_or v (value (read_term (g_var_mapping st) t)))
                (At (String "+" (w2 ++ render_open_terms ts))) st).
      * apply IHc. exact Hw2.
      * rewrite loop_step. unfold bind at 1. rewrite T. reflexivity.
Qed.

Lemma open_conformance :
  (forall f, open_factor_ok h f) /\ (forall e, open_expression_ok h e) /\
  (forall ts, open_terms_ok h ts).
Proof.
  apply open_ind.
  - intros w f IH. apply open_not_ok. exact IH.
  - intros w e IH. apply open_paren_ok. exact IH.
  - intros e w. apply open_whole_ok.
  - intros ts IH Hwf fuel s st Hs. apply (proj1 (IH Hwf)). exact Hs.
  - intros f IH. apply open_last_ok. exact IH.
  - intros t w1 w2 ts IH. apply open_then_ok. exact IH.
Qed.

End OpenConformance.

Lemma closed_render :
  (forall f, render_factor (close_factor f)
             = render_open_factor f ++ closers (unclosed_factor f)) /\
  (forall e, render_expression (fst (close_expression e)) ++ snd (close_expression e)
             = render_open_expression e ++ closers (unclosed_expression e)) /\
  (forall ts,
     render_expression (close_terms ts)
     = render_open_terms ts ++ closers (unclosed_terms ts) /\
     forall w1 w2,
       render_expr_tail (close_tail w1 w2 ts)
       = w1 ++ "+" ++ w2 ++ render_open_terms ts ++ closers (unclosed_terms ts)).
Proof.
  apply open_ind.
  - intros w f IH. cbn [close_factor render_factor render_open_factor unclosed_factor].
    rewrite IH, !append_assoc. reflexivity.
  - intros w e IH.
    cbn [close_factor render_open_factor unclosed_factor].
    destruct (close_expression e) as [e' w2]. cbn [fst snd] in IH.
    cbn [render_factor closers].
    rewrite !append_assoc.
    change ("(" ++ w ++ render_expression e' ++ w2 ++ ")")
      with (String "(" (w ++ render_expression e' ++ w2 ++ ")")).
    change ("(" ++ w ++ render_open_expression e
              ++ String ")" (closers (unclosed_expression e)))
      with (String "(" (w ++ render_open_expression e
                          ++ String ")" (closers (unclosed_expression e)))).
    f_equal. f_equal.
    rewrite <- append_assoc, IH, append_assoc.
    f_equal. clear.
    induction (unclosed_expression e) as [|n IHn]; [reflexivity|].
    cbn [closers]. simpl. rewrite IHn. reflexivity.
  - intros e w. cbn. rewrite append_nil_r. reflexivity.
  - intros ts [IH _]. cbn. rewrite append_nil_r. exact IH.
  - intros f IH. cbn [close_terms close_tail render_expression render_term
                        render_term_tail render_expr_tail render_open_terms
                        unclosed_terms].
    rewrite !append_nil_r, IH. split; [reflexivity|].
    intros w1 w2. reflexivity.
  - intros t w1 w2 ts [_ IH].
    cbn [close_terms close_tail render_expression render_expr_tail
           render_open_terms unclosed_terms].
    split.
    + rewrite IH, !append_assoc. reflexivity.
    + intros w1' w2'. rewrite IH, !append_assoc. reflexivity.
Qed.

Lemma closed_wf :
  (forall f, wf_open_factor f = true -> wf_factor (close_factor f) = true) /\
  (forall e, wf_open_expression e = true ->
     wf_expression (fst (close_expression e)) = true /\
     all_space (snd (close_expression e)) = true) /\
  (forall ts, wf_open_terms ts = true ->
     wf_expression (close_terms ts) = true /\
     forall w1 w2, all_space w1 = true -> all_space w2 = true ->
                   wf_expr_tail (close_tail w1 w2 ts) = true).
Proof.
  apply open_ind.
  - intros w f IH H. simpl in H. apply andb_prop in H. destruct H as [Hw Hf].
    simpl. rewrite Hw, (IH Hf). reflexivity.
  - intros w e IH H. simpl in H. apply andb_prop in H. destruct H as [Hw He].
    cbn [close_factor]. destruct (close_expression e) as [e' w2].
    destruct (IH He) as [H1 H2]. cbn [fst snd] in H1, H2.
    simpl. rewrite Hw, H1, H2. reflexivity.
  - intros e w H. simpl in H. apply andb_prop in H. exact H.
  - intros ts IH H. split; [apply (IH H) | reflexivity].
  - intros f IH H. simpl in H. simpl. rewrite (IH H). split; [reflexivity|].
    intros w1 w2 H1 H2. rewrite H1, H2. reflexivity.
  - intros t w1 w2 ts IH H. simpl in H.
    apply andb_prop in H. destruct H as [H Hts].
    apply andb_prop in H. destruct H as [H Hw2].
    apply andb_prop in H. destruct H as [H Hw1].
    apply andb_prop in H. destruct H as [Ht Hfree].
    destruct (IH Hts) as [_ IHc].
    cbn [close_terms close_tail wf_expression wf_expr_tail].
    split.
    + rewrite Ht, (IHc w1 w2 Hw1 Hw2). reflexivity.
    + intros w1' w2' H1 H2. rewrite H1, H2, Ht, (IHc w1 w2 Hw1 Hw2). reflexivity.
Qed.

Lemma unclosed_positive :
  (forall f, (1 <= unclosed_factor f)%nat) /\
  (forall e : open_expression, True) /\
  (forall ts, (1 <= unclosed_terms ts)%nat).
Proof.
  apply open_ind; simpl; intros; auto; lia.
Qed.

Lemma closed_sentence (s : open_sentence) :
  wf_open s = true ->
  wf (closed s) = true /\
  render (closed s) = render_open s ++ closers (unclosed s).
Proof.
  intros H. unfold wf_open in H. apply andb_prop in H. destruct H as [Hl Hb].
  split.
  - unfold wf, closed. cbn [lead body trail].
    rewrite Hl, (proj1 (proj2 (proj2 closed_wf) _ Hb)). reflexivity.
  - unfold render, closed, render_open, unclosed. cbn [lead body trail].
    rewrite (proj1 (proj2 (proj2 closed_render) _)).
    rewrite append_nil_r, !append_assoc. reflexivity.
Qed.

(** On an open sentence both hosts return the value of the sentence with
    its parentheses closed. *)
Lemma run_parser_open (h : host) (s : open_sentence) (st : state) :
  wf_open s = true ->
  let r := read_expression (g_var_mapping st) (body (closed s)) in
  exists n,
    run_parser h (render_open s) st
    = Ok (value r,
          mkState (g_var_mapping st) (stderr st ++ repeat MISSING_PAREN n)%list) /\
    (if halted r then messages r = repeat MISSING_PAREN n /\ (unclosed s <= n)%nat
     else n = unclosed s /\ messages r = []).
Proof.
  intros Hwf r. unfold wf_open in Hwf.
  apply andb_prop in Hwf. destruct Hwf as [Hl Hb].
  pose proof (run_parser_terminates h (render_open s) st) as Hterm.
  unfold run_parser in *.
  destruct (open_conformance h) as (_ & _ & Hts).
  destruct (proj1 (Hts (open_body s) Hb) (fuel_for (render_open s))
              (render_open s) st) as [E | (rest & n & E & _ & Hn)].
  - unfold render_open. rewrite skip_ws_space by exact Hl.
    apply (proj2 (proj2 skip_ws_open)). exact Hb.
  - rewrite E in Hterm. contradiction.
  - exists n. rewrite E. split; [reflexivity | exact Hn].
Qed.

(** ** Letters without a value of their own *)

Lemma letter_is_no_operator (c : ascii) :
  isalpha c = true -> Ascii.eqb c "+" = false /\ Ascii.eqb c ")" = false.
Proof.
  destruct c as [[] [] [] [] [] [] [] []]; vm_compute; intros H;
    try discriminate H; split; reflexivity.
Qed.

Section Defaults.

Variable present : ascii -> bool.
Variables m m' : mapping.

Lemma default_letter_tests (c : ascii) :
  nonzero (default_letter present c) = nonzero c /\
  isspace (default_letter present c) = isspace c /\
  Ascii.eqb (default_letter present c) "+" = Ascii.eqb c "+" /\
  Ascii.eqb (default_letter present c) "!" = Ascii.eqb c "!" /\
  Ascii.eqb (default_letter present c) "(" = Ascii.eqb c "(" /\
  Ascii.eqb (default_letter present c) ")" = Ascii.eqb c ")".
Proof.
  unfold default_letter.
  destruct (isalpha c) eqn:Hc; [|repeat split; reflexivity].
  destruct (present c); [repeat split; reflexivity|].
  destruct (letter_facts c Hc) as (Hz & Hs & Hb & Hp & _).
  destruct (letter_is_no_operator c Hc) as (Hplus & Hclose).
  cbn [negb andb]. rewrite Hz, Hs, Hb, Hp, Hplus, Hclose.
  repeat split; reflexivity.
Qed.

Lemma skip_ws_with_defaults (s : string) :
  skip_ws (with_defaults present s) = with_defaults present (skip_ws s).
Proof.
  induction s as [|c r IH]; [reflexivity|].
  cbn [with_defaults skip_ws].
  destruct (default_letter_tests c) as (Hz & Hs & _). rewrite Hz, Hs.
  destruct (nonzero c && isspace c); [exact IH | reflexivity].
Qed.

Lemma incr_with_defaults (p : cursor) :
  incr (cursor_with_defaults present p) = cursor_with_defaults present (incr p).
Proof.
  destruct p as [[|c r]|]; try reflexivity.
  cbn [cursor_with_defaults with_defaults incr].
  destruct (default_letter_tests c) as (Hz & _). rewrite Hz.
  destruct (nonzero c); reflexivity.
Qed.

Lemma deref_with_defaults (p : cursor) :
  deref (cursor_with_defaults present p)
  = option_map (default_letter present) (deref p).
Proof. destruct p as [[|c r]|]; reflexivity. Qed.

Lemma step_bind {A} (ma : P A) (k1 k2 : A -> P Z) p e :
  match ma p (mkState m e),
        ma (cursor_with_defaults present p) (mkState m' e) with
  | Ok (a1, p1, s1), Ok (a2, p2, s2) =>
      a1 = a2 /\ p2 = cursor_with_defaults present p1 /\
      stderr s1 = stderr s2 /\ g_var_mapping s1 = m /\ g_var_mapping s2 = m'
  | Fault f1, Fault f2 => f1 = f2
  | _, _ => False
  end ->
  (forall a p' e',
     in_step present m m' (k1 a p' (mkState m e'))
          (k2 a (cursor_with_defaults present p') (mkState m' e'))) ->
  in_step present m m' (bind ma k1 p (mkState m e))
       (bind ma k2 (cursor_with_defaults present p) (mkState m' e)).
Proof.
  intros H K. unfold bind.
  destruct (ma p (mkState m e)) as [[[a1 p1] s1]|f1],
           (ma (cursor_with_defaults present p) (mkState m' e))
             as [[[a2 p2] s2]|f2];
    try contradiction; [|exact H].
  destruct H as (-> & -> & He & Hg1 & Hg2).
  destruct s1 as [g1 e1], s2 as [g2 e2]. simpl in *. subst.
  apply K.
Qed.

Lemma step_ret (v : Z) p e :
  in_step present m m' (ret v p (mkState m e))
       (ret v (cursor_with_defaults present p) (mkState m' e)).
Proof. simpl. auto. Qed.

Lemma step_skip (k : P Z) p e :
  (forall p' e',
     in_step present m m' (k p' (mkState m e'))
          (k (cursor_with_defaults present p') (mkState m' e'))) ->
  in_step present m m' (bind skip_whitespace (fun _ => k) p (mkState m e))
       (bind skip_whitespace (fun _ => k)
             (cursor_with_defaults present p) (mkState m' e)).
Proof.
  intros K. apply step_bind; [|intros _; exact K].
  destruct p as [s|]; [|reflexivity].
  cbn [cursor_with_defaults skip_whitespace].
  rewrite skip_ws_with_defaults. cbn [g_var_mapping stderr]. auto.
Qed.

Lemma step_advance (k : P Z) p e :
  (forall p' e',
     in_step present m m' (k p' (mkState m e'))
          (k (cursor_with_defaults present p') (mkState m' e'))) ->
  in_step present m m' (bind advance (fun _ => k) p (mkState m e))
       (bind advance (fun _ => k)
             (cursor_with_defaults present p) (mkState m' e)).
Proof.
  intros K. apply step_bind; [|intros _; exact K].
  unfold advance. rewrite incr_with_defaults. cbn [g_var_mapping stderr]. auto.
Qed.

Lemma step_unrecognized h (k : P Z) p e :
  (forall p' e',
     in_step present m m' (k p' (mkState m e'))
          (k (cursor_with_defaults present p') (mkState m' e'))) ->
  in_step present m m' (bind (unrecognized h) (fun _ => k) p (mkState m e))
       (bind (unrecognized h) (fun _ => k)
             (cursor_with_defaults present p) (mkState m' e)).
Proof.
  intros K. destruct h; [apply step_advance; exact K|].
  unfold bind, unrecognized, ret. apply K.
Qed.

Lemma step_peek (k : ascii -> P Z) p e :
  (forall c, deref p = Some c ->
     in_step present m m' (k c p (mkState m e))
          (k (default_letter present c)
             (cursor_with_defaults present p) (mkState m' e))) ->
  in_step present m m' (bind peek k p (mkState m e))
       (bind peek k (cursor_with_defaults present p) (mkState m' e)).
Proof.
  intros K. unfold bind, peek. rewrite deref_with_defaults.
  destruct (deref p) as [c|]; [|reflexivity].
  apply K. reflexivity.
Qed.

Lemma step_call (f : P Z) (k : Z -> P Z) p e :
  in_step present m m' (f p (mkState m e)) (f (cursor_with_defaults present p) (mkState m' e)) ->
  (forall a p' e',
     in_step present m m' (k a p' (mkState m e'))
          (k a (cursor_with_defaults present p') (mkState m' e'))) ->
  in_step present m m' (bind f k p (mkState m e))
       (bind f k (cursor_with_defaults present p) (mkState m' e)).
Proof. intros H K. apply step_bind; [exact H | exact K]. Qed.

Lemma parser_in_step (h : host) (fuel : nat) :
  defaults_hold present m m' ->
  (forall p e,
     in_step present m m' (parse_expression h fuel p (mkState m e))
          (parse_expression h fuel (cursor_with_defaults present p) (mkState m' e))) /\
  (forall v p e,
     in_step present m m' (parse_expression_loop h fuel v p (mkState m e))
          (parse_expression_loop h fuel v (cursor_with_defaults present p)
             (mkState m' e))) /\
  (forall p e,
     in_step present m m' (parse_term h fuel p (mkState m e))
          (parse_term h fuel (cursor_with_defaults present p) (mkState m' e))) /\
  (forall v p e,
     in_step present m m' (parse_term_loop h fuel v p (mkState m e))
          (parse_term_loop h fuel v (cursor_with_defaults present p)
             (mkState m' e))) /\
  (forall p e,
     in_step present m m' (parse_factor h fuel p (mkState m e))
          (parse_factor h fuel (cursor_with_defaults present p) (mkState m' e))).
Proof.
  intros [Hdef Hsame].
  induction fuel as [|f (IHe & IHel & IHt & IHtl & IHf)].
  { repeat split; intros; reflexivity. }
  repeat split; intros.
  - rewrite parse_expression_S.
    apply step_call; [apply IHt|]. intros a p1 e1.
    apply step_skip. intros p2 e2. apply IHel.
  - rewrite parse_expression_loop_S.
    apply step_peek. intros c _.
    destruct (default_letter_tests c) as (_ & _ & -> & _).
    destruct (Ascii.eqb c "+"); [|apply step_ret].
    apply step_advance. intros p1 e1.
    apply step_skip. intros p2 e2.
    apply step_call; [apply IHt|]. intros a p3 e3.
    apply step_skip. intros p4 e4. apply IHel.
  - rewrite parse_term_S.
    apply step_call; [apply IHf|]. intros a p1 e1.
    apply step_skip. intros p2 e2. apply IHtl.
  - rewrite parse_term_loop_S.
    apply step_peek. intros c _.
    rewrite !is_middle_dot_false. apply step_ret.
  - rewrite parse_factor_S.
    apply step_skip. intros p1 e1.
    apply step_peek. intros c D.
    destruct (default_letter_tests c) as (_ & _ & _ & -> & -> & _).
    destruct (Ascii.eqb c "!").
    { apply step_advance. intros p2 e2.
      apply step_call; [apply IHf|]. intros a p3 e3. apply step_ret. }
    destruct (Ascii.eqb c "(").
    { apply step_advance. intros p2 e2.
      apply step_call; [apply IHe|]. intros a p3 e3.
      apply step_skip. intros p4 e4.
      apply step_peek. intros c' _.
      destruct (default_letter_tests c') as (_ & _ & _ & _ & _ & ->).
      destruct (Ascii.eqb c' ")").
      - apply step_advance. intros p5 e5. apply step_ret.
      - unfold bind, eprint, ret. simpl. auto. }
    unfold default_letter.
    destruct (isalpha c) eqn:Hc; cbn [andb].
    + destruct (letter_facts c Hc) as (_ & _ & _ & _ & Hd). rewrite Hd.
      destruct (present c) eqn:Hp; cbn [negb].
      * rewrite Hd, Hc. unfold bind, advance, lookup_var.
        rewrite incr_with_defaults. cbn [g_var_mapping stderr in_step].
        rewrite (Hsame c Hc Hp). auto.
      * change (isdigit "1") with true. cbv iota.
        unfold bind, advance, lookup_var, ret.
        rewrite incr_with_defaults. cbn [g_var_mapping stderr in_step].
        rewrite (Hdef c Hc Hp). auto.
    + destruct (isdigit c).
      * apply step_advance. intros p2 e2. apply step_ret.
      * rewrite Hc. apply step_unrecognized. intros p2 e2. apply step_ret.
Qed.

End Defaults.

Lemma with_defaults_length (present : ascii -> bool) (s : string) :
  String.length (with_defaults present s) = String.length s.
Proof. induction s as [|c r IH]; simpl; congruence. Qed.

(** A letter without a value of its own reads as the literal 1. *)
Lemma run_parser_with_defaults
      (h : host) (present : ascii -> bool) (m m' : mapping)
      (expr : string) (e : list string) :
  defaults_hold present m m' ->
  value_of (run_parser h expr (mkState m e))
  = value_of (run_parser h (with_defaults present expr) (mkState m' e)).
Proof.
  intros Hd. unfold run_parser, fuel_for.
  rewrite with_defaults_length.
  destruct (parser_in_step present m m' h
              (3 * String.length expr + 6) Hd) as (He & _).
  specialize (He (At expr) e). cbn [cursor_with_defaults] in He.
  destruct (parse_expression h (3 * String.length expr + 6) (At expr)
              (mkState m e)) as [[[v1 p1] s1]|f1],
           (parse_expression h (3 * String.length expr + 6)
              (At (with_defaults present expr)) (mkState m' e))
             as [[[v2 p2] s2]|f2];
    simpl in He; try contradiction.
  - destruct He as (-> & _). reflexivity.
  - subst. reflexivity.
Qed.
(** ** Readings under tables that agree *)

Lemma read_ext (g1 g2 : mapping) :
  (forall c, g1 c = g2 c) ->
  (forall f, read_factor g1 f = read_factor g2 f) /\
  (forall t, read_term g1 t = read_term g2 t) /\
  (forall tl : term_tail, True) /\
  (forall e, read_expression g1 e = read_expression g2 e) /\
  (forall tl v, read_expr_tail g1 v tl = read_expr_tail g2 v tl).
Proof.
  intros H. apply grammar_ind.
  - intros w f IH. cbn [read_factor]. rewrite IH. reflexivity.
  - intros w1 e IH w2. cbn [read_factor]. rewrite IH. reflexivity.
  - reflexivity.
  - intros c. cbn [read_factor]. rewrite H. reflexivity.
  - intros f IH tl _. cbn [read_term]. rewrite IH. reflexivity.
  - exact I.
  - intros. exact I.
  - intros t IHt tl IHtl. cbn [read_expression]. rewrite IHt.
    destruct (halted (read_term g2 t)); [reflexivity|]. rewrite IHtl. reflexivity.
  - reflexivity.
  - intros w1 w2 t IHt tl IHtl v. cbn [read_expr_tail]. rewrite IHt.
    destruct (halted (read_term g2 t)); [reflexivity|]. rewrite IHtl. reflexivity.
Qed.

(** The value of a reading is 0, 1 or the entry of a variable. *)
Lemma reading_entry (g : mapping) :
  (forall f, wf_factor f = true ->
     value (read_factor g f) = 0 \/ value (read_factor g f) = 1 \/
     exists c, isalpha c = true /\ value (read_factor g f) = g c) /\
  (forall t, wf_term t = true ->
     value (read_term g t) = 0 \/ value (read_term g t) = 1 \/
     exists c, isalpha c = true /\ value (read_term g t) = g c) /\
  (forall tl : term_tail, True) /\
  (forall e, wf_expression e = true ->
     value (read_expression g e) = 0 \/ value (read_expression g e) = 1 \/
     exists c, isalpha c = true /\ value (read_expression g e) = g c) /\
  (forall tl v, wf_expr_tail tl = true ->
     value (read_expr_tail g v tl) = v \/
     value (read_expr_tail g v tl) = 0 \/ value (read_expr_tail g v tl) = 1).
Proof.
  apply grammar_ind.
  - intros w f _ _. cbn [read_factor value].
    destruct (c_not_boolean (value (read_factor g f))); auto.
  - intros w1 e IH w2 H. cbn [wf_factor] in H.
    apply andb_prop in H. destruct H as [H _].
    apply andb_prop in H. destruct H as [_ H].
    cbn [read_factor].
    destruct (halted (read_expression g e)); cbn [value]; apply IH; exact H.
  - intros b _. destruct b; cbn; auto.
  - intros c H. right. right. exists c. split; [exact H | reflexivity].
  - intros f IH tl _ H. cbn [wf_term] in H. apply andb_prop in H.
    cbn [read_term value]. apply IH. apply H.
  - exact I.
  - intros. exact I.
  - intros t IHt tl IHtl H. cbn [wf_expression] in H.
    apply andb_prop in H. destruct H as [Ht Htl].
    cbn [read_expression].
    destruct (halted (read_term g t)); [apply IHt; exact Ht|].
    cbn [value].
    destruct (IHtl (value (read_term g t)) Htl) as [E | [E | E]]; [|auto|auto].
    rewrite E. apply IHt. exact Ht.
  - intros v _. left. reflexivity.
  - intros w1 w2 t IHt tl IHtl v H. cbn [wf_expr_tail] in H.
    apply andb_prop in H. destruct H as [_ Htl].
    cbn [read_expr_tail].
    destruct (halted (read_term g t)); cbn [value].
    + right. apply c_or_boolean.
    + right.
      destruct (IHtl (c_or v (value (read_term g t))) Htl) as [E | E];
        [|exact E].
      rewrite E. apply c_or_boolean.
Qed.

(** ** The entries of a row are truth values *)

Lemma land_one_boolean (x : Z) : Z.land x 1 = 0 \/ Z.land x 1 = 1.
Proof.
  change (Z.land x 1) with (Z.land x (Z.ones 1)).
  rewrite Z.land_ones by lia. change (2 ^ 1) with 2.
  pose proof (Z.mod_pos_bound x 2). lia.
Qed.

Lemma assign_boolean (vars : list ascii) :
  forall i n j m printed,
    boolean_valued m ->
    boolean_valued (fst (assign_variables i n j vars m printed)).
Proof.
  induction vars as [|v vars IH]; intros i n j m printed Hm; simpl; [exact Hm|].
  apply IH. intros c. unfold update.
  destruct (Ascii.eqb c v); [apply land_one_boolean | apply Hm].
Qed.

Lemma row_mapping_boolean (vars : list ascii) (i : Z) :
  boolean_valued (row_mapping vars i).
Proof.
  unfold row_mapping. apply assign_boolean. intros c. right. reflexivity.
Qed.

Lemma truth_of_boolean (m : mapping) (c : ascii) :
  m c = 0 \/ m c = 1 -> m c = Z.b2z (truth m c).
Proof. unfold truth. intros [-> | ->]; reflexivity. Qed.

(** On a sentence without middle dot, under a table of truth values, both
    hosts return the value of the tree of the sentence. *)
Lemma sentence_value (h : host) (s : sentence) (m : mapping) (st : state) :
  wf s = true -> and_free_expression (body s) = true -> boolean_valued m ->
  evaluate_expr_with_mapping h (render s) m st
  = Ok (Z.b2z (evaluate (tree_expression (body s)) (truth m)),
        mkState m (stderr st)).
Proof.
  intros Hwf Hfree Hm.
  rewrite evaluate_sentence by exact Hwf.
  destruct (read_ext m (mapping_of (truth m))) as (_ & _ & _ & He & _).
  { intros c. apply truth_of_boolean. apply Hm. }
  rewrite He.
  destruct (reading_tree (truth m)) as (_ & _ & _ & Ht & _).
  rewrite (Ht (body s) Hfree). cbn [value messages].
  rewrite app_nil_r. reflexivity.
Qed.

(** ** Example inputs *)

Lemma render_a_or_b_and_c : render a_or_b_and_c = "A + B · C".
Proof. reflexivity. Qed.

Lemma render_a_and_b : render a_and_b = "A · B".
Proof. reflexivity. Qed.

Lemma all_true_boolean : boolean_valued all_true.
Proof. intros c. right. reflexivity. Qed.

(** * The claims *)

(** ** C1 *)

(** C1, counterexample: the input ["A $ B"] holds a character outside the
    surface syntax, and both hosts return the value 1 for it, with nothing
    written to [stderr]. *)
Lemma unrecognized_character_accepted :
  has_unrecognized "A $ B" = true /\
  evaluate_boolean_expression CommandLine "A $ B" st0 = Ok (1, mkState all_true []) /\
  evaluate_boolean_expression Cgi "A $ B" st0 = Ok (1, mkState all_true []).
Proof. repeat split; reflexivity. Qed.

(** C1, as amended: no input makes the parse fail with a syntax error.
    The CGI host returns a value for every input and every mapping; the
    command-line host returns a value or reads past the end of its input.
    A character on which no alternative of a factor applies counts as the
    factor 0 without any report: the command-line host steps over it, the
    CGI host leaves it under the cursor. *)
Theorem no_input_is_rejected
        (text : string) (m : mapping) (st : state)
        (c : ascii) (r : string) (fuel : nat)
        (Hc : starts_no_factor c = true) :
  returns (evaluate_expr_with_mapping Cgi text m st) /\
  (returns (evaluate_expr_with_mapping CommandLine text m st) \/
   evaluate_expr_with_mapping CommandLine text m st = Fault ReadPastEnd) /\
  parse_factor CommandLine (S fuel) (At (String c r)) st = Ok (0, At r, st) /\
  parse_factor Cgi (S fuel) (At (String c r)) st = Ok (0, At (String c r), st) /\
  value_of (evaluate_boolean_expression CommandLine "A $ B" st) = Ok 1 /\
  value_of (evaluate_boolean_expression Cgi "A $ B" st) = Ok 1.
Proof.
  split; [apply cgi_returns|].
  split; [apply run_parser_outcome|].
  rewrite <- !and_assoc. split; [|reflexivity]. split; [|reflexivity].
  unfold starts_no_factor in Hc.
  repeat (apply andb_prop in Hc; destruct Hc as [Hc ?]).
  repeat match goal with
         | H : negb _ = true |- _ => apply negb_true_iff in H
         end.
  split; simpl; unfold bind, skip_whitespace, peek, advance, ret; simpl;
    rewrite Hc; simpl;
    repeat match goal with
           | H : _ = false |- _ => rewrite H; clear H
           end; simpl; try rewrite Hc; reflexivity.
Qed.

Lemma no_input_is_rejected_witness :
  starts_no_factor "$" = true /\
  (returns (evaluate_expr_with_mapping Cgi "A $ B" all_true st0) /\
   (returns (evaluate_expr_with_mapping CommandLine "A $ B" all_true st0) \/
    evaluate_expr_with_mapping CommandLine "A $ B" all_true st0 = Fault ReadPastEnd) /\
   parse_factor CommandLine 1 (At "$+1") st0 = Ok (0, At "+1", st0) /\
   parse_factor Cgi 1 (At "$+1") st0 = Ok (0, At "$+1", st0) /\
   value_of (evaluate_boolean_expression CommandLine "A $ B" st0) = Ok 1 /\
   value_of (evaluate_boolean_expression Cgi "A $ B" st0) = Ok 1).
Proof.
  split; [reflexivity|].
  apply (no_input_is_rejected "A $ B" all_true st0 "$" "+1" 0). reflexivity.
Defined.

(** ** C2 *)

(** C2, counterexample: on ["(A · B"], where the parenthesis is never
    closed, both hosts return the evaluation result 1; the only trace is
    one line on [stderr]. *)
Lemma unclosed_parenthesis_accepted :
  evaluate_boolean_expression CommandLine "(A · B" st0
  = Ok (1, mkState all_true [MISSING_PAREN]) /\
  evaluate_boolean_expression Cgi "(A · B" st0
  = Ok (1, mkState all_true [MISSING_PAREN]).
Proof. split; reflexivity. Qed.

(** The example of the claim is an open sentence. *)
Lemma render_open_a_and_b :
  wf_open open_a_and_b = true /\ render_open open_a_and_b = "(A · B" /\
  unclosed open_a_and_b = 1%nat.
Proof. repeat split; reflexivity. Qed.

(** C2, as amended: on every input that is a sentence of the grammar but
    for closing parentheses missing at its end (at least one), with no
    ['·'] in the terms that stand before an unclosed parenthesis, and for
    every mapping, the parse does not fail.  The evaluation of either
    host returns, and what it returns is the value it returns for the
    input completed with the missing [')'].  Each unclosed ['('] is
    reported by the line "Error: Missing closing parenthesis." on
    [stderr], which names no position: [n] lines are written, as many as
    there are unclosed parentheses when the completed input is evaluated
    in silence, and as many as for the completed input otherwise. *)
Theorem unclosed_parenthesis_is_reported_and_skipped
        (h : host) (s : open_sentence) (m : mapping) (st : state)
        (Hwf : wf_open s = true) :
  (1 <= unclosed s)%nat /\
  exists v n nc,
    evaluate_expr_with_mapping h (render_open s) m st
    = Ok (v, mkState m (stderr st ++ repeat MISSING_PAREN n)%list) /\
    evaluate_expr_with_mapping h (render_open s ++ closers (unclosed s)) m st
    = Ok (v, mkState m (stderr st ++ repeat MISSING_PAREN nc)%list) /\
    n = Nat.max nc (unclosed s).
Proof.
  split; [apply unclosed_positive|].
  destruct (closed_sentence s Hwf) as [Hc Hr].
  rewrite <- Hr, (evaluate_sentence h (closed s) m st Hc).
  unfold evaluate_expr_with_mapping.
  destruct (run_parser_open h s (mkState m (stderr st)) Hwf) as (n & E & Hn).
  cbn [g_var_mapping stderr] in E, Hn. rewrite E.
  exists (value (read_expression m (body (closed s)))), n.
  destruct (halted (read_expression m (body (closed s)))).
  - destruct Hn as [Hm Hu]. exists n. rewrite Hm.
    repeat split. lia.
  - destruct Hn as [Hu Hm]. exists 0%nat. rewrite Hm.
    repeat split. subst n. reflexivity.
Qed.

Lemma unclosed_parenthesis_is_reported_and_skipped_witness :
  wf_open a_or_not_open_b = true /\
  render_open a_or_not_open_b = "A + !(B" /\
  (1 <= unclosed a_or_not_open_b)%nat /\
  exists v n nc,
    evaluate_expr_with_mapping CommandLine (render_open a_or_not_open_b) m_FFT st0
    = Ok (v, mkState m_FFT (stderr st0 ++ repeat MISSING_PAREN n)%list) /\
    evaluate_expr_with_mapping CommandLine
      (render_open a_or_not_open_b ++ closers (unclosed a_or_not_open_b)) m_FFT st0
    = Ok (v, mkState m_FFT (stderr st0 ++ repeat MISSING_PAREN nc)%list) /\
    n = Nat.max nc (unclosed a_or_not_open_b).
Proof.
  split; [reflexivity|]. split; [reflexivity|].
  apply (unclosed_parenthesis_is_reported_and_skipped
           CommandLine a_or_not_open_b m_FFT st0).
  reflexivity.
Defined.

(** ** C3 *)

(** C3, counterexample: an expression with 31 distinct variables has no
    table of 2^31 rows; [1 << 31] is not representable in [int]. *)
Lemma too_many_variables :
  List.length
    (variables "A+B+C+D+E+F+G+H+I+J+K+L+M+N+O+P+Q+R+S+T+U+V+W+X+Y+Z+a+b+c+d+e")
  = 31%nat /\
  generate_truth_table CommandLine
    "A+B+C+D+E+F+G+H+I+J+K+L+M+N+O+P+Q+R+S+T+U+V+W+X+Y+Z+a+b+c+d+e" st0
  = Fault ShiftOverflow /\
  generate_truth_table Cgi
    "A+B+C+D+E+F+G+H+I+J+K+L+M+N+O+P+Q+R+S+T+U+V+W+X+Y+Z+a+b+c+d+e" st0
  = Fault ShiftOverflow.
Proof. repeat split; reflexivity. Qed.

(** C3, as amended: for every expression with n <= 30 distinct variables,
    the table has exactly 2^n rows; the variables are the distinct letters
    in order of first occurrence; row i (counted from 0, in the order
    produced) shows for the j-th variable bit (n-1-j) of i, which is also
    the value the variable has in the mapping the expression is evaluated
    with for that row; hence row 0 is all 0, row 2^n-1 is all 1, and the
    assignments of the rows are pairwise distinct. *)
Theorem truth_table_enumeration
        (h : host) (s : sentence) (st : state)
        (Hwf : wf s = true)
        (Hn : (List.length (variables (render s)) <= 30)%nat) :
  let vars := variables (render s) in
  let n := List.length vars in
  exists rows st',
    generate_truth_table h (render s) st = Ok (rows, st') /\
    vars = variable_set (render s) /\
    NoDup vars /\
    Z.of_nat (List.length rows) = 2 ^ Z.of_nat n /\
    (forall i, (i < List.length rows)%nat ->
       exists r,
         nth_error rows i = Some r /\
         cells r = map (fun j => bit i (n - 1 - j)) (seq 0 n) /\
         (forall j, (j < n)%nat ->
            row_mapping vars (Z.of_nat i) (nth j vars NUL) = bit i (n - 1 - j)) /\
         value_of (evaluate_expr_with_mapping h (render s)
                     (row_mapping vars (Z.of_nat i)) st) = Ok (result r)) /\
    (exists r, nth_error rows 0 = Some r /\ cells r = repeat 0 n) /\
    (exists r, nth_error rows (List.length rows - 1) = Some r /\
               cells r = repeat 1 n) /\
    NoDup (map cells rows).
Proof.
  intros vars n.
  assert (Hpow : 0 < 2 ^ Z.of_nat n) by (apply Z.pow_pos_nonneg; lia).
  unfold generate_truth_table. fold vars. fold n.
  rewrite shift_left_one_small by exact Hn.
  destruct (table_rows_sentence h s vars Hwf (Z.to_nat (2 ^ Z.of_nat n)) 0 st)
    as (st' & E).
  rewrite E. clear E.
  set (N := Z.to_nat (2 ^ Z.of_nat n)).
  assert (HN : Z.of_nat N = 2 ^ Z.of_nat n) by (unfold N; lia).
  eexists. exists st'. split; [reflexivity|].
  split; [apply variables_first_occurrences|].
  split; [apply variables_NoDup|].
  rewrite length_map, length_seq.
  split; [exact HN|].
  split.
  { intros i Hi. eexists. split; [apply nth_error_map_seq; exact Hi|].
    cbn [cells result Nat.add]. rewrite Z.add_0_l.
    split; [apply row_cells_bits; apply variables_NoDup|].
    split.
    - intros j Hj. apply row_mapping_bits; [apply variables_NoDup | exact Hj].
    - rewrite evaluate_sentence by exact Hwf. reflexivity. }
  split.
  { eexists. split; [apply nth_error_map_seq; lia|].
    cbn [cells Nat.add]. rewrite Z.add_0_l.
    rewrite (row_cells_bits h vars 0) by apply variables_NoDup. fold n.
    transitivity (map (fun _ : nat => 0) (seq 0 n)).
    - apply map_ext. intros j. apply bit_zero.
    - rewrite map_const, length_seq. reflexivity. }
  split.
  { eexists. split; [apply nth_error_map_seq; lia|].
    cbn [cells Nat.add]. rewrite Z.add_0_l.
    rewrite row_cells_bits by apply variables_NoDup. fold n.
    transitivity (map (fun _ : nat => 1) (seq 0 n)).
    - apply map_ext_in. intros j Hj. apply in_seq in Hj.
      unfold N. apply bit_ones. lia.
    - rewrite map_const, length_seq. reflexivity. }
  rewrite map_map. cbn [cells].
  apply NoDup_map_on; [apply seq_NoDup|].
  intros a b Ha Hb Hab. apply in_seq in Ha, Hb.
  rewrite !Z.add_0_l in Hab.
  apply (row_cells_injective h vars); fold n; try lia;
    [apply variables_NoDup | exact Hab].
Qed.

Lemma truth_table_enumeration_witness :
  wf a_and_b = true /\
  (List.length (variables (render a_and_b)) <= 30)%nat /\
  let vars := variables (render a_and_b) in
  let n := List.length vars in
  exists rows st',
    generate_truth_table CommandLine (render a_and_b) st0 = Ok (rows, st') /\
    vars = variable_set (render a_and_b) /\
    NoDup vars /\
    Z.of_nat (List.length rows) = 2 ^ Z.of_nat n /\
    (forall i, (i < List.length rows)%nat ->
       exists r,
         nth_error rows i = Some r /\
         cells r = map (fun j => bit i (n - 1 - j)) (seq 0 n) /\
         (forall j, (j < n)%nat ->
            row_mapping vars (Z.of_nat i) (nth j vars NUL) = bit i (n - 1 - j)) /\
         value_of (evaluate_expr_with_mapping CommandLine (render a_and_b)
                     (row_mapping vars (Z.of_nat i)) st0) = Ok (result r)) /\
    (exists r, nth_error rows 0 = Some r /\ cells r = repeat 0 n) /\
    (exists r, nth_error rows (List.length rows - 1) = Some r /\
               cells r = repeat 1 n) /\
    NoDup (map cells rows).
Proof.
  split; [reflexivity|].
  split; [vm_compute; lia|].
  apply (truth_table_enumeration CommandLine a_and_b st0).
  - reflexivity.
  - vm_compute. lia.
Defined.

(** ** C4 *)

(** C4: a letter that was given no value evaluates to true, in every
    expression.  Without an explicit assignment, every input string
    evaluates to what the string with every letter replaced by the
    literal ['1'] evaluates to, under any table whatever; on a sentence
    without ['·'] this is the value of its tree with every variable true.
    Under the assignment of a row of a table over any list [vars] of
    variables, every input string evaluates to what the string with the
    letters outside [vars] replaced by ['1'] evaluates to, under any table
    that gives the variables the values of the row; on a sentence without
    ['·'] this is the value of its tree under the truth values of the
    row, which are true for every letter outside [vars].  ["A + B"]
    evaluates to true, ["!A"] to false. *)
Theorem default_is_true
        (h : host) (st : state) (expr : string) (s : sentence)
        (vars : list ascii) (i : Z) (m0 m' : mapping)
        (Hwf : wf s = true) (Hfree : and_free_expression (body s) = true)
        (Hm : forall c, In c vars -> m' c = row_mapping vars i c) :
  value_of (evaluate_boolean_expression h expr st)
  = value_of (evaluate_expr_with_mapping h
                (with_defaults (fun _ => false) expr) m0 st) /\
  evaluate_boolean_expression h (render s) st
  = Ok (Z.b2z (evaluate (tree_expression (body s)) (fun _ => true)),
        mkState all_true (stderr st)) /\
  value_of (evaluate_expr_with_mapping h expr (row_mapping vars i) st)
  = value_of (evaluate_expr_with_mapping h
                (with_defaults (fun c => already_present c vars) expr) m' st) /\
  evaluate_expr_with_mapping h (render s) (row_mapping vars i) st
  = Ok (Z.b2z (evaluate (tree_expression (body s)) (truth (row_mapping vars i))),
        mkState (row_mapping vars i) (stderr st)) /\
  (forall c, ~ In c vars -> row_mapping vars i c = 1) /\
  value_of (evaluate_boolean_expression h "A + B" st) = Ok 1 /\
  value_of (evaluate_boolean_expression h "!A" st) = Ok 0.
Proof.
  split.
  { apply run_parser_with_defaults. split; [reflexivity | discriminate]. }
  split.
  { apply (sentence_value h s all_true st Hwf Hfree).
    intros c. right. reflexivity. }
  split.
  { apply run_parser_with_defaults. split.
    - intros c _ Hc. apply row_mapping_default.
      intros Hin. apply already_present_In in Hin. congruence.
    - intros c _ Hc. symmetry. apply Hm. apply already_present_In. exact Hc. }
  split.
  { apply (sentence_value h s _ st Hwf Hfree). apply row_mapping_boolean. }
  split; [intros c Hc; apply row_mapping_default; exact Hc|].
  destruct h; split; reflexivity.
Qed.

Lemma default_is_true_witness :
  wf not_a = true /\ and_free_expression (body not_a) = true /\
  (forall c, In c ["B"%char] ->
             all_true c = row_mapping ["B"%char] 1 c) /\
  value_of (evaluate_boolean_expression CommandLine "!A + C" st0)
  = value_of (evaluate_expr_with_mapping CommandLine
                (with_defaults (fun _ => false) "!A + C") (fun _ => 0) st0) /\
  evaluate_boolean_expression CommandLine (render not_a) st0
  = Ok (Z.b2z (evaluate (tree_expression (body not_a)) (fun _ => true)),
        mkState all_true (stderr st0)) /\
  value_of (evaluate_expr_with_mapping CommandLine "!A + C"
              (row_mapping ["B"%char] 1) st0)
  = value_of (evaluate_expr_with_mapping CommandLine
                (with_defaults (fun c => already_present c ["B"%char]) "!A + C")
                all_true st0) /\
  evaluate_expr_with_mapping CommandLine (render not_a)
    (row_mapping ["B"%char] 1) st0
  = Ok (Z.b2z (evaluate (tree_expression (body not_a))
                        (truth (row_mapping ["B"%char] 1))),
        mkState (row_mapping ["B"%char] 1) (stderr st0)) /\
  (forall c, ~ In c ["B"%char] -> row_mapping ["B"%char] 1 c = 1) /\
  value_of (evaluate_boolean_expression CommandLine "A + B" st0) = Ok 1 /\
  value_of (evaluate_boolean_expression CommandLine "!A" st0) = Ok 0.
Proof.
  assert (Hm : forall c, In c ["B"%char] ->
                         all_true c = row_mapping ["B"%char] 1 c).
  { intros c [<- | []]. reflexivity. }
  split; [reflexivity|]. split; [reflexivity|]. split; [exact Hm|].
  apply (default_is_true CommandLine st0 "!A + C" not_a ["B"%char] 1
           (fun _ => 0) all_true); [reflexivity | reflexivity | exact Hm].
Defined.

(** ** C5 *)

(** C5, the code at the failing inputs.  The parser never applies AND:
    for every mapping, ["A + B · C"], ["A + (B · C)"] and ["(A + B) · C"]
    all evaluate to A OR B, in both hosts, since nothing is read from the
    middle dot on.  Under A=false, B=true, C=false the input
    ["A + B · C"] evaluates to 1, where A OR (B AND C) is false; under
    A=true, B=false, C=false the input ["(A + B) · C"] evaluates to 1,
    where (A OR B) AND C is false.  Under A=false, B=false, C=true the
    three inputs evaluate to 0. *)
Theorem and_is_never_applied (h : host) (m : mapping) (st : state) :
  value_of (evaluate_expr_with_mapping h "A + B · C" m st)
  = Ok (c_or (m "A"%char) (m "B"%char)) /\
  value_of (evaluate_expr_with_mapping h "A + (B · C)" m st)
  = Ok (c_or (m "A"%char) (m "B"%char)) /\
  value_of (evaluate_expr_with_mapping h "(A + B) · C" m st)
  = Ok (c_or (m "A"%char) (m "B"%char)) /\
  value_of (evaluate_expr_with_mapping h "A + B · C" (mapping_of a_FTF) st) = Ok 1 /\
  evaluate (Or (Var "A") (And (Var "B") (Var "C"))) a_FTF = false /\
  value_of (evaluate_expr_with_mapping h "(A + B) · C" (mapping_of a_TFF) st) = Ok 1 /\
  evaluate (And (Or (Var "A") (Var "B")) (Var "C")) a_TFF = false /\
  value_of (evaluate_expr_with_mapping h "A + B · C" m_FFT st) = Ok 0 /\
  value_of (evaluate_expr_with_mapping h "A + (B · C)" m_FFT st) = Ok 0 /\
  value_of (evaluate_expr_with_mapping h "(A + B) · C" m_FFT st) = Ok 0.
Proof. destruct h; repeat split; reflexivity. Qed.

(** ** C6 *)

(** C6, counterexample: on ["$+1"] the command-line host returns 1 and the
    CGI host returns 0. *)
Lemma hosts_differ :
  value_of (evaluate_boolean_expression CommandLine "$+1" st0) = Ok 1 /\
  value_of (evaluate_boolean_expression Cgi "$+1" st0) = Ok 0 /\
  value_of (evaluate_expr_with_mapping CommandLine "$+1" all_true st0)
  <> value_of (evaluate_expr_with_mapping Cgi "$+1" all_true st0).
Proof. repeat split; try reflexivity. discriminate. Qed.

(** C6, as amended: on every input that conforms to the grammar, and for
    every mapping, [evaluate_expr_with_mapping] and
    [evaluate_boolean_expression] of the command-line host return the same
    result, and leave the same lines on [stderr], as those of the CGI
    host. *)
Theorem hosts_agree_on_sentences
        (s : sentence) (m : mapping) (st : state) (Hwf : wf s = true) :
  evaluate_expr_with_mapping CommandLine (render s) m st
  = evaluate_expr_with_mapping Cgi (render s) m st /\
  evaluate_boolean_expression CommandLine (render s) st
  = evaluate_boolean_expression Cgi (render s) st.
Proof.
  unfold evaluate_boolean_expression.
  fold (evaluate_expr_with_mapping CommandLine (render s) all_true st).
  fold (evaluate_expr_with_mapping Cgi (render s) all_true st).
  rewrite !evaluate_sentence by exact Hwf. split; reflexivity.
Qed.

Lemma hosts_agree_on_sentences_witness :
  wf a_or_b_and_c = true /\
  evaluate_expr_with_mapping CommandLine (render a_or_b_and_c) m_FFT st0
  = evaluate_expr_with_mapping Cgi (render a_or_b_and_c) m_FFT st0 /\
  evaluate_boolean_expression CommandLine (render a_or_b_and_c) st0
  = evaluate_boolean_expression Cgi (render a_or_b_and_c) st0.
Proof.
  split; [reflexivity|].
  apply (hosts_agree_on_sentences a_or_b_and_c m_FFT st0). reflexivity.
Defined.

(** ** C7 *)

(** An expression without variables yields one row, with no cell and the
    value of the expression. *)
Lemma no_variables_one_row (h : host) (s : sentence) (st : state) :
  wf s = true -> variables (render s) = [] ->
  exists v st',
    value_of (evaluate_boolean_expression h (render s) st) = Ok v /\
    generate_truth_table h (render s) st = Ok ([mkRow [] v], st').
Proof.
  intros Hwf Hv. unfold generate_truth_table. rewrite Hv.
  change (shift_left_one (Z.of_nat (List.length (@nil ascii)))) with (@Ok Z 1).
  cbv beta iota. change (Z.to_nat 1) with 1%nat. cbn [table_rows].
  change (row_mapping [] 0) with all_true.
  replace (row_cells h [] 0) with (@nil Z) by (destruct h; reflexivity).
  rewrite evaluate_sentence by exact Hwf.
  eexists. eexists. split; [|reflexivity].
  unfold evaluate_boolean_expression. rewrite run_parser_sentence by exact Hwf.
  reflexivity.
Qed.

(** C7, the code at the failing input: ["1 · 0"] has no variable and its
    table has exactly one row, with an empty assignment, but the result in
    that row is 1: the bytes of the middle dot never equal the constant
    the parser compares them with, so that only the literal 1 is read. *)
Theorem table_of_one_dot_zero :
  variables "1 · 0" = [] /\
  value_of (generate_truth_table CommandLine "1 · 0" st0) = Ok [mkRow [] 1] /\
  value_of (generate_truth_table Cgi "1 · 0" st0) = Ok [mkRow [] 1] /\
  value_of (evaluate_boolean_expression CommandLine "1 · 0" st0) = Ok 1 /\
  (forall c, is_middle_dot c = false).
Proof.
  repeat split; try reflexivity. apply is_middle_dot_false.
Qed.
(** ** C8 *)

(** C8, counterexample: the input ["A"] conforms to the grammar, and under
    a mapping that holds 5 for A both hosts return 5, which is neither 0
    nor 1. *)
Lemma variable_entry_is_returned :
  wf (variable_alone "A") = true /\
  render (variable_alone "A") = "A" /\
  evaluate_expr_with_mapping CommandLine "A" (update all_true "A" 5) st0
  = Ok (5, mkState (update all_true "A" 5) []) /\
  evaluate_expr_with_mapping Cgi "A" (update all_true "A" 5) st0
  = Ok (5, mkState (update all_true "A" 5) []).
Proof. repeat split; reflexivity. Qed.

(** C8, as amended: on every input that conforms to the grammar, and for
    every mapping, the evaluation of either host returns: it does not
    read past the end of the input.  The value returned is 0, 1 or the
    entry of a letter, which is returned as it is; it is 0 or 1 whenever
    the mapping holds 0 or 1 for the variables of the input, and always
    for [evaluate_boolean_expression].  The table then holds the mapping,
    and [stderr] has received nothing when the input has no ['·'].  (With
    a ['·'] inside parentheses, lines about a missing parenthesis are
    written, and nothing else: ["(A · B)"] returns the entry of A and
    gets one such line.) *)
Theorem conforming_input_evaluates
        (h : host) (s : sentence) (m : mapping) (st : state)
        (Hwf : wf s = true) :
  (exists v n,
     evaluate_expr_with_mapping h (render s) m st
     = Ok (v, mkState m (stderr st ++ repeat MISSING_PAREN n)%list) /\
     (v = 0 \/ v = 1 \/ exists c, isalpha c = true /\ v = m c) /\
     ((forall c, In c (variables (render s)) -> m c = 0 \/ m c = 1) ->
      v = 0 \/ v = 1) /\
     (and_free_expression (body s) = true -> n = 0%nat)) /\
  (exists v n,
     evaluate_boolean_expression h (render s) st
     = Ok (v, mkState all_true (stderr st ++ repeat MISSING_PAREN n)%list) /\
     (v = 0 \/ v = 1) /\
     (and_free_expression (body s) = true -> n = 0%nat)) /\
  evaluate_expr_with_mapping h "(A · B)" m st
  = Ok (m "A"%char, mkState m (stderr st ++ [MISSING_PAREN])%list).
Proof.
  assert (G : forall g,
    exists v n,
      evaluate_expr_with_mapping h (render s) g st
      = Ok (v, mkState g (stderr st ++ repeat MISSING_PAREN n)%list) /\
      v = value (read_expression g (body s)) /\
      (and_free_expression (body s) = true -> n = 0%nat)).
  { intros g. rewrite evaluate_sentence by exact Hwf.
    destruct (reading_lines g) as (_ & _ & _ & Hl & _).
    destruct (Hl (body s)) as [k Hk].
    exists (value (read_expression g (body s))), k.
    rewrite Hk. split; [reflexivity|]. split; [reflexivity|].
    intros Hfree.
    destruct (and_free_not_halted g) as (_ & _ & _ & Hq & _).
    destruct (Hq (body s) Hfree) as [_ Hm]. rewrite Hm in Hk.
    destruct k; [reflexivity | discriminate Hk]. }
  assert (Hb : wf_expression (body s) = true).
  { unfold wf in Hwf. apply andb_prop in Hwf. destruct Hwf as [Hwf _].
    apply andb_prop in Hwf. apply Hwf. }
  split; [|split].
  - destruct (G m) as (v & n & E & Hv & Hn).
    exists v, n. split; [exact E|].
    split; [rewrite Hv; apply (reading_entry m); exact Hb|].
    split; [|exact Hn].
    intros Hvars.
    set (m' := over_variables (variables (render s)) m).
    assert (Hm' : boolean_valued m').
    { intros c. unfold m', over_variables.
      destruct (already_present c (variables (render s))) eqn:Hc; [|auto].
      apply Hvars. apply already_present_In. exact Hc. }
    assert (Hsame : forall c, In c (variables (render s)) -> m c = m' c).
    { intros c Hc. unfold m', over_variables.
      apply already_present_In in Hc. rewrite Hc. reflexivity. }
    pose proof (run_parser_depends h (render s) m m' (stderr st) Hsame) as D.
    fold (evaluate_expr_with_mapping h (render s) m st) in D.
    fold (evaluate_expr_with_mapping h (render s) m' st) in D.
    rewrite E in D. rewrite evaluate_sentence in D by exact Hwf.
    simpl in D. inversion D as [Dv].
    apply (reading_boolean m' Hm').
  - destruct (G all_true) as (v & n & E & Hv & Hn).
    exists v, n. split; [exact E|]. split; [|exact Hn].
    rewrite Hv. apply (reading_boolean all_true).
    intros c. right. reflexivity.
  - destruct h; reflexivity.
Qed.

Lemma conforming_input_evaluates_witness :
  wf a_or_b_and_c = true /\
  (forall c, In c (variables (render a_or_b_and_c)) -> m_FFT c = 0 \/ m_FFT c = 1) /\
  exists v n,
    evaluate_expr_with_mapping CommandLine (render a_or_b_and_c) m_FFT st0
    = Ok (v, mkState m_FFT (stderr st0 ++ repeat MISSING_PAREN n)%list) /\
    (v = 0 \/ v = 1).
Proof.
  assert (Hv : forall c, In c (variables (render a_or_b_and_c)) ->
                         m_FFT c = 0 \/ m_FFT c = 1).
  { intros c [<- | [<- | [<- | []]]]; [left | left | right]; reflexivity. }
  split; [reflexivity|]. split; [exact Hv|].
  destruct (conforming_input_evaluates CommandLine a_or_b_and_c m_FFT st0
              eq_refl) as [(v & n & E & _ & B & _) _].
  exists v, n. split; [exact E | apply B; exact Hv].
Defined.

(** ** C9 *)

(** C9, the code at the failing inputs.  On ["A+"], ["!"], ["("] and the
    empty string the command-line host moves its cursor beyond the
    terminator and goes on reading: what it then returns is decided by
    the bytes that follow the string in memory, not by its arguments.
    The CGI host returns on the same inputs.  Wherever the evaluation
    stays inside its string, the claim holds: the CGI host returns the
    same value from any two states of the process, and when the
    command-line host returns a value from one state, it returns that
    value from every other. *)
Theorem evaluation_beyond_the_terminator
        (expr : string) (m : mapping) (sa sb : state) :
  evaluate_expr_with_mapping CommandLine "A+" m sa = Fault ReadPastEnd /\
  evaluate_expr_with_mapping CommandLine "!" m sa = Fault ReadPastEnd /\
  evaluate_expr_with_mapping CommandLine "(" m sa = Fault ReadPastEnd /\
  evaluate_expr_with_mapping CommandLine "" m sa = Fault ReadPastEnd /\
  evaluate_boolean_expression CommandLine "A+" sa = Fault ReadPastEnd /\
  value_of (evaluate_expr_with_mapping Cgi "A+" m sa) = Ok (c_or (m "A"%char) 0) /\
  (exists v,
     value_of (evaluate_expr_with_mapping Cgi expr m sa) = Ok v /\
     value_of (evaluate_expr_with_mapping Cgi expr m sb) = Ok v) /\
  (forall v sa',
     evaluate_expr_with_mapping CommandLine expr m sa = Ok (v, sa') ->
     exists sb', evaluate_expr_with_mapping CommandLine expr m sb = Ok (v, sb')).
Proof.
  repeat (split; [reflexivity|]).
  pose proof (fun h => run_parser_value h expr (mkState m (stderr sa))
                         (mkState m (stderr sb)) eq_refl) as V.
  split.
  - specialize (V Cgi).
    fold (evaluate_expr_with_mapping Cgi expr m sa) in V.
    fold (evaluate_expr_with_mapping Cgi expr m sb) in V.
    destruct (cgi_returns expr (mkState m (stderr sa))) as (v & st' & E).
    fold (evaluate_expr_with_mapping Cgi expr m sa) in E.
    exists v. rewrite <- V, E. split; reflexivity.
  - intros v sa' E. specialize (V CommandLine).
    fold (evaluate_expr_with_mapping CommandLine expr m sa) in V.
    fold (evaluate_expr_with_mapping CommandLine expr m sb) in V.
    rewrite E in V.
    destruct (evaluate_expr_with_mapping CommandLine expr m sb)
      as [[v' sb']|f]; simpl in V; [|discriminate V].
    inversion V. subst v'. exists sb'. reflexivity.
Qed.

Lemma evaluation_beyond_the_terminator_witness :
  evaluate_expr_with_mapping CommandLine "A + B" m_FFT st0 = Ok (0, mkState m_FFT []) /\
  exists sb', evaluate_expr_with_mapping CommandLine "A + B" m_FFT st1 = Ok (0, sb').
Proof.
  split; [reflexivity|].
  destruct (evaluation_beyond_the_terminator "A + B" m_FFT st0 st1)
    as (_ & _ & _ & _ & _ & _ & _ & H).
  apply (H 0 (mkState m_FFT [])). reflexivity.
Defined.

(** ** C10 *)

(** C10, the code at the failing input.  In the command-line host the
    factor missing from the empty string is given the value 0, but the
    cursor is moved beyond the terminator, and the evaluation then reads
    past the end of the input; so does an all-whitespace input.  The CGI
    host returns 0 for both. *)
Theorem empty_input
        : parse_factor CommandLine 1 (At "") st1 = Ok (0, Beyond, st1) /\
          evaluate_boolean_expression CommandLine "" st0 = Fault ReadPastEnd /\
          evaluate_boolean_expression CommandLine "   " st0 = Fault ReadPastEnd /\
          parse_factor Cgi 1 (At "") st1 = Ok (0, At "", st1) /\
          evaluate_boolean_expression Cgi "" st0 = Ok (0, st1) /\
          evaluate_boolean_expression Cgi "   " st0 = Ok (0, st1).
Proof. repeat split; reflexivity. Qed.

(** * Further properties of the code *)

(** ** C strings *)

Lemma c_string_no_nul (s : string) : no_nul s = true -> c_string s = s.
Proof.
  induction s as [|c r IH]; simpl; intros H; [reflexivity|].
  apply andb_prop in H. destruct H as [Hc Hr].
  rewrite Hc, IH by exact Hr. reflexivity.
Qed.

Lemma c_string_idem (s : string) : c_string (c_string s) = c_string s.
Proof.
  induction s as [|c r IH]; simpl; [reflexivity|].
  destruct (nonzero c) eqn:E; simpl; [rewrite E, IH|]; reflexivity.
Qed.

Lemma no_nul_c_string (s : string) : no_nul (c_string s) = true.
Proof.
  induction s as [|c r IH]; simpl; [reflexivity|].
  destruct (nonzero c) eqn:E; simpl; [rewrite E; exact IH | reflexivity].
Qed.

Lemma c_string_app_nul (a b : string) :
  c_string (a ++ String NUL b) = c_string a.
Proof.
  induction a as [|c r IH]; simpl; [reflexivity|].
  destruct (nonzero c); [rewrite IH|]; reflexivity.
Qed.

Lemma no_nul_app (a b : string) :
  no_nul (a ++ b) = no_nul a && no_nul b.
Proof.
  induction a as [|c r IH]; simpl; [reflexivity|].
  rewrite IH, andb_assoc. reflexivity.
Qed.

Lemma occurs_app (x : ascii) (a b : string) :
  occurs x (a ++ b) = occurs x a || occurs x b.
Proof.
  induction a as [|c r IH]; simpl; [reflexivity|].
  rewrite IH, orb_assoc. reflexivity.
Qed.

(** ** [url_decode] *)

Lemma url_decode_copy (c : ascii) (r : string) :
  nonzero c = true -> Ascii.eqb c "+" = false -> Ascii.eqb c "%" = false ->
  url_decode (String c r) = String c (url_decode r).
Proof.
  intros Hz Hp Hq. cbn [url_decode]. rewrite Hz, Hp, Hq.
  destruct r as [|h [|l r']]; reflexivity.
Qed.

Lemma url_decode_plus (r : string) :
  url_decode (String "+" r) = String " " (url_decode r).
Proof. reflexivity. Qed.

Lemma url_decode_escape (h l : ascii) (r : string) :
  isxdigit h = true -> isxdigit l = true ->
  url_decode (String "%" (String h (String l r)))
  = String (hex_byte h l) (url_decode r).
Proof.
  intros Hh Hl. cbn [url_decode]. rewrite Hh, Hl. reflexivity.
Qed.

Lemma url_decode_percent_literal (r : string) :
  isxdigit (next_byte r) = false ->
  url_decode (String "%" r) = String "%" (url_decode r).
Proof.
  intros H. destruct r as [|h [|l r']]; try reflexivity.
  simpl in H. cbn [url_decode]. rewrite H. reflexivity.
Qed.

Lemma xdigit_nonzero (c : ascii) : isxdigit c = true -> nonzero c = true.
Proof.
  destruct c as [[] [] [] [] [] [] [] []]; vm_compute; intros H;
    try discriminate H; reflexivity.
Qed.

(** One step of the loop, whatever the byte: the output grows by one byte
    and the input shrinks by one or three. *)
Lemma url_decode_step (c : ascii) (r : string) :
  nonzero c = true ->
  (exists x, url_decode (String c r) = String x (url_decode r)) \/
  (exists h l r', r = String h (String l r') /\
                  isxdigit h = true /\ isxdigit l = true /\
                  url_decode (String c r) = String (hex_byte h l) (url_decode r')).
Proof.
  intros Hz. cbn [url_decode]. rewrite Hz.
  destruct (Ascii.eqb c "+"); [left; eexists; reflexivity|].
  destruct r as [|h [|l r']]; try (left; eexists; reflexivity).
  destruct (Ascii.eqb c "%"); [|left; eexists; reflexivity].
  destruct (isxdigit h) eqn:Xh; [|left; eexists; reflexivity].
  destruct (isxdigit l) eqn:Xl; [|left; eexists; reflexivity].
  right. exists h, l, r'. repeat split; auto.
Qed.

Lemma url_decode_length_le (n : nat) :
  forall src, (String.length src <= n)%nat ->
              (String.length (url_decode src) <= String.length (c_string src))%nat.
Proof.
  induction n as [|n IH]; intros src Hn.
  - destruct src; simpl in *; lia.
  - destruct src as [|c r]; [simpl; lia|].
    cbn [c_string].
    destruct (nonzero c) eqn:Hz; [|cbn [url_decode]; rewrite Hz; simpl; lia].
    simpl in Hn.
    destruct (url_decode_step c r Hz)
      as [(x & E) | (h & l & r' & -> & Xh & Xl & E)]; rewrite E.
    + specialize (IH r ltac:(lia)). simpl. lia.
    + simpl in Hn. specialize (IH r' ltac:(lia)).
      cbn [c_string]. rewrite (xdigit_nonzero h Xh), (xdigit_nonzero l Xl).
      simpl. lia.
Qed.

Lemma hex_digits_round_trip (c : ascii) :
  isxdigit (hex_digit (code c / 16)) = true /\
  isxdigit (hex_digit (code c mod 16)) = true /\
  hex_byte (hex_digit (code c / 16)) (hex_digit (code c mod 16)) = c.
Proof.
  destruct c as [[] [] [] [] [] [] [] []]; vm_compute; repeat split.
Qed.

Lemma unreserved_plain (c : ascii) :
  unreserved c = true ->
  nonzero c = true /\ Ascii.eqb c "+" = false /\ Ascii.eqb c "%" = false /\
  Ascii.eqb c "&" = false.
Proof.
  destruct c as [[] [] [] [] [] [] [] []]; vm_compute; intros H;
    try discriminate H; repeat split.
Qed.

Lemma url_decode_app_exact (n : nat) :
  forall a b,
    (String.length a <= n)%nat ->
    no_nul a = true ->
    isxdigit (next_byte b) = false ->
    url_decode (a ++ b) = url_decode a ++ url_decode b.
Proof.
  induction n as [|n IH]; intros a b Hn Ha Hb.
  - destruct a; simpl in *; [reflexivity | lia].
  - destruct a as [|c a1]; [reflexivity|].
    simpl in Hn, Ha. apply andb_prop in Ha. destruct Ha as [Hz Ha1].
    change (String c a1 ++ b) with (String c (a1 ++ b)).
    destruct (Ascii.eqb c "+") eqn:Ep.
    { apply Ascii.eqb_eq in Ep. subst c. rewrite !url_decode_plus.
      simpl. rewrite IH by (auto; lia). reflexivity. }
    destruct (Ascii.eqb c "%") eqn:Eq.
    2:{ rewrite !url_decode_copy by assumption. simpl.
        rewrite IH by (auto; lia). reflexivity. }
    apply Ascii.eqb_eq in Eq. subst c.
    destruct a1 as [|h a2].
    { (* the percent sign is the last byte of [a] *)
      change (EmptyString ++ b) with b.
      rewrite url_decode_percent_literal by exact Hb. reflexivity. }
    simpl in Hn, Ha1. apply andb_prop in Ha1. destruct Ha1 as [Hh Ha2].
    destruct (isxdigit h) eqn:Xh.
    2:{ rewrite (url_decode_percent_literal (String h a2 ++ b)) by exact Xh.
        rewrite (url_decode_percent_literal (String h a2)) by exact Xh.
        change (String "%" (url_decode (String h a2 ++ b))
                = String "%" (url_decode (String h a2) ++ url_decode b)).
        f_equal.
        apply IH; simpl; auto; try lia. rewrite Hh, Ha2. reflexivity. }
    destruct a2 as [|l a3].
    { (* one digit only before the end of [a] *)
      change (String h "" ++ b) with (String h b).
      assert (E1 : url_decode (String "%" (String h b))
                   = String "%" (url_decode (String h b))).
      { destruct b as [|x b']; [reflexivity|].
        simpl in Hb. cbn [url_decode]. rewrite Xh, Hb. reflexivity. }
      rewrite E1.
      change (String h b) with (String h "" ++ b).
      rewrite (IH (String h "") b) by (simpl; auto; try lia; rewrite Hh; reflexivity).
      reflexivity. }
    simpl in Hn, Ha2. apply andb_prop in Ha2. destruct Ha2 as [Hl Ha3].
    change (String h (String l a3) ++ b) with (String h (String l (a3 ++ b))).
    destruct (isxdigit l) eqn:Xl.
    + rewrite !url_decode_escape by assumption. simpl.
      rewrite IH by (auto; lia). reflexivity.
    + assert (E1 : forall t, url_decode (String "%" (String h (String l t)))
                             = String "%" (url_decode (String h (String l t)))).
      { intros t. cbn [url_decode]. rewrite Xh, Xl. reflexivity. }
      rewrite !E1.
      change (String "%" (url_decode (String h (String l a3) ++ b))
              = String "%" (url_decode (String h (String l a3)) ++ url_decode b)).
      f_equal.
      apply IH; simpl; auto; try lia. rewrite Hh, Hl, Ha3. reflexivity.
Qed.

(** X1.  The decoded text is never longer than the encoded C string: it
    fits, with its terminator, the buffer of [strlen(src) + 1] bytes that
    [url_decode] allocates. *)
Theorem url_decode_fits (src : string) :
  (String.length (url_decode src) <= String.length (c_string src))%nat.
Proof. apply (url_decode_length_le (String.length src)). apply le_n. Qed.

(** X2.  On an input without ['%'], [url_decode] only turns every ['+']
    into a space; no ['+'] is left in the output. *)
Theorem url_decode_without_percent (src : string)
        (H : occurs "%" src = false) :
  url_decode src = plus_to_space (c_string src) /\
  occurs "+" (url_decode src) = false.
Proof.
  assert (E : url_decode src = plus_to_space (c_string src)).
  { induction src as [|c r IH]; [reflexivity|].
    simpl in H. apply orb_false_elim in H. destruct H as [Hc Hr].
    cbn [c_string]. destruct (nonzero c) eqn:Hz;
      [|cbn [url_decode]; rewrite Hz; reflexivity].
    cbn [plus_to_space].
    destruct (Ascii.eqb c "+") eqn:Ep.
    - apply Ascii.eqb_eq in Ep. subst c. rewrite url_decode_plus, IH by exact Hr.
      reflexivity.
    - rewrite url_decode_copy, IH by assumption. reflexivity. }
  split; [exact E|]. rewrite E. clear.
  induction (c_string src) as [|c r IH]; [reflexivity|].
  simpl. rewrite IH, orb_false_r.
  destruct (Ascii.eqb c "+") eqn:Ep; [reflexivity | exact Ep].
Qed.

Lemma url_decode_without_percent_witness :
  occurs "%" "A + B" = false /\
  url_decode "A + B" = plus_to_space (c_string "A + B") /\
  occurs "+" (url_decode "A + B") = false.
Proof.
  split; [reflexivity|].
  apply (url_decode_without_percent "A + B"). reflexivity.
Defined.

Lemma decode_encode (s : string) : url_decode (encode_uri_component s) = s.
Proof.
  induction s as [|c r IH]; [reflexivity|].
  cbn [encode_uri_component].
  destruct (unreserved c) eqn:U.
  - destruct (unreserved_plain c U) as (Hz & Hp & Hq & _).
    rewrite url_decode_copy, IH by assumption. reflexivity.
  - destruct (hex_digits_round_trip c) as (Hh & Hl & E).
    rewrite url_decode_escape, IH, E by assumption. reflexivity.
Qed.

(** X3.  [url_decode] undoes [encodeURIComponent]: every byte string,
    encoded by the client, is decoded to itself. *)
Theorem url_decode_encode_uri_component (s : string) :
  url_decode (encode_uri_component s) = s.
Proof. exact (decode_encode s). Qed.

Lemma decode_app (a b : string) :
  no_nul a = true -> isxdigit (next_byte b) = false ->
  url_decode (a ++ b) = url_decode a ++ url_decode b.
Proof. intros Ha Hb. apply (url_decode_app_exact (String.length a)); auto. Qed.

(** X4.  Decoding is compositional at every point where the second part
    does not start with a hexadecimal digit: no escape runs across such a
    point. *)
Theorem url_decode_app (a b : string)
        (Ha : no_nul a = true) (Hb : isxdigit (next_byte b) = false) :
  url_decode (a ++ b) = url_decode a ++ url_decode b.
Proof. exact (decode_app a b Ha Hb). Qed.

Lemma url_decode_app_witness :
  no_nul "A%2" = true /\ isxdigit (next_byte "+B") = false /\
  url_decode ("A%2" ++ "+B") = url_decode "A%2" ++ url_decode "+B".
Proof.
  split; [reflexivity|]. split; [reflexivity|].
  apply (url_decode_app "A%2" "+B"); reflexivity.
Defined.

(** X5.  An escape [%00] ends the decoded C string: whatever follows it in
    the query is not part of the expression that is evaluated. *)
Theorem url_decode_nul_escape (a b : string) (Ha : no_nul a = true) :
  c_string (url_decode (a ++ "%00" ++ b)) = c_string (url_decode a).
Proof.
  rewrite decode_app by (auto; reflexivity).
  change ("%00" ++ b) with (String "%" (String "0" (String "0" b))).
  rewrite url_decode_escape by reflexivity.
  change (hex_byte "0" "0") with NUL.
  apply c_string_app_nul.
Qed.

Lemma url_decode_nul_escape_witness :
  no_nul "A" = true /\
  c_string (url_decode ("A" ++ "%00" ++ "+B")) = c_string (url_decode "A").
Proof.
  split; [reflexivity|]. apply (url_decode_nul_escape "A" "+B"). reflexivity.
Defined.

(** ** [get_query_param] *)

Lemma c_string_app (a b : string) :
  no_nul a = true -> c_string (a ++ b) = a ++ c_string b.
Proof.
  induction a as [|c r IH]; simpl; intros H; [reflexivity|].
  apply andb_prop in H. destruct H as [Hc Hr].
  rewrite Hc, IH by exact Hr. reflexivity.
Qed.

Lemma tokens_from_app (t : string) :
  forall s tok,
    occurs "&" t = false ->
    tokens_from (t ++ s) tok = tokens_from s (tok ++ t).
Proof.
  induction t as [|c t IH]; intros s tok H.
  - rewrite append_nil_r. reflexivity.
  - simpl in H. apply orb_false_elim in H. destruct H as [Hc Ht].
    simpl. rewrite Hc, IH by exact Ht.
    rewrite append_assoc. reflexivity.
Qed.

Lemma tokens_cons (t q : string) :
  occurs "&" t = false -> no_nul t = true -> t <> "" ->
  tokens (t ++ "&" ++ q) = t :: tokens q.
Proof.
  intros Ht Hz Hne. unfold tokens.
  rewrite c_string_app by exact Hz.
  rewrite tokens_from_app by exact Ht.
  destruct t as [|c t]; [contradiction Hne; reflexivity | reflexivity].
Qed.

Lemma tokens_last (t : string) :
  occurs "&" t = false -> no_nul t = true -> t <> "" ->
  tokens t = [t].
Proof.
  intros Ht Hz Hne. unfold tokens.
  rewrite c_string_no_nul by exact Hz.
  rewrite <- (append_nil_r t) at 1.
  rewrite tokens_from_app by exact Ht.
  destruct t as [|c t]; [contradiction Hne; reflexivity | reflexivity].
Qed.

Lemma strip_prefix_app (p x : string) : strip_prefix p (p ++ x) = Some x.
Proof.
  induction p as [|a p IH]; simpl; [reflexivity|].
  rewrite Ascii.eqb_refl. exact IH.
Qed.

Lemma strip_prefix_inv (p : string) :
  forall t x, strip_prefix p t = Some x -> t = p ++ x.
Proof.
  induction p as [|a p IH]; intros t x H; simpl in H.
  - inversion H. reflexivity.
  - destruct t as [|b t]; [discriminate H|].
    destruct (Ascii.eqb a b) eqn:E; [|discriminate H].
    apply Ascii.eqb_eq in E. subst b. simpl. f_equal. apply IH. exact H.
Qed.

Lemma param_value_hit (k v : string) : param_value k (k ++ "=" ++ v) = Some v.
Proof. unfold param_value. rewrite strip_prefix_app. reflexivity. Qed.

Lemma param_value_inv (k t v : string) :
  param_value k t = Some v -> t = k ++ "=" ++ v.
Proof.
  unfold param_value. intros H.
  destruct (strip_prefix k t) as [[|c x]|] eqn:E; try discriminate H.
  destruct (Ascii.eqb c "=") eqn:Ec; [|discriminate H].
  apply Ascii.eqb_eq in Ec. subst c. inversion H. subst x.
  apply strip_prefix_inv. exact E.
Qed.

Lemma pair_not_empty (k v : string) : k ++ "=" ++ v <> "".
Proof. destruct k; discriminate. Qed.

Lemma tokens_from_sound (s : string) :
  forall tok t,
    occurs "&" tok = false -> no_nul tok = true -> no_nul s = true ->
    In t (tokens_from s tok) ->
    occurs "&" t = false /\ no_nul t = true.
Proof.
  induction s as [|c r IH]; intros tok t Htok Hz Hs Hin.
  - simpl in Hin. destruct tok; [contradiction|].
    destruct Hin as [<- | []]. split; assumption.
  - simpl in Hs. apply andb_prop in Hs. destruct Hs as [Hc Hr].
    simpl in Hin. destruct (Ascii.eqb c "&") eqn:E.
    + destruct tok.
      * apply (IH "" t); auto.
      * destruct Hin as [<- | Hin]; [split; assumption|].
        apply (IH "" t); auto.
    + apply (IH (tok ++ String c "") t); auto.
      * rewrite occurs_app, Htok. simpl. rewrite E. reflexivity.
      * rewrite no_nul_app, Hz. simpl. rewrite Hc. reflexivity.
Qed.

Lemma first_value_inv (k : string) (toks : list string) (v : string) :
  first_value k toks = Some v -> In (k ++ "=" ++ v) toks.
Proof.
  induction toks as [|t toks IH]; simpl; intros H; [discriminate H|].
  destruct (param_value k t) as [x|] eqn:E.
  - inversion H. subst x. left. apply param_value_inv. exact E.
  - right. apply IH. exact H.
Qed.

Lemma get_query_param_pair (k v rest : string) :
  occurs "&" k = false -> no_nul k = true ->
  occurs "&" v = false -> no_nul v = true ->
  get_query_param (k ++ "=" ++ v) k = Some v /\
  get_query_param (k ++ "=" ++ v ++ "&" ++ rest) k = Some v.
Proof.
  intros Hk Hkz Hv Hvz.
  assert (Ht : occurs "&" (k ++ "=" ++ v) = false).
  { rewrite occurs_app, Hk. simpl. exact Hv. }
  assert (Hz : no_nul (k ++ "=" ++ v) = true).
  { rewrite no_nul_app, Hkz. simpl. exact Hvz. }
  unfold get_query_param. rewrite (c_string_no_nul k) by exact Hkz. split.
  - rewrite tokens_last by (auto using pair_not_empty).
    cbn [first_value]. rewrite param_value_hit. reflexivity.
  - replace (k ++ "=" ++ v ++ "&" ++ rest) with ((k ++ "=" ++ v) ++ "&" ++ rest)
      by (rewrite !append_assoc; reflexivity).
    rewrite tokens_cons by (auto using pair_not_empty).
    cbn [first_value]. rewrite param_value_hit. reflexivity.
Qed.

Lemma get_query_param_pass (t q k : string) :
  occurs "&" t = false -> no_nul t = true ->
  param_value (c_string k) t = None ->
  get_query_param (t ++ "&" ++ q) k = get_query_param q k.
Proof.
  intros Ht Hz Hno. unfold get_query_param.
  destruct t as [|c t'].
  - reflexivity.
  - rewrite tokens_cons by (auto; discriminate).
    cbn [first_value]. rewrite Hno. reflexivity.
Qed.

(** X6.  Lookup of a pair: when the query starts with [k=v], followed by
    the end or by ['&'], the value found for [k] is [v], whatever pairs
    follow, those for the same key included. *)
Theorem get_query_param_first (k v rest : string)
        (Hk : occurs "&" k = false) (Hkz : no_nul k = true)
        (Hv : occurs "&" v = false) (Hvz : no_nul v = true) :
  get_query_param (k ++ "=" ++ v) k = Some v /\
  get_query_param (k ++ "=" ++ v ++ "&" ++ rest) k = Some v.
Proof. apply get_query_param_pair; assumption. Qed.

Lemma get_query_param_first_witness :
  occurs "&" "expr" = false /\ no_nul "expr" = true /\
  occurs "&" "A%2BB" = false /\ no_nul "A%2BB" = true /\
  get_query_param ("expr" ++ "=" ++ "A%2BB") "expr" = Some "A%2BB" /\
  get_query_param ("expr" ++ "=" ++ "A%2BB" ++ "&" ++ "expr=0") "expr"
  = Some "A%2BB".
Proof.
  repeat (split; [reflexivity|]).
  apply (get_query_param_first "expr" "A%2BB" "expr=0"); reflexivity.
Defined.

(** X7.  A first token that is not [k=...] is passed over: a pair for
    another key, a key without ['='], a key that only starts with [k], or
    nothing at all before an ['&']. *)
Theorem get_query_param_skip (t q k : string)
        (Ht : occurs "&" t = false) (Hz : no_nul t = true)
        (Hno : param_value (c_string k) t = None) :
  get_query_param (t ++ "&" ++ q) k = get_query_param q k.
Proof. apply get_query_param_pass; assumption. Qed.

Lemma get_query_param_skip_witness :
  occurs "&" "expression=1" = false /\ no_nul "expression=1" = true /\
  param_value (c_string "expr") "expression=1" = None /\
  get_query_param ("expression=1" ++ "&" ++ "expr=A") "expr"
  = get_query_param "expr=A" "expr".
Proof.
  repeat (split; [reflexivity|]).
  apply (get_query_param_skip "expression=1" "expr=A" "expr"); reflexivity.
Defined.

(** X8.  What is found was there: a value returned for [k] has no ['&'],
    and [k=value] is one of the tokens of the query. *)
Theorem get_query_param_sound (query k v : string)
        (H : get_query_param query k = Some v) :
  In (c_string k ++ "=" ++ v) (tokens query) /\
  occurs "&" v = false /\ no_nul v = true.
Proof.
  unfold get_query_param in H. apply first_value_inv in H.
  split; [exact H|].
  destruct (tokens_from_sound (c_string query) "" _ eq_refl eq_refl
              (no_nul_c_string query) H) as [Ha Hz].
  rewrite occurs_app in Ha. apply orb_false_elim in Ha. destruct Ha as [_ Ha].
  rewrite no_nul_app in Hz. apply andb_prop in Hz. destruct Hz as [_ Hz].
  simpl in Ha, Hz. split; assumption.
Qed.

Lemma get_query_param_sound_witness :
  get_query_param "mode=tt&expr=A" "expr" = Some "A" /\
  In (c_string "expr" ++ "=" ++ "A") (tokens "mode=tt&expr=A") /\
  occurs "&" "A" = false /\ no_nul "A" = true.
Proof.
  split; [reflexivity|].
  apply (get_query_param_sound "mode=tt&expr=A" "expr" "A"). reflexivity.
Defined.

(** ** The parser against the evaluator of the specification *)

(** X9.  On the sentences without ['·'], the parser is the evaluator of
    the specification: for every assignment of truth values, either host
    returns the value of the tree of the sentence, NOT binding tighter
    than OR, OR associating to the left and parentheses grouping, and
    writes nothing to [stderr]. *)
Theorem parser_evaluates_tree
        (h : host) (s : sentence) (a : ascii -> bool) (st : state)
        (Hwf : wf s = true) (Hfree : and_free_expression (body s) = true) :
  evaluate_expr_with_mapping h (render s) (mapping_of a) st
  = Ok (Z.b2z (evaluate (tree_expression (body s)) a),
        mkState (mapping_of a) (stderr st)).
Proof.
  rewrite evaluate_sentence by exact Hwf.
  destruct (reading_tree a) as (_ & _ & _ & He & _).
  rewrite He by exact Hfree. simpl. rewrite app_nil_r. reflexivity.
Qed.

Lemma parser_evaluates_tree_witness :
  wf (mkSentence " " (Expr (Term (FNot "" (FVar "A")) TNil)
                        (ECons " " " " (Term (FVar "B") TNil) ENil)) "") = true /\
  evaluate_expr_with_mapping Cgi " !A + B" (mapping_of (fun _ => true)) st0
  = Ok (Z.b2z (evaluate (Or (Not (Var "A")) (Var "B")) (fun _ => true)),
        mkState (mapping_of (fun _ => true)) []).
Proof.
  split; [reflexivity|].
  apply (parser_evaluates_tree Cgi
           (mkSentence " " (Expr (Term (FNot "" (FVar "A")) TNil)
                              (ECons " " " " (Term (FVar "B") TNil) ENil)) "")
           (fun _ => true) st0); reflexivity.
Defined.

(** ** What follows a middle dot *)

Lemma run_parser_closing (h : host) (s : sentence) (k : string) (st : state) :
  wf s = true -> closing (trail s ++ k) = true ->
  run_parser h (render s ++ k) st
  = Ok (value (read_expression (g_var_mapping st) (body s)),
        mkState (g_var_mapping st)
          (stderr st ++ messages (read_expression (g_var_mapping st) (body s)))%list).
Proof.
  intros Hwf Hc. unfold wf in Hwf.
  apply andb_prop in Hwf. destruct Hwf as [Hwf Htrail].
  apply andb_prop in Hwf. destruct Hwf as [Hlead Hbody].
  pose proof (run_parser_terminates h (render s ++ k) st) as Hterm.
  unfold run_parser in *.
  destruct (conformance h) as (_ & _ & _ & He & _).
  destruct (He (body s) Hbody (fuel_for (render s ++ k)) (render s ++ k)
              (trail s ++ k) st Hc) as [E | (rest & E & _)].
  - unfold render. rewrite !append_assoc. rewrite skip_ws_space by exact Hlead.
    apply skip_ws_expression. exact Hbody.
  - rewrite E in Hterm. contradiction.
  - rewrite E. reflexivity.
Qed.

(** X10.  The text from a middle dot that follows a sentence is never
    looked at: whatever stands there, operands, operators or garbage, the
    evaluation returns what it returns for the sentence alone. *)
Theorem text_after_middle_dot_is_ignored
        (h : host) (s : sentence) (junk : string) (m : mapping) (st : state)
        (Hwf : wf s = true) :
  evaluate_expr_with_mapping h (render s ++ middle_dot ++ junk) m st
  = evaluate_expr_with_mapping h (render s) m st.
Proof.
  unfold evaluate_expr_with_mapping.
  rewrite run_parser_closing, run_parser_sentence; auto.
  unfold wf in Hwf.
  apply andb_prop in Hwf. destruct Hwf as [_ Htrail].
  unfold closing. rewrite skip_ws_space by exact Htrail. reflexivity.
Qed.

Lemma text_after_middle_dot_is_ignored_witness :
  wf (variable_alone "A") = true /\
  evaluate_expr_with_mapping CommandLine
    (render (variable_alone "A") ++ middle_dot ++ " 0 $ ((") all_true st0
  = evaluate_expr_with_mapping CommandLine (render (variable_alone "A")) all_true st0.
Proof.
  split; [reflexivity|].
  apply (text_after_middle_dot_is_ignored CommandLine (variable_alone "A")
           " 0 $ ((" all_true st0).
  reflexivity.
Defined.

(** ** What the parser does to the process state *)

Lemma reports_mono {A} (b b' : nat) st (o : outcome (A * cursor * state)) :
  reports b st o -> (b <= b')%nat -> reports b' st o.
Proof.
  destruct o as [[[a p] s]|f]; simpl; auto.
  intros (Hg & n & Hs & Hn) L. split; [exact Hg|]. exists n. split; [exact Hs | lia].
Qed.

Lemma reports_bind {A B} (c d : nat) (m : P A) (k : A -> P B) p st :
  reports c st (m p st) ->
  (forall a p' st', reports (count_open_at p' + d) st' (k a p' st')) ->
  reports (c + d) st (bind m k p st).
Proof.
  unfold bind. destruct (m p st) as [[[a p'] st']|f]; simpl; auto.
  intros (Hg & n & Hs & Hn) K. specialize (K a p' st').
  destruct (k a p' st') as [[[b p''] st'']|f]; simpl in *; auto.
  destruct K as (Hg' & n' & Hs' & Hn').
  split; [congruence|]. exists (n + n')%nat. split.
  - rewrite Hs', Hs, <- app_assoc, repeat_app. reflexivity.
  - lia.
Qed.

Lemma reports_bind0 {A B} (c : nat) (m : P A) (k : A -> P B) p st :
  reports c st (m p st) ->
  (forall a p' st', reports (count_open_at p') st' (k a p' st')) ->
  reports c st (bind m k p st).
Proof.
  intros Hm K. rewrite <- (Nat.add_0_r c). apply reports_bind; [exact Hm|].
  intros a p' st'. rewrite Nat.add_0_r. apply K.
Qed.

Lemma reports_here {A} (a : A) p st : reports (count_open_at p) st (Ok (a, p, st)).
Proof.
  simpl. split; [reflexivity|]. exists O. simpl. rewrite app_nil_r. split; [reflexivity | lia].
Qed.

Lemma count_open_skip_ws (s : string) : (count_open (skip_ws s) <= count_open s)%nat.
Proof.
  induction s as [|c r IH]; simpl; [lia|].
  destruct (nonzero c && isspace c); simpl; lia.
Qed.

Lemma count_open_incr (p : cursor) : (count_open_at (incr p) <= count_open_at p)%nat.
Proof.
  destruct p as [[|c r]|]; simpl; try lia.
  destruct (nonzero c); simpl; lia.
Qed.

Lemma count_open_incr_paren (p : cursor) (c : ascii) :
  deref p = Some c -> Ascii.eqb c "(" = true ->
  (count_open_at (incr p) + 1 <= count_open_at p)%nat.
Proof.
  destruct p as [[|x r]|]; simpl; intros D E; inversion D; subst.
  - discriminate E.
  - rewrite E. destruct (nonzero c); simpl; lia.
Qed.

Lemma reports_skip_whitespace p st :
  reports (count_open_at p) st (skip_whitespace p st).
Proof.
  destruct p as [s|]; simpl; auto.
  split; [reflexivity|]. exists O. simpl. rewrite app_nil_r.
  split; [reflexivity|]. pose proof (count_open_skip_ws s). lia.
Qed.

Lemma reports_advance p st : reports (count_open_at p) st (advance p st).
Proof.
  simpl. split; [reflexivity|]. exists O. simpl. rewrite app_nil_r.
  split; [reflexivity|]. pose proof (count_open_incr p). lia.
Qed.

Lemma reports_unrecognized h p st :
  reports (count_open_at p) st (unrecognized h p st).
Proof. destruct h; [apply reports_advance | apply reports_here]. Qed.

Lemma reports_peek {B} c (k : ascii -> P B) p st :
  (forall x, deref p = Some x -> reports c st (k x p st)) ->
  reports c st (bind peek k p st).
Proof.
  intros H. unfold bind, peek. destruct (deref p) as [x|]; simpl; auto.
Qed.

Lemma reports_then_advance {B} (k : P B) p st :
  (forall p' st', reports (count_open_at p') st' (k p' st')) ->
  reports (count_open_at p) st (bind advance (fun _ => k) p st).
Proof.
  intros K. apply reports_bind0; [apply reports_advance|]. intros [] p' st'. apply K.
Qed.

Lemma reports_then_skip {B} (k : P B) p st :
  (forall p' st', reports (count_open_at p') st' (k p' st')) ->
  reports (count_open_at p) st (bind skip_whitespace (fun _ => k) p st).
Proof.
  intros K. apply reports_bind0; [apply reports_skip_whitespace|].
  intros [] p' st'. apply K.
Qed.

Lemma parser_reports (h : host) (fuel : nat) :
  (forall p st, reports (count_open_at p) st (parse_expression h fuel p st)) /\
  (forall v p st, reports (count_open_at p) st (parse_expression_loop h fuel v p st)) /\
  (forall p st, reports (count_open_at p) st (parse_term h fuel p st)) /\
  (forall v p st, reports (count_open_at p) st (parse_term_loop h fuel v p st)) /\
  (forall p st, reports (count_open_at p) st (parse_factor h fuel p st)).
Proof.
  induction fuel as [|f (IHe & IHel & IHt & IHtl & IHf)].
  { repeat split; intros; exact I. }
  repeat split; intros.
  - rewrite parse_expression_S.
    apply reports_bind0; [apply IHt|]. intros a p1 s1.
    apply reports_then_skip. intros p2 s2. apply IHel.
  - rewrite parse_expression_loop_S.
    apply reports_peek. intros c _.
    destruct (Ascii.eqb c "+"); [|apply reports_here].
    apply reports_then_advance. intros p1 s1.
    apply reports_then_skip. intros p2 s2.
    apply reports_bind0; [apply IHt|]. intros a p3 s3.
    apply reports_then_skip. intros p4 s4. apply IHel.
  - rewrite parse_term_S.
    apply reports_bind0; [apply IHf|]. intros a p1 s1.
    apply reports_then_skip. intros p2 s2. apply IHtl.
  - rewrite parse_term_loop_S.
    apply reports_peek. intros c _.
    destruct (is_middle_dot c); [|apply reports_here].
    apply reports_then_advance. intros p1 s1.
    apply reports_then_skip. intros p2 s2.
    apply reports_bind0; [apply IHf|]. intros a p3 s3.
    apply reports_then_skip. intros p4 s4. apply IHtl.
  - rewrite parse_factor_S.
    apply reports_then_skip. intros p1 s1.
    apply reports_peek. intros c D.
    destruct (Ascii.eqb c "!").
    { apply reports_then_advance. intros p2 s2.
      apply reports_bind0; [apply IHf|]. intros a p3 s3. apply reports_here. }
    destruct (Ascii.eqb c "(") eqn:E.
    { pose proof (count_open_incr_paren p1 c D E) as L.
      unfold bind at 1. unfold advance at 1.
      apply (reports_mono (count_open_at (incr p1) + 1)); [|exact L].
      apply reports_bind; [apply IHe|]. intros v p3 s3.
      apply (reports_mono (count_open_at p3 + 1)); [|lia].
      apply reports_bind; [apply reports_skip_whitespace|]. intros [] p4 s4.
      apply reports_peek. intros c' _.
      destruct (Ascii.eqb c' ")").
      - apply (reports_mono (count_open_at p4)); [|lia].
        apply reports_then_advance. intros p5 s5. apply reports_here.
      - unfold bind, eprint, ret. simpl. split; [reflexivity|].
        exists 1%nat. split; [reflexivity | lia]. }
    destruct (isdigit c).
    { apply reports_then_advance. intros p2 s2. apply reports_here. }
    destruct (isalpha c).
    { apply reports_then_advance. intros p2 s2.
      unfold lookup_var. apply reports_here. }
    apply reports_bind0; [apply reports_unrecognized|]. intros [] p2 s2.
    apply reports_here.
Qed.

(** X11.  The effect of an evaluation on the process: when it returns, the
    global table holds the mapping that was passed (all 1 for
    [evaluate_boolean_expression]), and [stderr] has grown by lines
    "Error: Missing closing parenthesis." only, at most one for each ['(']
    of the expression; an expression without ['('] writes nothing. *)
Theorem evaluation_effect
        (h : host) (expr : string) (m : mapping) (st st' : state) (v : Z)
        (H : evaluate_expr_with_mapping h expr m st = Ok (v, st')) :
  g_var_mapping st' = m /\
  exists n, stderr st' = (stderr st ++ repeat MISSING_PAREN n)%list /\
            (n <= count_open expr)%nat.
Proof.
  unfold evaluate_expr_with_mapping, run_parser in H.
  destruct (parser_reports h (fuel_for expr)) as (He & _).
  specialize (He (At expr) (mkState m (stderr st))).
  destruct (parse_expression h (fuel_for expr) (At expr) (mkState m (stderr st)))
    as [[[x p] s]|f]; [|discriminate H].
  inversion H. subst x s. simpl in He.
  destruct He as (Hg & n & Hs & Hn).
  split; [exact Hg|]. exists n. split; [exact Hs | lia].
Qed.

Lemma evaluation_effect_witness :
  evaluate_expr_with_mapping Cgi "((A" m_FFT st0
  = Ok (0, mkState m_FFT [MISSING_PAREN; MISSING_PAREN]) /\
  g_var_mapping (mkState m_FFT [MISSING_PAREN; MISSING_PAREN]) = m_FFT /\
  exists n, stderr (mkState m_FFT [MISSING_PAREN; MISSING_PAREN])
            = (stderr st0 ++ repeat MISSING_PAREN n)%list /\
            (n <= count_open "((A")%nat.
Proof.
  split; [reflexivity|].
  apply (evaluation_effect Cgi "((A" m_FFT st0
           (mkState m_FFT [MISSING_PAREN; MISSING_PAREN]) 0).
  reflexivity.
Defined.

(** ** Literals *)

(** X12.  A literal is any one digit, and its value is the number the
    digit stands for: the result of an evaluation is not always 0 or 1. *)
Theorem digit_literal (h : host) (d : ascii) (m : mapping) (st : state)
        (Hd : isdigit d = true) :
  value_of (evaluate_expr_with_mapping h (String d "") m st) = Ok (code d - 48).
Proof.
  revert Hd.
  destruct d as [[] [] [] [] [] [] [] []]; intros Hd;
    try (vm_compute in Hd; discriminate Hd);
    destruct h; reflexivity.
Qed.

Lemma digit_literal_witness :
  isdigit "7" = true /\
  value_of (evaluate_expr_with_mapping CommandLine "7" all_true st0) = Ok 7.
Proof.
  split; [reflexivity|].
  apply (digit_literal CommandLine "7"%char all_true st0). reflexivity.
Defined.

(** ** An operator at the end of the input *)

Lemma agrees_bind_inv (m : P Z) (k : Z -> P Z) p st r kk :
  agrees (m p st) st r kk ->
  bind m k p st = Fault OutOfFuel \/
  exists rest,
    stands r kk rest /\
    bind m k p st
    = k (value r) (At rest)
        (mkState (g_var_mapping st) (stderr st ++ messages r)%list).
Proof.
  intros [E | (rest & E & Hs)]; unfold bind; rewrite E.
  - left. reflexivity.
  - right. exists rest. split; [exact Hs | reflexivity].
Qed.

Lemma continues_shift h o st m1 r k :
  continues h o (mkState (g_var_mapping st) (stderr st ++ m1)%list) r k ->
  continues h o st (mkReading (value r) (halted r) (m1 ++ messages r)%list) k.
Proof.
  unfold continues. simpl. rewrite <- !app_assoc. auto.
Qed.

Lemma continues_quiet h fuel v k st :
  continues h (parse_expression_loop h fuel v (At (skip_ws k)) st) st
            (mkReading v false []) k.
Proof.
  right. right. split; [reflexivity|]. exists fuel. simpl.
  rewrite app_nil_r. destruct st; reflexivity.
Qed.

Lemma expr_tail_continues (h : host) (tl : expr_tail) :
  wf_expr_tail tl = true ->
  forall fuel v k st,
    continues h
      (parse_expression_loop h fuel v
         (At (skip_ws (render_expr_tail tl ++ k))) st)
      st (read_expr_tail (g_var_mapping st) v tl) k.
Proof.
  induction tl as [|w1 w2 t tl IH]; intros Hwf fuel v k st.
  - apply continues_quiet.
  - simpl in Hwf.
    apply andb_prop in Hwf. destruct Hwf as [Hwf Htl].
    apply andb_prop in Hwf. destruct Hwf as [Hwf Ht].
    apply andb_prop in Hwf. destruct Hwf as [Hw1 Hw2].
    destruct fuel; [left; reflexivity|].
    simpl render_expr_tail.
    rewrite !append_assoc, skip_ws_space by exact Hw1.
    simpl. unfold bind at 1. simpl. unfold bind at 1. simpl.
    unfold bind at 1. simpl.
    rewrite !append_assoc, skip_ws_space by exact Hw2.
    destruct (conformance h) as (_ & Hterm & _).
    match goal with
    | |- continues _ (bind ?m ?kk ?p ?s) _ _ _ =>
        destruct (agrees_bind_inv m kk p s
                    (read_term (g_var_mapping st) t)
                    (skip_ws (render_expr_tail tl ++ k)))
          as [E | (rest & Hr & E)]
    end.
    { apply Hterm; [exact Ht|]. rewrite skip_ws_idem. apply skip_ws_term. exact Ht. }
    { rewrite E. left. reflexivity. }
    rewrite E. clear E. unfold stands in Hr.
    unfold bind at 1. simpl.
    destruct (halted (read_term (g_var_mapping st) t)) eqn:Hh.
    + destruct Hr as (r & ->). simpl.
      match goal with
      | |- continues _ (parse_expression_loop h fuel ?x (At (String _ ?y)) ?s1) _ _ _ =>
          destruct (expression_loop_halted h fuel x y s1) as [E|E]; rewrite E
      end; [left; reflexivity|].
      right. left. simpl. split; [reflexivity|]. exists r. reflexivity.
    + subst rest. rewrite skip_ws_idem.
      apply (continues_shift h _ st (messages (read_term (g_var_mapping st) t))).
      apply (IH Htl fuel _ k
               (mkState (g_var_mapping st)
                  (stderr st ++ messages (read_term (g_var_mapping st) t))%list)).
Qed.

Lemma expression_continues (h : host) (e : expression) :
  wf_expression e = true ->
  forall fuel s k st,
    skip_ws s = render_expression e ++ k ->
    continues h (parse_expression h fuel (At s) st) st
              (read_expression (g_var_mapping st) e) k.
Proof.
  destruct e as [t tl]. intros Hwf fuel s k st Hs. simpl in Hwf.
  apply andb_prop in Hwf. destruct Hwf as [Ht Htl].
  destruct fuel; [left; reflexivity|].
  rewrite parse_expression_S. simpl in Hs. rewrite append_assoc in Hs.
  destruct (conformance h) as (_ & Hterm & _).
  match goal with
  | |- continues _ (bind ?m ?kk ?p ?s0) _ _ _ =>
      destruct (agrees_bind_inv m kk p s0
                  (read_term (g_var_mapping st) t)
                  (skip_ws (render_expr_tail tl ++ k))
                  (Hterm t Ht fuel s _ st Hs))
        as [E | (rest & Hr & E)]
  end.
  { rewrite E. left. reflexivity. }
  rewrite E. clear E. unfold stands in Hr.
  unfold bind at 1. simpl.
  destruct (halted (read_term (g_var_mapping st) t)) eqn:Hh.
  - destruct Hr as (r & ->).
    change (skip_ws (String "194" r)) with (String "194" r).
    match goal with
    | |- continues _ (parse_expression_loop h fuel ?x (At (String _ ?y)) ?s1) _ _ _ =>
        destruct (expression_loop_halted h fuel x y s1) as [E|E]; rewrite E
    end; [left; reflexivity|].
    right. left. split; [exact Hh|]. exists r. reflexivity.
  - subst rest. rewrite skip_ws_idem.
    apply (continues_shift h _ st (messages (read_term (g_var_mapping st) t))).
    apply (expr_tail_continues h tl Htl fuel _ k
             (mkState (g_var_mapping st)
                (stderr st ++ messages (read_term (g_var_mapping st) t))%list)).
Qed.

Lemma loop_on_last_plus_command_line (w : string) (fuel : nat) (v : Z) (st : state) :
  all_space w = true ->
  parse_expression_loop CommandLine fuel v (At (String "+" w)) st = Fault OutOfFuel \/
  parse_expression_loop CommandLine fuel v (At (String "+" w)) st = Fault ReadPastEnd.
Proof.
  intros Hw. destruct fuel as [|[|[|f]]]; simpl;
    unfold bind, advance, skip_whitespace, peek, ret; simpl;
    rewrite ?(skip_ws_all_space w Hw); simpl; auto.
Qed.

Lemma loop_on_last_plus_cgi (w : string) (fuel : nat) (v : Z) (st : state) :
  all_space w = true ->
  parse_expression_loop Cgi fuel v (At (String "+" w)) st = Fault OutOfFuel \/
  parse_expression_loop Cgi fuel v (At (String "+" w)) st = Ok (c_or v 0, At "", st).
Proof.
  intros Hw. destruct fuel as [|[|[|[|f]]]]; simpl;
    unfold bind, advance, skip_whitespace, peek, ret; simpl;
    rewrite ?(skip_ws_all_space w Hw); simpl; auto.
Qed.

Lemma run_parser_last_plus (h : host) (s : sentence) (w : string) (st : state) :
  wf s = true -> and_free_expression (body s) = true -> all_space w = true ->
  exists fuel',
    parse_expression h (fuel_for (render s ++ "+" ++ w)) (At (render s ++ "+" ++ w)) st
    = parse_expression_loop h fuel'
        (value (read_expression (g_var_mapping st) (body s)))
        (At (String "+" w)) st.
Proof.
  intros Hwf Hfree Hw. unfold wf in Hwf.
  apply andb_prop in Hwf. destruct Hwf as [Hwf Htrail].
  apply andb_prop in Hwf. destruct Hwf as [Hlead Hbody].
  pose proof (run_parser_terminates h (render s ++ "+" ++ w) st) as Hterm.
  unfold run_parser in Hterm.
  destruct (and_free_not_halted (g_var_mapping st)) as (_ & _ & _ & Hnh & _).
  destruct (Hnh (body s) Hfree) as [Hh Hm].
  destruct (expression_continues h (body s) Hbody
              (fuel_for (render s ++ "+" ++ w)) (render s ++ "+" ++ w)
              (trail s ++ "+" ++ w) st) as [E | [(Hh' & _) | (_ & fuel' & E)]].
  - unfold render. rewrite !append_assoc. rewrite skip_ws_space by exact Hlead.
    apply skip_ws_expression. exact Hbody.
  - rewrite E in Hterm. exfalso. apply Hterm. reflexivity.
  - congruence.
  - exists fuel'. rewrite E. rewrite Hm, app_nil_r.
    rewrite skip_ws_space by exact Htrail.
    destruct st; reflexivity.
Qed.

(** X13.  An OR with nothing after it, at the end of a sentence without
    ['·']: the command-line host steps over the terminator in search of
    the operand and reads past the end of the input; the CGI host takes
    the missing operand as 0 and returns the value of the sentence,
    reduced to 0 or 1. *)
Theorem operator_at_the_end
        (s : sentence) (w : string) (m : mapping) (st : state)
        (Hwf : wf s = true) (Hfree : and_free_expression (body s) = true)
        (Hw : all_space w = true) :
  evaluate_expr_with_mapping CommandLine (render s ++ "+" ++ w) m st
  = Fault ReadPastEnd /\
  exists v st',
    evaluate_expr_with_mapping Cgi (render s) m st = Ok (v, st') /\
    evaluate_expr_with_mapping Cgi (render s ++ "+" ++ w) m st = Ok (c_or v 0, st').
Proof.
  split.
  - unfold evaluate_expr_with_mapping.
    pose proof (run_parser_terminates CommandLine (render s ++ "+" ++ w)
                  (mkState m (stderr st))) as Hterm.
    unfold run_parser in *.
    destruct (run_parser_last_plus CommandLine s w (mkState m (stderr st))
                Hwf Hfree Hw) as (fuel' & E).
    cbn [g_var_mapping] in E. rewrite E in Hterm |- *.
    destruct (loop_on_last_plus_command_line w fuel'
                (value (read_expression m (body s))) (mkState m (stderr st)) Hw)
      as [F|F]; rewrite F in Hterm |- *; [contradiction | reflexivity].
  - rewrite evaluate_sentence by exact Hwf.
    eexists. eexists. split; [reflexivity|].
    unfold evaluate_expr_with_mapping.
    pose proof (run_parser_terminates Cgi (render s ++ "+" ++ w)
                  (mkState m (stderr st))) as Hterm.
    unfold run_parser in *.
    destruct (run_parser_last_plus Cgi s w (mkState m (stderr st))
                Hwf Hfree Hw) as (fuel' & E).
    cbn [g_var_mapping] in E. rewrite E in Hterm |- *.
    destruct (loop_on_last_plus_cgi w fuel'
                (value (read_expression m (body s))) (mkState m (stderr st)) Hw)
      as [F|F]; rewrite F in Hterm |- *; [contradiction|].
    destruct (and_free_not_halted m) as (_ & _ & _ & Hnh & _).
    destruct (Hnh (body s) Hfree) as [_ Hm]. rewrite Hm, app_nil_r.
    reflexivity.
Qed.

Lemma operator_at_the_end_witness :
  wf (variable_alone "A") = true /\
  and_free_expression (body (variable_alone "A")) = true /\
  all_space " " = true /\
  evaluate_expr_with_mapping CommandLine (render (variable_alone "A") ++ "+" ++ " ")
    all_true st0 = Fault ReadPastEnd /\
  exists v st',
    evaluate_expr_with_mapping Cgi (render (variable_alone "A")) all_true st0
    = Ok (v, st') /\
    evaluate_expr_with_mapping Cgi (render (variable_alone "A") ++ "+" ++ " ")
      all_true st0 = Ok (c_or v 0, st').
Proof.
  repeat (split; [reflexivity|]).
  apply (operator_at_the_end (variable_alone "A") " " all_true st0); reflexivity.
Defined.

(** ** The truth table on every input *)

Lemma first_occurrences_incl (l : list ascii) (x : ascii) :
  In x (first_occurrences l) -> In x l.
Proof.
  induction l as [|c l IH]; simpl; [auto|].
  intros [H | H]; [left; exact H|].
  apply filter_In in H. right. apply IH. apply H.
Qed.

Lemma variables_letters (expr : string) :
  Forall (fun c => isalpha c = true) (variables expr).
Proof.
  rewrite variables_first_occurrences. unfold variable_set.
  apply Forall_forall. intros x Hx.
  apply first_occurrences_incl in Hx. apply filter_In in Hx. apply Hx.
Qed.

(** X14.  The variables found by the scan are distinct letters, at most
    52 of them: the array [vars] of 100 bytes is never filled, and the
    test [var_count < 100] never fails. *)
Theorem variables_bound (expr : string) :
  NoDup (variables expr) /\
  Forall (fun c => isalpha c = true) (variables expr) /\
  (List.length (variables expr) <= 52)%nat.
Proof.
  split; [apply variables_NoDup|]. split; [apply variables_letters|].
  change 52%nat with (List.length letters).
  apply NoDup_incl_length; [apply variables_NoDup|].
  intros c Hc. apply isalpha_letters.
  pose proof (variables_letters expr) as H.
  rewrite Forall_forall in H. apply H. exact Hc.
Qed.

Lemma scan_variables_app (a b : string) :
  forall vars,
    no_nul a = true ->
    scan_variables (a ++ b) vars = scan_variables b (scan_variables a vars).
Proof.
  induction a as [|c a IH]; intros vars H; [reflexivity|].
  simpl in H. apply andb_prop in H. destruct H as [Hc Ha].
  simpl. rewrite Hc.
  destruct (isalpha c); [|apply IH; exact Ha].
  destruct (negb (already_present c vars) && (List.length vars <? 100)%nat);
    apply IH; exact Ha.
Qed.

(** X15.  The columns of a text that is continued: the variables of
    [a ++ b] are those of [a], in their order, followed by the variables
    of [b] that [a] does not have. *)
Theorem variables_app (a b : string) (Ha : no_nul a = true) :
  variables (a ++ b)
  = (variables a
     ++ filter (fun x => negb (already_present x (variables a))) (variables b))%list.
Proof.
  unfold variables at 1. rewrite scan_variables_app by exact Ha.
  fold (variables a).
  rewrite scan_variables_spec
    by (apply variables_NoDup || apply variables_letters).
  rewrite <- variables_first_occurrences. reflexivity.
Qed.

Lemma variables_app_witness :
  no_nul "B + A" = true /\
  variables ("B + A" ++ " + C + B")
  = (variables "B + A"
     ++ filter (fun x => negb (already_present x (variables "B + A")))
          (variables " + C + B"))%list.
Proof.
  split; [reflexivity|]. apply (variables_app "B + A" " + C + B"). reflexivity.
Defined.

Lemma table_rows_cgi (expr : string) (vars : list ascii) :
  forall todo i st,
  exists rows st',
    table_rows Cgi expr vars todo i st = Ok (rows, st') /\
    List.length rows = todo /\
    forall d, (d < todo)%nat ->
      exists r,
        nth_error rows d = Some r /\
        cells r = row_cells Cgi vars (i + Z.of_nat d) /\
        forall sx,
          value_of (evaluate_expr_with_mapping Cgi expr
                      (row_mapping vars (i + Z.of_nat d)) sx) = Ok (result r).
Proof.
  induction todo as [|todo IH]; intros i st.
  - exists [], st. repeat split. intros d Hd. lia.
  - cbn [table_rows]. unfold evaluate_expr_with_mapping at 1.
    destruct (cgi_returns expr (mkState (row_mapping vars i) (stderr st)))
      as (res & st1 & E).
    rewrite E.
    destruct (IH (i + 1) st1) as (rows & st' & E' & Hlen & Hrows).
    rewrite E'. eexists. exists st'. split; [reflexivity|].
    split; [simpl; rewrite Hlen; reflexivity|].
    intros d Hd. destruct d as [|d].
    + eexists. split; [reflexivity|]. cbn [cells result].
      rewrite Z.add_0_r. split; [reflexivity|].
      intros sx. unfold evaluate_expr_with_mapping.
      rewrite (run_parser_value Cgi expr
                 (mkState (row_mapping vars i) (stderr sx))
                 (mkState (row_mapping vars i) (stderr st)) eq_refl).
      rewrite E. reflexivity.
    + destruct (Hrows d ltac:(lia)) as (r & Hn & Hc & Hv).
      exists r. replace (i + Z.of_nat (S d)) with (i + 1 + Z.of_nat d) by lia.
      repeat split; assumption.
Qed.

Lemma cgi_table_rows (expr : string) (st : state) :
  (List.length (variables expr) <= 30)%nat ->
  let vars := variables expr in
  let n := List.length vars in
  exists rows st',
    generate_truth_table Cgi expr st = Ok (rows, st') /\
    Z.of_nat (List.length rows) = 2 ^ Z.of_nat n /\
    forall i, (i < List.length rows)%nat ->
      exists r,
        nth_error rows i = Some r /\
        cells r = map (fun j => bit i (n - 1 - j)) (seq 0 n) /\
        value_of (evaluate_expr_with_mapping Cgi expr
                    (row_mapping vars (Z.of_nat i)) st) = Ok (result r).
Proof.
  intros Hn vars n.
  assert (Hpow : 0 < 2 ^ Z.of_nat n) by (apply Z.pow_pos_nonneg; lia).
  unfold generate_truth_table. fold vars. fold n.
  rewrite shift_left_one_small by exact Hn.
  destruct (table_rows_cgi expr vars (Z.to_nat (2 ^ Z.of_nat n)) 0 st)
    as (rows & st' & E & Hlen & Hrows).
  rewrite E. exists rows, st'. split; [reflexivity|].
  split; [rewrite Hlen; lia|].
  intros i Hi. rewrite Hlen in Hi.
  destruct (Hrows i Hi) as (r & Hnth & Hc & Hv).
  exists r. rewrite Z.add_0_l in Hc, Hv.
  split; [exact Hnth|]. split; [|apply Hv].
  rewrite Hc. apply row_cells_bits. apply variables_NoDup.
Qed.

(** X16.  In the CGI host the table is produced for every input string
    with n <= 30 distinct letters, whether it conforms to the grammar or
    not: 2^n rows, row i showing for the j-th letter bit (n-1-j) of i, with
    the value the evaluation returns under the mapping of that row. *)
Theorem cgi_truth_table_total (expr : string) (st : state)
        (Hn : (List.length (variables expr) <= 30)%nat) :
  let vars := variables expr in
  let n := List.length vars in
  exists rows st',
    generate_truth_table Cgi expr st = Ok (rows, st') /\
    Z.of_nat (List.length rows) = 2 ^ Z.of_nat n /\
    forall i, (i < List.length rows)%nat ->
      exists r,
        nth_error rows i = Some r /\
        cells r = map (fun j => bit i (n - 1 - j)) (seq 0 n) /\
        value_of (evaluate_expr_with_mapping Cgi expr
                    (row_mapping vars (Z.of_nat i)) st) = Ok (result r).
Proof. apply cgi_table_rows. exact Hn. Qed.

Lemma cgi_truth_table_total_witness :
  (List.length (variables "A + ) $") <= 30)%nat /\
  let vars := variables "A + ) $" in
  let n := List.length vars in
  exists rows st',
    generate_truth_table Cgi "A + ) $" st0 = Ok (rows, st') /\
    Z.of_nat (List.length rows) = 2 ^ Z.of_nat n /\
    forall i, (i < List.length rows)%nat ->
      exists r,
        nth_error rows i = Some r /\
        cells r = map (fun j => bit i (n - 1 - j)) (seq 0 n) /\
        value_of (evaluate_expr_with_mapping Cgi "A + ) $"
                    (row_mapping vars (Z.of_nat i)) st0) = Ok (result r).
Proof.
  split; [vm_compute; lia|].
  apply (cgi_truth_table_total "A + ) $" st0). vm_compute. lia.
Defined.

Lemma table_rows_no_overflow (h : host) (expr : string) (vars : list ascii) :
  forall todo i st, table_rows h expr vars todo i st <> Fault ShiftOverflow.
Proof.
  induction todo as [|todo IH]; intros i st; cbn [table_rows]; [discriminate|].
  unfold evaluate_expr_with_mapping.
  destruct (run_parser_outcome h expr (mkState (row_mapping vars i) (stderr st)))
    as [(v & st1 & E) | E]; rewrite E; [|discriminate].
  specialize (IH (i + 1) st1).
  destruct (table_rows h expr vars todo (i + 1) st1) as [[rows st2]|f];
    [discriminate | exact IH].
Qed.

(** X17.  The table is given up for the width of [int] exactly when the
    expression has more than 30 distinct letters: 31 to 52 letters make
    [1 << var_count] overflow, in either host. *)
Theorem truth_table_overflow (h : host) (expr : string) (st : state) :
  generate_truth_table h expr st = Fault ShiftOverflow <->
  (30 < List.length (variables expr))%nat.
Proof.
  unfold generate_truth_table, shift_left_one.
  destruct (Z.ltb_spec (Z.of_nat (List.length (variables expr))) 31) as [L|L].
  - replace (0 <=? Z.of_nat (List.length (variables expr))) with true
      by (symmetry; apply Z.leb_le; lia).
    cbn [andb]. split; [|lia].
    intros H. exfalso. exact (table_rows_no_overflow _ _ _ _ _ _ H).
  - rewrite andb_false_r. split; [lia | reflexivity].
Qed.

(** ** [main] of server.c *)

Lemma hex_digit_clean (c : ascii) :
  Ascii.eqb (hex_digit (code c / 16)) "&" = false /\
  Ascii.eqb (hex_digit (code c mod 16)) "&" = false /\
  nonzero (hex_digit (code c / 16)) = true /\
  nonzero (hex_digit (code c mod 16)) = true.
Proof.
  destruct c as [[] [] [] [] [] [] [] []]; vm_compute; repeat split.
Qed.

Lemma encode_clean (e : string) :
  occurs "&" (encode_uri_component e) = false /\
  no_nul (encode_uri_component e) = true.
Proof.
  induction e as [|c r (IHa & IHz)]; [split; reflexivity|].
  cbn [encode_uri_component].
  destruct (unreserved c) eqn:U.
  - destruct (unreserved_plain c U) as (Hz & _ & _ & Ha).
    simpl. rewrite Ha, Hz, IHa, IHz. split; reflexivity.
  - destruct (hex_digit_clean c) as (A1 & A2 & Z1 & Z2).
    cbn [occurs no_nul]. rewrite A1, A2, Z1, Z2, IHa, IHz. split; reflexivity.
Qed.

Lemma empty_query_has_no_param (query k : string) :
  is_empty (c_string query) = true -> get_query_param query k = None.
Proof.
  unfold get_query_param, tokens. destruct (c_string query); [reflexivity | discriminate].
Qed.

Lemma expr_request (e : string) :
  is_empty (c_string ("expr=" ++ encode_uri_component e)) = false /\
  get_query_param ("expr=" ++ encode_uri_component e) "expr"
  = Some (encode_uri_component e) /\
  get_query_param ("expr=" ++ encode_uri_component e) "mode" = None.
Proof.
  destruct (encode_clean e) as [Ha Hz].
  split; [reflexivity|]. split.
  - change ("expr=" ++ encode_uri_component e)
      with ("expr" ++ "=" ++ encode_uri_component e).
    apply (get_query_param_pair "expr" (encode_uri_component e) "");
      auto; reflexivity.
  - unfold get_query_param. rewrite tokens_last.
    + reflexivity.
    + simpl. exact Ha.
    + simpl. exact Hz.
    + discriminate.
Qed.

Lemma table_request (e : string) :
  is_empty (c_string ("expr=" ++ encode_uri_component e ++ "&mode=tt")) = false /\
  get_query_param ("expr=" ++ encode_uri_component e ++ "&mode=tt") "expr"
  = Some (encode_uri_component e) /\
  get_query_param ("expr=" ++ encode_uri_component e ++ "&mode=tt") "mode"
  = Some "tt".
Proof.
  destruct (encode_clean e) as [Ha Hz].
  split; [reflexivity|]. split.
  - change ("expr=" ++ encode_uri_component e ++ "&mode=tt")
      with ("expr" ++ "=" ++ encode_uri_component e ++ "&" ++ "mode=tt").
    apply (get_query_param_pair "expr" (encode_uri_component e) "mode=tt");
      auto; reflexivity.
  - replace ("expr=" ++ encode_uri_component e ++ "&mode=tt")
      with (("expr=" ++ encode_uri_component e) ++ "&" ++ "mode=tt")
      by (rewrite append_assoc; reflexivity).
    rewrite get_query_param_pass.
    + reflexivity.
    + simpl. exact Ha.
    + simpl. exact Hz.
    + reflexivity.
Qed.

(** X18.  A request as script.js sends it, [expr=] followed by the
    encoded expression: the program evaluates exactly that expression with
    every variable true, prints it back with the result, and exits with
    status 0. *)
Theorem server_evaluates_request (e : string) (st : state)
        (He : no_nul e = true) :
  exists v st',
    evaluate_boolean_expression Cgi e st = Ok (v, st') /\
    server_main (Some ("expr=" ++ encode_uri_component e)) st
    = Ok (page_head
          ++ "<h2>Evaluation Result for Expression:</h2>"
          ++ "<p>" ++ e ++ "</p>"
          ++ "<p>Result: " ++ dec v ++ "</p>"
          ++ page_foot, 0, st').
Proof.
  destruct (cgi_returns e (mkState all_true (stderr st))) as (v & st' & E).
  change (evaluate_boolean_expression Cgi e st = Ok (v, st')) in E.
  exists v, st'. split; [exact E|].
  destruct (expr_request e) as (H1 & H2 & H3).
  unfold server_main. rewrite H1, H2, H3.
  rewrite decode_encode, c_string_no_nul by exact He.
  cbv zeta. cbv iota. rewrite E. reflexivity.
Qed.

Lemma server_evaluates_request_witness :
  no_nul "A + !B" = true /\
  exists v st',
    evaluate_boolean_expression Cgi "A + !B" st0 = Ok (v, st') /\
    server_main (Some ("expr=" ++ encode_uri_component "A + !B")) st0
    = Ok (page_head
          ++ "<h2>Evaluation Result for Expression:</h2>"
          ++ "<p>" ++ "A + !B" ++ "</p>"
          ++ "<p>Result: " ++ dec v ++ "</p>"
          ++ page_foot, 0, st').
Proof.
  split; [reflexivity|]. apply (server_evaluates_request "A + !B" st0). reflexivity.
Defined.

(** X19.  The same request with [&mode=tt], for an expression with at
    most 30 distinct letters: the program prints the expression and the
    table that [generate_truth_table] computes for it, and exits with
    status 0. *)
Theorem server_tabulates_request (e : string) (st : state)
        (He : no_nul e = true)
        (Hn : (List.length (variables e) <= 30)%nat) :
  exists rows st',
    generate_truth_table Cgi e st = Ok (rows, st') /\
    Z.of_nat (List.length rows) = 2 ^ Z.of_nat (List.length (variables e)) /\
    server_main (Some ("expr=" ++ encode_uri_component e ++ "&mode=tt")) st
    = Ok (page_head
          ++ "<h2>Truth Table for Expression:</h2>"
          ++ "<p>" ++ e ++ "</p>"
          ++ html_table (variables e) rows
          ++ page_foot, 0, st').
Proof.
  destruct (cgi_table_rows e st Hn) as (rows & st' & E & Hlen & _).
  exists rows, st'. split; [exact E|]. split; [exact Hlen|].
  destruct (table_request e) as (H1 & H2 & H3).
  unfold server_main. rewrite H1, H2, H3.
  rewrite decode_encode, c_string_no_nul by exact He.
  cbv zeta. change (String.eqb "tt" "tt") with true. cbv iota.
  rewrite E. reflexivity.
Qed.

Lemma server_tabulates_request_witness :
  no_nul "A + !B" = true /\ (List.length (variables "A + !B") <= 30)%nat /\
  exists rows st',
    generate_truth_table Cgi "A + !B" st0 = Ok (rows, st') /\
    Z.of_nat (List.length rows) = 2 ^ Z.of_nat (List.length (variables "A + !B")) /\
    server_main (Some ("expr=" ++ encode_uri_component "A + !B" ++ "&mode=tt")) st0
    = Ok (page_head
          ++ "<h2>Truth Table for Expression:</h2>"
          ++ "<p>" ++ "A + !B" ++ "</p>"
          ++ html_table (variables "A + !B") rows
          ++ page_foot, 0, st').
Proof.
  split; [reflexivity|]. split; [vm_compute; lia|].
  apply (server_tabulates_request "A + !B" st0); [reflexivity | vm_compute; lia].
Defined.

(** X20.  The exit status: whenever the program returns, its status is 1
    when QUERY_STRING is not set or holds no token [expr=...] (an empty
    query among them), and then nothing was evaluated; it is 0
    otherwise. *)
Theorem server_exit_status
        (q : option string) (st st' : state) (out : string) (status : Z)
        (H : server_main q st = Ok (out, status, st')) :
  (match q with
   | None => True
   | Some query => get_query_param query "expr" = None
   end -> status = 1 /\ st' = st) /\
  (match q with
   | None => False
   | Some query => get_query_param query "expr" <> None
   end -> status = 0).
Proof.
  unfold server_main in H.
  destruct q as [query|].
  - destruct (is_empty (c_string query)) eqn:Ee.
    + inversion H. subst. split; [auto|].
      intros Hx. exfalso. apply Hx. apply empty_query_has_no_param. exact Ee.
    + destruct (get_query_param query "expr") as [p|] eqn:Ep.
      * split; [discriminate|]. intros _.
        destruct (match get_query_param query "mode" with
                  | Some mode_param => String.eqb mode_param "tt"
                  | None => false
                  end).
        -- destruct (generate_truth_table Cgi (c_string (url_decode p)) st)
             as [[rows s1]|f]; [|discriminate H]. inversion H. reflexivity.
        -- destruct (evaluate_boolean_expression Cgi (c_string (url_decode p)) st)
             as [[res s1]|f]; [|discriminate H]. inversion H. reflexivity.
      * inversion H. subst. split; [auto|]. intros Hx. contradiction Hx. reflexivity.
  - inversion H. subst. split; [auto | contradiction].
Qed.

Lemma server_exit_status_witness :
  server_main (Some "mode=tt&expression=A") st0
  = Ok (page_head ++ "<h2>Error: No expression provided.</h2>" ++ page_foot, 1, st0) /\
  (get_query_param "mode=tt&expression=A" "expr" = None -> 1 = 1 /\ st0 = st0) /\
  (get_query_param "mode=tt&expression=A" "expr" <> None -> 1 = 0).
Proof.
  split; [reflexivity|].
  apply (server_exit_status (Some "mode=tt&expression=A") st0 st0
           (page_head ++ "<h2>Error: No expression provided.</h2>" ++ page_foot) 1).
  reflexivity.
Defined.

(** ** The input of [main] of solver.c *)

Lemma fgets_bytes_line (line rest : string) :
  forall n,
    occurs newline line = false -> (String.length line < n)%nat ->
    fgets_bytes n (line ++ String newline rest) = line ++ String newline "".
Proof.
  induction line as [|c line IH]; intros n Hnl Hn.
  - destruct n; [simpl in Hn; lia | reflexivity].
  - simpl in Hnl. apply orb_false_elim in Hnl. destruct Hnl as [Hc Hl].
    destruct n; [simpl in Hn; lia|]. simpl in Hn.
    simpl. rewrite Hc. f_equal. apply IH; [exact Hl | lia].
Qed.

Lemma fgets_bytes_all (line : string) :
  forall n,
    occurs newline line = false -> (String.length line <= n)%nat ->
    fgets_bytes n line = line.
Proof.
  induction line as [|c line IH]; intros n Hnl Hn.
  - destruct n; reflexivity.
  - simpl in Hnl. apply orb_false_elim in Hnl. destruct Hnl as [Hc Hl].
    destruct n; [simpl in Hn; lia|]. simpl in Hn.
    simpl. rewrite Hc. f_equal. apply IH; [exact Hl | lia].
Qed.

Lemma chomp_line (line : string) : chomp (line ++ String newline "") = line.
Proof.
  induction line as [|c line IH]; [reflexivity|].
  change (String c line ++ String newline "")
    with (String c (line ++ String newline "")).
  cbn [chomp]. rewrite IH.
  destruct line; reflexivity.
Qed.

Lemma chomp_no_newline (line : string) :
  occurs newline line = false -> chomp line = line.
Proof.
  induction line as [|c line IH]; intros H; [reflexivity|].
  simpl in H. apply orb_false_elim in H. destruct H as [Hc Hl].
  cbn [chomp]. rewrite IH by exact Hl. rewrite Hc.
  destruct line; reflexivity.
Qed.

(** X21.  The line typed by the user reaches the evaluator as it is: a
    first line of at most 254 bytes, closed by a newline, is the
    expression, whatever follows it; so is a last line of at most 255
    bytes that no newline closes. *)
Theorem solver_input_line (line rest : string)
        (Hnl : occurs newline line = false) (Hz : no_nul line = true) :
  ((String.length line <= 254)%nat ->
   solver_input (line ++ String newline rest) = Some line) /\
  ((0 < String.length line <= 255)%nat -> solver_input line = Some line).
Proof.
  split; intros Hlen; unfold solver_input, fgets.
  - assert (E : fgets_bytes (256 - 1) (line ++ String newline rest)
                = line ++ String newline "").
    { apply fgets_bytes_line; [exact Hnl | simpl; lia]. }
    destruct (line ++ String newline rest) eqn:D.
    { destruct line; discriminate D. }
    rewrite E. rewrite c_string_no_nul.
    + rewrite chomp_line. reflexivity.
    + rewrite no_nul_app, Hz. reflexivity.
  - destruct line as [|c l] eqn:D; [simpl in Hlen; lia|]. rewrite <- D in *.
    rewrite fgets_bytes_all by (auto; simpl; lia).
    rewrite c_string_no_nul by exact Hz.
    rewrite chomp_no_newline by exact Hnl. reflexivity.
Qed.

Lemma solver_input_line_witness :
  occurs newline "A + B" = false /\ no_nul "A + B" = true /\
  ((String.length "A + B" <= 254)%nat ->
   solver_input ("A + B" ++ String newline "C") = Some "A + B") /\
  ((0 < String.length "A + B" <= 255)%nat -> solver_input "A + B" = Some "A + B").
Proof.
  split; [reflexivity|]. split; [reflexivity|].
  apply (solver_input_line "A + B" "C"); reflexivity.
Defined.

Lemma fgets_bytes_prefix (input : string) :
  forall n, (String.length (fgets_bytes n input) <= n)%nat /\
            exists rest, input = fgets_bytes n input ++ rest.
Proof.
  induction input as [|c r IH]; intros n.
  - destruct n; simpl; (split; [lia | exists ""; reflexivity]).
  - destruct n; simpl.
    + split; [lia|]. eexists. reflexivity.
    + destruct (Ascii.eqb c newline); simpl.
      * split; [lia|]. exists r. reflexivity.
      * destruct (IH n) as (L & rest & E). split; [lia|].
        exists rest. rewrite <- E. reflexivity.
Qed.

Lemma c_string_prefix (s : string) :
  (String.length (c_string s) <= String.length s)%nat /\
  exists rest, s = c_string s ++ rest.
Proof.
  induction s as [|c r (L & rest & E)]; simpl.
  - split; [lia | exists ""; reflexivity].
  - destruct (nonzero c); simpl.
    + split; [lia|]. exists rest. rewrite <- E. reflexivity.
    + split; [lia|]. eexists. reflexivity.
Qed.

Lemma chomp_prefix (s : string) :
  (String.length (chomp s) <= String.length s)%nat /\
  exists rest, s = chomp s ++ rest.
Proof.
  induction s as [|c r (L & rest & E)].
  - split; [simpl; lia | exists ""; reflexivity].
  - cbn [chomp]. destruct r as [|d r'].
    + destruct (Ascii.eqb c newline); simpl.
      * split; [lia|]. eexists. reflexivity.
      * split; [lia|]. exists "". reflexivity.
    + split; [simpl in *; lia|]. exists rest.
      change (String c (chomp (String d r')) ++ rest)
        with (String c (chomp (String d r') ++ rest)).
      rewrite <- E. reflexivity.
Qed.

Lemma no_nul_chomp (s : string) : no_nul s = true -> no_nul (chomp s) = true.
Proof.
  induction s as [|c r IH]; intros H; [reflexivity|].
  simpl in H. apply andb_prop in H. destruct H as [Hc Hr].
  cbn [chomp]. destruct r as [|d r'].
  - destruct (Ascii.eqb c newline); simpl; [reflexivity | rewrite Hc; reflexivity].
  - cbn [no_nul]. rewrite Hc. apply IH. exact Hr.
Qed.

Lemma fgets_prefix (size : nat) (input buf : string) :
  fgets size input = Some buf ->
  (String.length buf <= size - 1)%nat /\ exists rest, input = buf ++ rest.
Proof.
  unfold fgets. intros H.
  assert (E : buf = fgets_bytes (size - 1) input).
  { destruct input; [discriminate H | congruence]. }
  subst buf. apply fgets_bytes_prefix.
Qed.

(** X22.  Whatever is typed, the expression handed to the evaluator is the
    beginning of the input, cut after 255 bytes at the latest: a longer
    line is silently shortened, never overrunning the array of 256
    bytes. *)
Theorem solver_input_bound (input e : string)
        (H : solver_input input = Some e) :
  (String.length e <= 255)%nat /\ no_nul e = true /\
  exists rest, input = e ++ rest.
Proof.
  unfold solver_input in H.
  destruct (fgets 256 input) as [buf|] eqn:F; [|discriminate H].
  assert (E : e = chomp (c_string buf)) by congruence. subst e. clear H.
  destruct (fgets_prefix 256 input buf F) as (L1 & r1 & E1).
  destruct (c_string_prefix buf) as (L2 & r2 & E2).
  destruct (chomp_prefix (c_string buf)) as (L3 & r3 & E3).
  change (256 - 1)%nat with 255%nat in L1.
  split; [lia|].
  split; [apply no_nul_chomp, no_nul_c_string|].
  exists (r3 ++ r2 ++ r1).
  rewrite E1 at 1. rewrite E2 at 1. rewrite E3 at 1.
  rewrite !append_assoc. reflexivity.
Qed.

Lemma solver_input_bound_witness :
  solver_input (String "A" (String newline "B")) = Some "A" /\
  (String.length "A" <= 255)%nat /\ no_nul "A" = true /\
  exists rest, String "A" (String newline "B") = "A" ++ rest.
Proof.
  split; [reflexivity|].
  apply (solver_input_bound (String "A" (String newline "B")) "A"). reflexivity.
Defined.

(** ** The variables an evaluation depends on *)

(** X23.  The value of an expression depends on the variables that occur
    in it only: two mappings that agree on the letters found by the scan
    of [generate_truth_table] give the same result, or the same failure. *)
Theorem evaluation_depends_on_variables
        (h : host) (expr : string) (m1 m2 : mapping) (st : state)
        (H : forall c, In c (variables expr) -> m1 c = m2 c) :
  value_of (evaluate_expr_with_mapping h expr m1 st)
  = value_of (evaluate_expr_with_mapping h expr m2 st).
Proof. apply run_parser_depends. exact H. Qed.

Lemma evaluation_depends_on_variables_witness :
  (forall c, In c (variables "A + B") -> all_true c = update all_true "C" 0 c) /\
  value_of (evaluate_expr_with_mapping Cgi "A + B" all_true st0)
  = value_of (evaluate_expr_with_mapping Cgi "A + B" (update all_true "C" 0) st0).
Proof.
  assert (H : forall c, In c (variables "A + B") ->
                        all_true c = update all_true "C" 0 c).
  { intros c [<- | [<- | []]]; reflexivity. }
  split; [exact H|].
  apply (evaluation_depends_on_variables Cgi "A + B" all_true
           (update all_true "C" 0) st0 H).
Defined.

(** ** The table covers every assignment *)

Lemma table_rows_ok (h : host) (expr : string) (vars : list ascii) :
  forall todo i st rows st',
  table_rows h expr vars todo i st = Ok (rows, st') ->
  List.length rows = todo /\
  forall d, (d < todo)%nat ->
    exists r,
      nth_error rows d = Some r /\
      cells r = row_cells h vars (i + Z.of_nat d) /\
      forall sx,
        value_of (evaluate_expr_with_mapping h expr
                    (row_mapping vars (i + Z.of_nat d)) sx) = Ok (result r).
Proof.
  induction todo as [|todo IH]; intros i st rows st' T.
  - inversion T; subst. split; [reflexivity|]. intros d Hd. lia.
  - cbn [table_rows] in T.
    destruct (evaluate_expr_with_mapping h expr (row_mapping vars i) st)
      as [[res st1]|f] eqn:E; [|discriminate T].
    destruct (table_rows h expr vars todo (i + 1) st1) as [[rows1 st2]|f] eqn:E';
      [|discriminate T].
    inversion T; subst. clear T.
    destruct (IH (i + 1) st1 rows1 st' E') as (Hlen & Hrows).
    split; [simpl; rewrite Hlen; reflexivity|].
    intros d Hd. destruct d as [|d].
    + eexists. split; [reflexivity|]. cbn [cells result].
      rewrite Z.add_0_r. split; [reflexivity|].
      intros sx. unfold evaluate_expr_with_mapping in *.
      rewrite (run_parser_value h expr
                 (mkState (row_mapping vars i) (stderr sx))
                 (mkState (row_mapping vars i) (stderr st)) eq_refl).
      rewrite E. reflexivity.
    + destruct (Hrows d ltac:(lia)) as (r & Hn & Hc & Hv).
      exists r. replace (i + Z.of_nat (S d)) with (i + 1 + Z.of_nat d) by lia.
      repeat split; assumption.
Qed.

Lemma number_of_bits_snoc (bits : list Z) (b : Z) :
  number_of_bits (bits ++ [b]) = 2 * number_of_bits bits + b.
Proof. unfold number_of_bits. rewrite fold_left_app. reflexivity. Qed.

Lemma number_of_bits_spec (bits : list Z) :
  (forall b, In b bits -> b = 0 \/ b = 1) ->
  0 <= number_of_bits bits < 2 ^ Z.of_nat (List.length bits) /\
  forall j, (j < List.length bits)%nat ->
    Z.b2z (Z.testbit (number_of_bits bits)
                     (Z.of_nat (List.length bits - 1 - j)))
    = nth j bits 0.
Proof.
  induction bits as [|b bits IH] using rev_ind; intros B.
  - split; [vm_compute; split; [discriminate | reflexivity]|].
    intros j Hj. simpl in Hj. lia.
  - assert (B' : forall x, In x bits -> x = 0 \/ x = 1).
    { intros x Hx. apply B. apply in_or_app. left. exact Hx. }
    assert (Hb : b = 0 \/ b = 1).
    { apply B. apply in_or_app. right. left. reflexivity. }
    destruct (IH B') as (R & Hbits).
    rewrite number_of_bits_snoc, length_app. cbn [List.length].
    split.
    { replace (Z.of_nat (List.length bits + 1))
        with (Z.succ (Z.of_nat (List.length bits))) by lia.
      rewrite Z.pow_succ_r by lia. lia. }
    intros j Hj.
    assert (Eb : exists b', b = Z.b2z b').
    { destruct Hb as [-> | ->]; [exists false | exists true]; reflexivity. }
    destruct Eb as (b' & ->).
    destruct (Nat.eq_dec j (List.length bits)) as [-> | N].
    + replace (List.length bits + 1 - 1 - List.length bits)%nat with 0%nat by lia.
      rewrite Z.testbit_0_r.
      rewrite app_nth2 by lia. rewrite Nat.sub_diag. reflexivity.
    + replace (Z.of_nat (List.length bits + 1 - 1 - j))
        with (Z.succ (Z.of_nat (List.length bits - 1 - j))) by lia.
      rewrite Z.testbit_succ_r by lia.
      rewrite app_nth1 by lia. apply Hbits. lia.
Qed.

(** X24.  Whenever [generate_truth_table] produces a table, the table
    covers every assignment of 0 and 1 to the variables: for a mapping m
    that gives 0 or 1 to each variable of the expression, the row whose
    number has the values of m as its binary digits, the first variable
    the most significant, shows these values in its cells and, as its
    result, the value of the expression under m, whatever m gives to
    other characters. *)
Theorem truth_table_is_complete
        (h : host) (expr : string) (st st' : state) (rows : list row)
        (m : mapping)
        (T : generate_truth_table h expr st = Ok (rows, st'))
        (B : forall c, In c (variables expr) -> m c = 0 \/ m c = 1) :
  exists r,
    nth_error rows (Z.to_nat (number_of_bits (map m (variables expr)))) = Some r /\
    cells r = map m (variables expr) /\
    value_of (evaluate_expr_with_mapping h expr m st) = Ok (result r).
Proof.
  unfold generate_truth_table in T.
  set (vars := variables expr) in *.
  set (n := List.length vars) in *.
  unfold shift_left_one in T.
  destruct ((0 <=? Z.of_nat n) && (Z.of_nat n <? 31)) eqn:Hn; [|discriminate T].
  rewrite Z.shiftl_1_l in T.
  destruct (table_rows_ok h expr vars _ _ _ _ _ T) as (Hlen & Hrows).
  assert (B' : forall b, In b (map m vars) -> b = 0 \/ b = 1).
  { intros b Hb. apply in_map_iff in Hb. destruct Hb as (c & <- & Hc).
    apply B. exact Hc. }
  destruct (number_of_bits_spec (map m vars) B') as (R & Hbits).
  rewrite length_map in R, Hbits. fold n in R, Hbits.
  set (i := Z.to_nat (number_of_bits (map m vars))) in *.
  assert (Hi : Z.of_nat i = number_of_bits (map m vars)) by (unfold i; lia).
  assert (Hcell : forall j, (j < n)%nat -> bit i (n - 1 - j) = m (nth j vars NUL)).
  { intros j Hj. unfold bit. rewrite Hi, Hbits by exact Hj.
    rewrite (nth_indep _ 0 (m NUL)) by (rewrite length_map; exact Hj).
    apply map_nth. }
  destruct (Hrows i ltac:(lia)) as (r & Hnth & Hc & Hv).
  exists r. split; [exact Hnth|].
  rewrite Z.add_0_l in Hc, Hv.
  split.
  - rewrite Hc, row_cells_bits by apply variables_NoDup. fold vars. fold n.
    transitivity (map m (map (fun j => nth j vars NUL) (seq 0 n)));
      [|unfold n; rewrite map_nth_seq; reflexivity].
    rewrite map_map.
    apply map_ext_in. intros j Hj. apply in_seq in Hj. apply Hcell. lia.
  - rewrite <- (Hv st). unfold evaluate_expr_with_mapping.
    apply run_parser_depends. intros c Hc'. fold vars in Hc'.
    destruct (In_nth vars c NUL Hc') as (j & Hj & <-).
    rewrite row_mapping_bits by (apply variables_NoDup || exact Hj).
    symmetry. apply Hcell. exact Hj.
Qed.

Lemma truth_table_is_complete_witness :
  exists rows st',
    generate_truth_table CommandLine "!A + B" st0 = Ok (rows, st') /\
    (forall c, In c (variables "!A + B") ->
               update all_true "B" 0 c = 0 \/ update all_true "B" 0 c = 1) /\
    exists r,
      nth_error rows
        (Z.to_nat (number_of_bits (map (update all_true "B" 0)
                                       (variables "!A + B")))) = Some r /\
      cells r = map (update all_true "B" 0) (variables "!A + B") /\
      value_of (evaluate_expr_with_mapping CommandLine "!A + B"
                  (update all_true "B" 0) st0) = Ok (result r).
Proof.
  destruct (generate_truth_table CommandLine "!A + B" st0) as [[rows st']|f] eqn:T;
    [|vm_compute in T; discriminate T].
  exists rows, st'. split; [reflexivity|].
  assert (B : forall c, In c (variables "!A + B") ->
               update all_true "B" 0 c = 0 \/ update all_true "B" 0 c = 1).
  { intros c [<- | [<- | []]]; [right | left]; reflexivity. }
  split; [exact B|].
  apply (truth_table_is_complete CommandLine "!A + B" st0 st' rows
           (update all_true "B" 0) T B).
Defined.
